(** * Parameter sweep and fidelity extraction for the [[5,1,3]] code simulations

    A shallow embedding of [simulator_program/data_analysis_tools.py] and of
    the logical-subspace projections of [idle_comparison.py].

    Conventions of the embedding.
    - Python [int]s are [Z]; a NumPy [dtype=int] cell is a signed 64-bit
      integer, and storing a Python integer outside that range raises
      [OverflowError].
    - A raised exception is [None]; code that returns normally is [Some].
    - Floats that the pipeline only passes around, compares or rescales are
      the rationals they denote ([Q]); where the code takes logarithms and
      exponentials they are read as real numbers ([R]); the complex arrays
      of the projections have rational real and imaginary parts.  Rounding
      is not modelled.
    - Calls into qiskit, scipy and the sibling modules that are not part of
      these files are fields of an interface class, threaded through an
      explicit world state; what they do observably (warnings, messages,
      executions, fits, files) is recorded in an event log. *)

From Stdlib Require Import ZArith QArith Qcanon Reals Lia Psatz Field.
From stdpp Require Import base option list gmap strings pretty.

Close Scope Q_scope.
Close Scope Qc_scope.

(** ** Flat index to multi-index: [_get_array_indexes] *)

Module ArrayIndexes.

Local Open Scope Z_scope.

(** Range of a NumPy [int64] cell. *)
Definition int64_min : Z := - 2 ^ 63.
Definition int64_max : Z := 2 ^ 63 - 1.

(** [a[i] = v] on a [dtype=int] array with a non-negative position:
    [IndexError] outside the array, [OverflowError] outside 64 bits. *)
Definition store64 (a : list Z) (i : nat) (v : Z) : option (list Z) :=
  if decide (i < length a)%nat then
    if decide (int64_min <= v <= int64_max) then Some (<[i := v]> a) else None
  else None.

(** [a[-1] = v]. *)
Definition store64_last (a : list Z) (v : Z) : option (list Z) :=
  match length a with
  | O => None
  | S n => store64 a n v
  end.

(** [np.zeros(n, dtype=int)]. *)
Definition np_zeros_int (n : nat) : list Z := replicate n 0.

(** One pass of the loop body at position [i].  NumPy's [//] on integers is
    floor division and yields 0 for a zero divisor, which is [Z.div]. *)
Definition carry (sweep_lengths : list Z) (indexes : list Z) (i : nat)
  : option (list Z) :=
  v ← indexes !! S i;
  l ← sweep_lengths !! S i;
  if l <=? v then
    indexes1 ← store64 indexes i (v / l);
    q ← indexes1 !! i;
    v1 ← indexes1 !! S i;
    store64 indexes1 (S i) (v1 - q * l)
  else Some indexes.

Fixpoint carry_loop (sweep_lengths : list Z) (positions : list nat)
  (indexes : list Z) : option (list Z) :=
  match positions with
  | [] => Some indexes
  | i :: rest => indexes' ← carry sweep_lengths indexes i;
                 carry_loop sweep_lengths rest indexes'
  end.

(** [_get_array_indexes(index, sweep_lengths)]; the positions visited are
    [reversed(range(len(sweep_lengths)-1))]. *)
Definition _get_array_indexes (index : Z) (sweep_lengths : list Z)
  : option (list Z) :=
  let n := length sweep_lengths in
  indexes ← store64_last (np_zeros_int n) index;
  carry_loop sweep_lengths (reverse (seq 0 (n - 1))) indexes.

(** Product of the dimensions. *)
Definition product (l : list Z) : Z := foldr Z.mul 1 l.

(** Row-major flat index of a multi-index:
    the sum of [t[i] * product(sweep_lengths[i+1:])]. *)
Fixpoint ravel (sweep_lengths t : list Z) : Z :=
  match sweep_lengths, t with
  | _ :: ls, x :: ts => x * product ls + ravel ls ts
  | _, _ => 0
  end.

(** The multi-index is inside the array of shape [sweep_lengths]. *)
Definition in_bounds (sweep_lengths t : list Z) : Prop :=
  Forall2 (fun l x => 0 <= x < l) sweep_lengths t.

(** Row-major unravelling as the specification words it (NumPy's
    [unravel_index] in C order): digit [i] is the flat index divided by the
    product of the later dimensions, reduced modulo dimension [i]. *)
Fixpoint unravel_index (index : Z) (shape : list Z) : list Z :=
  match shape with
  | [] => []
  | l :: ls => (index / product ls) mod l :: unravel_index index ls
  end.

(** *** Arithmetic of the mixed-radix representation *)

Lemma product_pos (l : list Z) : Forall (fun x => 0 < x) l -> 0 < product l.
Proof.
  induction 1 as [|x l Hx _ IH]; simpl; [lia | nia].
Qed.

Lemma div_small_range (a b : Z) : 0 <= a -> 0 < b -> 0 <= a / b <= a.
Proof.
  intros Ha Hb. split.
  - apply Z.div_pos; lia.
  - apply Z.div_le_upper_bound; nia.
Qed.

Lemma unravel_index_length (index : Z) (shape : list Z) :
  length (unravel_index index shape) = length shape.
Proof. induction shape; simpl; congruence. Qed.

Lemma unravel_index_in_bounds (index : Z) (shape : list Z) :
  Forall (fun x => 0 < x) shape -> in_bounds shape (unravel_index index shape).
Proof.
  unfold in_bounds. induction 1 as [|l ls Hl _ IH]; simpl; constructor; auto.
  apply Z.mod_pos_bound; lia.
Qed.

Lemma ravel_unravel_index (index : Z) (shape : list Z) :
  Forall (fun x => 0 < x) shape ->
  ravel shape (unravel_index index shape) = index mod product shape.
Proof.
  induction 1 as [|l ls Hl Hls IH]; simpl.
  - now rewrite Z.mod_1_r.
  - rewrite IH. pose proof (product_pos ls Hls) as HP.
    rewrite (Z.mul_comm l (product ls)).
    rewrite Z.rem_mul_r by lia. lia.
Qed.

Lemma ravel_range (shape t : list Z) :
  in_bounds shape t -> 0 <= ravel shape t < product shape.
Proof.
  unfold in_bounds. induction 1 as [|l x ls ts Hx _ IH]; simpl; [lia | nia].
Qed.

Lemma unravel_index_shift (a k : Z) (shape : list Z) :
  Forall (fun x => 0 < x) shape ->
  unravel_index (a + k * product shape) shape = unravel_index a shape.
Proof.
  intros H. revert k. induction H as [|l ls Hl Hls IH]; intros k; simpl; [done|].
  pose proof (product_pos ls Hls) as HP. f_equal.
  - replace (a + k * (l * product ls)) with (a + (k * l) * product ls) by ring.
    rewrite Z.div_add by lia. now rewrite Z.mod_add by lia.
  - replace (k * (l * product ls)) with ((k * l) * product ls) by ring. apply IH.
Qed.

(** A multi-index inside the array is determined by its flat index. *)
Lemma unravel_index_ravel (shape t : list Z) :
  in_bounds shape t -> unravel_index (ravel shape t) shape = t.
Proof.
  intros H. assert (Hpos : Forall (fun x => 0 < x) shape).
  { unfold in_bounds in H. induction H; constructor; auto; lia. }
  induction H as [|l x ls ts Hx Hrest IH]; simpl; [done|].
  inversion Hpos as [|? ? Hl Hls]; subst.
  pose proof (product_pos ls Hls) as HP.
  pose proof (ravel_range ls ts Hrest) as Hr.
  f_equal.
  - rewrite Z.add_comm, Z.div_add by lia.
    rewrite (Z.div_small (ravel ls ts)) by lia. simpl.
    apply Z.mod_small; lia.
  - rewrite Z.add_comm, unravel_index_shift by done. now apply IH.
Qed.

(** *** The loop of [_get_array_indexes] *)

Lemma store64_app (pre post : list Z) (old v : Z) :
  int64_min <= v <= int64_max ->
  store64 (pre ++ old :: post) (length pre) v = Some (pre ++ v :: post).
Proof.
  intros Hv. unfold store64.
  rewrite decide_True by (rewrite length_app; simpl; lia).
  rewrite decide_True by done.
  rewrite insert_app_r_alt by lia. now rewrite Nat.sub_diag.
Qed.

Lemma carry_at (sweep_lengths pre ds : list Z) (q l : Z) (i : nat) :
  length pre = i ->
  sweep_lengths !! S i = Some l ->
  0 < l -> 0 <= q <= int64_max ->
  carry sweep_lengths (pre ++ 0 :: q :: ds) i
  = Some (pre ++ q / l :: q mod l :: ds).
Proof.
  intros Hlen Hl Hpos Hq. subst i. unfold carry.
  assert (Hmin : int64_min < 0) by (unfold int64_min; lia).
  assert (Hget : forall x, (pre ++ x :: q :: ds) !! S (length pre) = Some q).
  { intros x. rewrite lookup_app_r by lia.
    now replace (S (length pre) - length pre)%nat with 1%nat by lia. }
  rewrite Hget, Hl. simpl.
  destruct (Z.leb_spec l q) as [Hle | Hlt].
  - pose proof (div_small_range q l ltac:(lia) Hpos) as Hd.
    pose proof (Z.mod_pos_bound q l Hpos) as Hm.
    assert (Heq : q - q / l * l = q mod l) by (rewrite Z.mod_eq by lia; ring).
    rewrite store64_app by lia. simpl.
    rewrite (list_lookup_middle pre _ _ (length pre)) by done. simpl.
    rewrite Hget. simpl.
    replace (pre ++ q / l :: q :: ds) with ((pre ++ [q / l]) ++ q :: ds)
      by now rewrite <- app_assoc.
    replace (S (length pre)) with (length (pre ++ [q / l]))
      by (rewrite length_app; simpl; lia).
    rewrite store64_app by (rewrite Heq; lia).
    rewrite Heq. now rewrite <- app_assoc.
  - rewrite Z.div_small by lia. now rewrite Z.mod_small by lia.
Qed.

Lemma carry_loop_digits (sweep_lengths : list Z) (index : Z) (j : nat) :
  (j < length sweep_lengths)%nat ->
  Forall (fun x => 0 < x) sweep_lengths ->
  0 <= index <= int64_max ->
  carry_loop sweep_lengths (reverse (seq 0 j))
    (replicate j 0 ++ index / product (drop (S j) sweep_lengths)
                   :: unravel_index index (drop (S j) sweep_lengths))
  = Some (index / product (drop 1 sweep_lengths)
          :: unravel_index index (drop 1 sweep_lengths)).
Proof.
  intros Hj Hpos Hidx. induction j as [|i IH]; [done|].
  destruct (lookup_lt_is_Some_2 sweep_lengths (S i) Hj) as [l Hl].
  assert (Hlpos : 0 < l).
  { rewrite Forall_lookup in Hpos. exact (Hpos _ _ Hl). }
  assert (Hdrop : drop (S i) sweep_lengths = l :: drop (S (S i)) sweep_lengths)
    by now apply drop_S.
  assert (HP : 0 < product (drop (S (S i)) sweep_lengths))
    by (apply product_pos, Forall_drop, Hpos).
  pose proof (div_small_range index _ ltac:(lia) HP) as Hq.
  specialize (IH ltac:(lia)). rewrite Hdrop in IH.
  cbn [unravel_index product foldr] in IH. fold (product (drop (S (S i)) sweep_lengths)) in IH.
  rewrite seq_S, reverse_app. cbn [reverse rev_append app Nat.add carry_loop].
  change (reverse []) with (@nil nat). cbn [app carry_loop].
  rewrite replicate_S_end, <- app_assoc. cbn [app].
  rewrite (carry_at _ _ _ _ l) by (rewrite ?length_replicate; auto; lia).
  cbn [mbind option_bind]. rewrite Z.div_div by lia.
  rewrite (Z.mul_comm l) in IH. exact IH.
Qed.

Lemma get_array_indexes_unravel (index : Z) (sweep_lengths : list Z) :
  sweep_lengths <> [] ->
  Forall (fun x => 0 < x) sweep_lengths ->
  0 <= index < product sweep_lengths ->
  index <= int64_max ->
  _get_array_indexes index sweep_lengths
  = Some (unravel_index index sweep_lengths).
Proof.
  intros Hne Hpos Hidx Hmax. unfold _get_array_indexes.
  destruct sweep_lengths as [|l0 ls]; [done|]. clear Hne.
  cbn [length]. unfold store64_last, np_zeros_int.
  rewrite length_replicate.
  replace (replicate (S (length ls)) 0) with (replicate (length ls) 0 ++ [0])
    by (now rewrite <- replicate_S_end).
  rewrite <- (length_replicate (length ls) 0) at 2.
  assert (Hmin : int64_min < 0) by (unfold int64_min; lia).
  rewrite store64_app by lia. simpl.
  rewrite Nat.sub_0_r.
  pose proof (carry_loop_digits (l0 :: ls) index (length ls)
                ltac:(simpl; lia) Hpos ltac:(lia)) as Hloop.
  replace (drop (S (length ls)) (l0 :: ls)) with (@nil Z) in Hloop
    by (simpl; now rewrite drop_all).
  simpl in Hloop. rewrite Z.div_1_r in Hloop. rewrite drop_0 in Hloop.
  rewrite Hloop. f_equal. f_equal.
  inversion Hpos as [|? ? Hl0 Hls]; subst.
  pose proof (product_pos ls Hls) as HP. simpl in Hidx.
  symmetry. apply Z.mod_small. split.
  - apply Z.div_pos; lia.
  - apply Z.div_lt_upper_bound; lia.
Qed.

(** C3 (as stated, refuted).  The empty list is a list of positive integers
    and 0 is a flat index below its (empty) product 1, yet
    [indexes[-1] = index] raises [IndexError] on the empty array; likewise a
    flat index of 2^63 does not fit the [dtype=int] cell although it is below
    the product of the shape [[2^64]]. *)
Lemma get_array_indexes_empty_shape_raises :
  (Forall (fun x => 0 < x) [] /\ 0 <= 0 < product [] /\
   _get_array_indexes 0 [] = None) /\
  (Forall (fun x => 0 < x) [2 ^ 64] /\ 0 <= 2 ^ 63 < product [2 ^ 64] /\
   _get_array_indexes (2 ^ 63) [2 ^ 64] = None).
Proof.
  split; (split; [repeat constructor; lia | split; [simpl; lia | reflexivity]]).
Qed.

(** C3 (amended).  For every non-empty list [sweep_lengths] of positive
    integers and every flat index with [0 <= index < product sweep_lengths]
    that fits a 64-bit cell, [_get_array_indexes] returns the row-major
    multi-index of [index]: a tuple [t] of the same length with
    [0 <= t[i] < sweep_lengths[i]] whose weighted sum
    [sum_i t[i] * product(sweep_lengths[i+1:])] is [index]; it is the only
    such tuple and it is the C-order [unravel_index]. *)
Theorem get_array_indexes_row_major (index : Z) (sweep_lengths : list Z) :
  sweep_lengths <> [] ->
  Forall (fun x => 0 < x) sweep_lengths ->
  0 <= index < product sweep_lengths ->
  index <= int64_max ->
  exists t,
    _get_array_indexes index sweep_lengths = Some t /\
    length t = length sweep_lengths /\
    in_bounds sweep_lengths t /\
    ravel sweep_lengths t = index /\
    t = unravel_index index sweep_lengths /\
    (forall t', in_bounds sweep_lengths t' ->
                ravel sweep_lengths t' = index -> t' = t).
Proof.
  intros Hne Hpos Hidx Hmax. exists (unravel_index index sweep_lengths).
  split; [now apply get_array_indexes_unravel|].
  split; [apply unravel_index_length|].
  split; [now apply unravel_index_in_bounds|].
  split; [rewrite ravel_unravel_index by done; apply Z.mod_small; lia|].
  split; [done|].
  intros t' Hb <-. symmetry. now apply unravel_index_ravel.
Qed.

Lemma get_array_indexes_row_major_witness :
  exists t,
    _get_array_indexes 23 [2; 3; 4] = Some t /\
    length t = length [2; 3; 4] /\
    in_bounds [2; 3; 4] t /\
    ravel [2; 3; 4] t = 23 /\
    t = unravel_index 23 [2; 3; 4] /\
    (forall t', in_bounds [2; 3; 4] t' -> ravel [2; 3; 4] t' = 23 -> t' = t).
Proof.
  apply (get_array_indexes_row_major 23 [2; 3; 4]).
  - discriminate.
  - repeat constructor; lia.
  - simpl; lia.
  - unfold int64_max; lia.
Defined.

End ArrayIndexes.

(** ** The decay model [monoExp] *)

Module DecayModel.

Local Open Scope R_scope.

(** [monoExp(t, T, c, A)], with NumPy floats read as real numbers. *)
Definition monoExp (t T c A : R) : R := (A - c) * exp (- t / T) + c.

Lemma monoExp_at_zero (T c A : R) : monoExp 0 T c A = A.
Proof.
  unfold monoExp. replace (- 0 / T) with 0 by (unfold Rdiv; ring).
  rewrite exp_0. ring.
Qed.

Lemma monoExp_strictly_decreasing (T c A t1 t2 : R) :
  0 < T -> c < A -> t1 < t2 -> monoExp t2 T c A < monoExp t1 T c A.
Proof.
  intros HT HA Ht. unfold monoExp.
  apply Rplus_lt_compat_r, Rmult_lt_compat_l; [lra|].
  apply exp_increasing. unfold Rdiv.
  apply Rmult_lt_compat_r; [now apply Rinv_0_lt_compat | lra].
Qed.

Lemma monoExp_above_offset (T c A t : R) : c < A -> c < monoExp t T c A.
Proof.
  intros HA. unfold monoExp.
  pose proof (exp_pos (- t / T)) as He.
  assert (0 < (A - c) * exp (- t / T)) by (apply Rmult_lt_0_compat; lra).
  lra.
Qed.

(** C7.  For [T > 0] and [A > c] the fitted model is strictly decreasing in
    [t] on [t >= 0], equals [A] at [t = 0], and stays above [c]. *)
Theorem monoExp_decays_monotonically (T c A : R) :
  0 < T -> c < A ->
  (forall t1 t2, 0 <= t1 -> t1 < t2 ->
                 monoExp t2 T c A < monoExp t1 T c A) /\
  monoExp 0 T c A = A /\
  (forall t, 0 <= t -> c <= monoExp t T c A).
Proof.
  intros HT HA. split; [|split].
  - intros t1 t2 _ Ht. now apply monoExp_strictly_decreasing.
  - apply monoExp_at_zero.
  - intros t _. left. now apply monoExp_above_offset.
Qed.

Lemma monoExp_decays_monotonically_witness :
  (forall t1 t2, 0 <= t1 -> t1 < t2 ->
                 monoExp t2 40000 0 1 < monoExp t1 40000 0 1) /\
  monoExp 0 40000 0 1 = 1 /\
  (forall t, 0 <= t -> 0 <= monoExp t 40000 0 1).
Proof. apply (monoExp_decays_monotonically 40000 0 1); lra. Defined.

End DecayModel.

(** ** Python values and the interface to the simulation libraries *)

Module Py.

(** The Python values that travel through keyword arguments. *)
Inductive pyval :=
| PyNone
| PyBool (b : bool)
| PyInt (z : Z)
| PyFloat (q : Q)
| PyStr (s : string)
| PyObj (name : string).

(** [v == 'text']. *)
Definition py_eq_str (v : pyval) (s : string) : bool :=
  match v with
  | PyStr x => bool_decide (x = s)
  | _ => false
  end.

(** [v == x] for a float [x]. *)
Definition py_eq_float (v : pyval) (x : Q) : bool :=
  match v with
  | PyFloat q => Qeq_bool q x
  | PyInt z => Qeq_bool (inject_Z z) x
  | PyBool b => Qeq_bool (if b then 1%Q else 0%Q) x
  | _ => false
  end.

(** Truth value of [if v:]. *)
Definition py_truthy (v : pyval) : bool :=
  match v with
  | PyNone => false
  | PyBool b => b
  | PyInt z => negb (z =? 0)%Z
  | PyFloat q => negb (Qeq_bool q 0%Q)
  | PyStr s => negb (bool_decide (s = ""))
  | PyObj _ => true
  end.

(** Keyword dictionaries are [gmap string pyval]. *)

(** [f(k1=v1, ..., **kw)]: a keyword given twice is a [TypeError]. *)
Definition kw_call (explicit kw : gmap string pyval)
  : option (gmap string pyval) :=
  if bool_decide (explicit ##ₘ kw) then Some (explicit ∪ kw) else None.

(** A named parameter with a default, taken out of the caller's keywords. *)
Definition kw_param (kw : gmap string pyval) (name : string) (dflt : pyval)
  : pyval :=
  default dflt (kw !! name).

(** [range(n)]. *)
Definition range (n : Z) : list Z := Z.of_nat <$> seq 0 (Z.to_nat n).

(** [str(i)] for an integer. *)
Definition str (i : Z) : string := pretty i.

(** [l[1:-1]]. *)
Definition slice_1_m1 {A} (l : list A) : list A := removelast (tail l).

(** The float [np.pi/2] as the rational it denotes. *)
Definition half_pi : Q := (884279719003555 # 562949953421312)%Q.

End Py.

(** ** The fidelity pipeline of [data_analysis_tools.py] *)

Module Pipeline.

Import Py.
Export ArrayIndexes.

(** A [time] dictionary: snapshot label to time, in insertion order. *)
Definition timedict : Type := list (string * Q).

(** A NumPy array of floats: its shape and its cells in C (row-major)
    order. *)
Record ndarray := { nd_shape : list Z; nd_data : list Q }.

(** [np.zeros(shape)]: NumPy refuses a negative dimension and an array whose
    size in bytes (8 per float) does not fit a signed 64-bit integer. *)
Definition np_zeros (shape : list Z) : option ndarray :=
  if decide (Forall (fun l => 0 <= l)%Z shape
             /\ (product shape * 8 <= int64_max)%Z) then
    Some {| nd_shape := shape;
            nd_data := replicate (Z.to_nat (product shape)) 0%Q |}
  else None.

(** One index of an element access: negative indexes count from the end,
    anything else outside the dimension is an [IndexError]. *)
Definition norm_index (dim_index : Z * Z) : option Z :=
  let '(l, x) := dim_index in
  if decide (0 <= x < l)%Z then Some x
  else if decide (- l <= x < 0)%Z then Some (x + l)%Z
  else None.

(** Position in the cell list of the element at a full multi-index. *)
Definition nd_position (shape idx : list Z) : option nat :=
  if decide (length idx = length shape) then
    t ← mapM norm_index (zip shape idx);
    Some (Z.to_nat (ravel shape t))
  else None.

(** [a[idx]] and [a[idx] = v] for a tuple [idx] naming one element. *)
Definition nd_get (a : ndarray) (idx : list Z) : option Q :=
  p ← nd_position (nd_shape a) idx; nd_data a !! p.

Definition nd_set (a : ndarray) (idx : list Z) (v : Q) : option ndarray :=
  p ← nd_position (nd_shape a) idx;
  if decide (p < length (nd_data a)) then
    Some {| nd_shape := nd_shape a; nd_data := <[p := v]> (nd_data a) |}
  else None.

(** Instructions of the single-qubit circuit built by
    [get_idle_single_qubit]. *)
Inductive sq_instr {instruction : Type} :=
| Rx (theta : pyval)
| Rz (phi : pyval)
| SaveDensityMatrix (label : string)
| SaveExpectationValue (pauliop : pyval) (label : string)
| Append (e : instruction).
Arguments sq_instr : clear implicits.

(** What the pipeline calls but does not define: qiskit, qiskit Aer, scipy,
    NumPy's file output, and the sibling modules [custom_noise_models],
    [custom_transpiler], [stabilizers], [post_select] and [idle_noise].
    A call that raises returns [None]; calls that depend on or change
    something outside their arguments (backends, random sampling, files)
    thread the [world]. *)
Class SimLib := {
  world : Type;
  circuit : Type;
  registers : Type;
  qubit : Type;
  instruction : Type;
  noise_model : Type;
  backend : Type;
  results : Type;
  state : Type;
  GateTimes : Type;
  (* gate times *)
  WACQT_gate_times : GateTimes;
  GateTimes_new : Q -> Q -> list (string * Q) -> option GateTimes;
  get_gate_times : GateTimes -> list (string * Q) -> option GateTimes;
  gate_time : GateTimes -> string -> option Q;
  WACQT_device_properties : pyval;
  (* noise *)
  thermal_relaxation_model_V2 : Q -> Q -> GateTimes -> option noise_model;
  thermal_relaxation_error : Q -> Q -> Q -> option instruction;
  (* circuits *)
  stabilizer_registers : Z -> pyval -> pyval -> option registers;
  get_full_stabilizer_circuit : registers -> gmap string pyval -> option circuit;
  get_empty_stabilizer_circuit : registers -> option circuit;
  get_encoded_state : pyval -> pyval -> option pyval -> option state;
  set_density_matrix : circuit -> state -> option circuit;
  add_snapshot_to_circuit :
    circuit -> registers -> gmap string pyval -> option circuit;
  unflagged_stabilizer_cycle : registers -> gmap string pyval -> option circuit;
  compose : circuit -> circuit -> option circuit;
  circuit_qubits : circuit -> list qubit;
  circuit_append : circuit -> instruction -> qubit -> option circuit;
  measure_readout : circuit -> registers -> option circuit;
  single_qubit_circuit : list (sq_instr instruction) -> option circuit;
  shortest_transpile_from_distribution :
    circuit -> option pyval -> world -> option (circuit * world);
  (* idle noise *)
  get_circuit_time : circuit -> GateTimes -> option timedict;
  get_empty_noisy_circuit_v3 :
    circuit -> timedict -> GateTimes -> Q -> Q -> option circuit;
  add_idle_noise_to_circuit :
    circuit -> GateTimes -> option (Q * Q) -> option (circuit * timedict);
  (* execution and results *)
  get_backend : string -> world -> option (backend * world);
  set_option : backend -> string -> pyval -> world -> option world;
  execute :
    circuit -> backend -> option noise_model -> Z -> world ->
    option (results * world);
  data_dm : results -> string -> option state;
  data_exp : results -> string -> option Q;
  state_fidelity : state -> state -> option Q;
  get_trivial_post_select_den_mat : results -> Z -> option (list state);
  get_trivial_exp_value : results -> Z -> option (list Q);
  get_trivial_post_select_counts : results -> Z -> option (list Z);
  (* fitting and files *)
  curve_fit :
    (R -> R -> R -> R -> R) -> list Q -> list Q -> list Q ->
    option (list Q * list (list Q));
  np_save : string -> ndarray -> world -> option world
}.

(** Observable actions, in the order they happen. *)
Inductive event :=
| EvWarn (msg : string)
| EvPrint (msg : string)
| EvSetOption (key : string) (v : pyval)
| EvExecute (shots : Z)
| EvCurveFit (xdata ydata p0 : list Q)
| EvSave (path : string).

Section Model.

Context {L : SimLib}.

(** *** The monad: world and event log, with exceptions *)

Record mstate := { st_world : world; st_log : list event }.

Definition M (A : Type) : Type := mstate -> option (A * mstate).

#[export] Instance M_ret : MRet M := fun A a s => Some (a, s).
#[export] Instance M_bind : MBind M := fun A B k m s =>
  match m s with
  | Some (a, s') => k a s'
  | None => None
  end.

(** A call that may raise. *)
Definition lift {A} (o : option A) : M A :=
  fun s => match o with Some a => Some (a, s) | None => None end.

(** A call that reads or changes the world. *)
Definition liftW {A} (f : world -> option (A * world)) : M A :=
  fun s => match f (st_world s) with
           | Some (a, w) => Some (a, {| st_world := w; st_log := st_log s |})
           | None => None
           end.

Definition emit (e : event) : M unit :=
  fun s => Some (tt, {| st_world := st_world s; st_log := st_log s ++ [e] |}).

(** [try: body  except: handler]. *)
Definition try_except {A} (body handler : M A) : M A :=
  fun s => match body s with
           | Some r => Some r
           | None => handler s
           end.

(** [for x in l: st = body(st, x)]. *)
Fixpoint for_each {A S} (body : S -> A -> M S) (l : list A) (st : S) : M S :=
  match l with
  | [] => mret st
  | x :: rest => st' ← body st x; for_each body rest st'
  end.

Definition do_execute (circ : circuit) (be : backend)
  (nm : option noise_model) (shots : Z) : M results :=
  r ← liftW (execute circ be nm shots);
  _ ← emit (EvExecute shots);
  mret r.

Definition do_set_option (be : backend) (key : string) (v : pyval) : M unit :=
  _ ← liftW (fun w => w' ← set_option be key v w; Some (tt, w'));
  emit (EvSetOption key v).

Definition do_curve_fit (f : R -> R -> R -> R -> R) (xdata ydata p0 : list Q)
  : M (list Q * list (list Q)) :=
  r ← lift (curve_fit f xdata ydata p0);
  _ ← emit (EvCurveFit xdata ydata p0);
  mret r.

Definition do_save (path : string) (a : ndarray) : M unit :=
  _ ← liftW (fun w => w' ← np_save path a w; Some (tt, w'));
  emit (EvSave path).

(** *** Shared pieces *)

(** The [gate_times] argument: a dict, a [GateTimes] object, or anything
    else. *)
Inductive gate_times_arg :=
| GT_dict (d : list (string * Q))
| GT_obj (g : GateTimes)
| GT_other (v : pyval).

(** "Get gate times missing from input", the opening of every entry point. *)
Definition resolve_gate_times (gate_times : gate_times_arg) : M GateTimes :=
  match gate_times with
  | GT_dict d => lift (get_gate_times WACQT_gate_times d)
  | GT_obj g => mret g
  | GT_other _ =>
      _ ← emit (EvWarn "Invalid gate times, assuming WACQT_gate_times");
      mret WACQT_gate_times
  end.

Definition is_dm (snapshot_type : pyval) : bool :=
  py_eq_str snapshot_type "dm" || py_eq_str snapshot_type "density_matrix".

Definition is_exp (snapshot_type : pyval) : bool :=
  py_eq_str snapshot_type "exp" || py_eq_str snapshot_type "expectation_value".

(** "Calculate fidelity at each snapshot": one entry per cycle in
    [range(n_cycles+1)]. *)
Definition cycle_fidelities (snapshot_type : pyval) (res : results)
  (trivial : state) (n_cycles : Z) : option (list Q) :=
  if is_dm snapshot_type then
    mapM (fun current_cycle =>
            st ← data_dm res ("dm_" +:+ str current_cycle);
            state_fidelity st trivial)
         (range (n_cycles + 1))
  else if is_exp snapshot_type then
    mapM (fun current_cycle => data_exp res ("exp_" +:+ str current_cycle))
         (range (n_cycles + 1))
  else Some [].

(** *** [fidelity_from_scratch] *)

Record ffs_args := {
  ffs_n_cycles : Z;
  ffs_n_shots : Z;
  ffs_gate_times : gate_times_arg;
  ffs_T1 : Q;
  ffs_T2 : Q;
  ffs_reset : pyval;
  ffs_data_process_type : pyval;
  ffs_idle_noise : pyval;
  ffs_transpile : pyval;
  ffs_snapshot_type : pyval;
  ffs_device : pyval;
  ffs_device_properties : pyval;
  ffs_encoding : pyval;
  ffs_theta : pyval;
  ffs_phi : pyval;
  ffs_pauliop : pyval;
  ffs_simulator_type : pyval;
  ffs_kwargs : gmap string pyval
}.

(** The three shapes a call can return: [(fidelities, time)],
    [(fidelities, select_counts)] and [[]]. *)
Inductive ffs_result :=
| FidTime (fidelities : list Q) (time : timedict)
| FidCounts (fidelities : list Q) (select_counts : list Z)
| EmptyList.

(** "Run the circuit": the backend whose method is set is one
    [Aer.get_backend] object, the backend handed to [execute] another. *)
Definition run_simulation (circ : circuit) (nm : noise_model) (n_shots : Z)
  (simulator_type : pyval) : M results :=
  simulator ← liftW (get_backend "qasm_simulator");
  _ ← try_except
        (do_set_option simulator "method" simulator_type)
        (_ ← emit (EvPrint "Invalid simulator type, defaulting to density_matrix");
         do_set_option simulator "method" (PyStr "density_matrix"));
  be ← liftW (get_backend "qasm_simulator");
  do_execute circ be (Some nm) n_shots.

Definition fidelity_from_scratch (a : ffs_args) : M ffs_result :=
  let n_cycles := ffs_n_cycles a in
  let n_shots := ffs_n_shots a in
  let T1 := ffs_T1 a in
  let T2 := ffs_T2 a in
  let snapshot_type := ffs_snapshot_type a in
  let data_process_type := ffs_data_process_type a in
  full_gate_times ← resolve_gate_times (ffs_gate_times a);
  let '(recovery, conditional) :=
    if py_eq_str data_process_type "recovery" then (true, false)
    else if py_eq_str data_process_type "post_select" then (false, true)
    else if py_eq_str data_process_type "empty_circuit" then (false, false)
    else (false, false) in
  nm ← lift (thermal_relaxation_model_V2 T1 T2 full_gate_times);
  regs ← lift (stabilizer_registers n_cycles (ffs_reset a) (PyBool recovery));
  kw ← lift (kw_call
               (list_to_map
                  [("n_cycles", PyInt n_cycles); ("reset", ffs_reset a);
                   ("recovery", PyBool recovery); ("flag", PyBool false);
                   ("snapshot_type", snapshot_type);
                   ("conditional", PyBool conditional);
                   ("encoding", ffs_encoding a); ("theta", ffs_theta a);
                   ("phi", ffs_phi a); ("pauliop", ffs_pauliop a);
                   ("device", ffs_device a);
                   ("simulator_type", ffs_simulator_type a)])
               (ffs_kwargs a));
  circ ← lift (get_full_stabilizer_circuit regs kw);
  circ ← (if py_truthy (ffs_transpile a) then
            liftW (shortest_transpile_from_distribution
                     circ (Some (ffs_device_properties a)))
          else mret circ);
  trivial ← lift (get_encoded_state (ffs_theta a) (ffs_phi a) (Some PyNone));
  if py_eq_str data_process_type "empty_circuit" then
    time ← lift (get_circuit_time circ full_gate_times);
    circ ← lift (get_empty_noisy_circuit_v3 circ time full_gate_times T1 T2);
    be ← liftW (get_backend "qasm_simulator");
    res ← do_execute circ be (Some nm) n_shots;
    fidelities ← lift (cycle_fidelities snapshot_type res trivial n_cycles);
    mret (FidTime fidelities time)
  else
    (* [time] is bound only under [if idle_noise:] *)
    '(circ, time) ← (if py_truthy (ffs_idle_noise a) then
                       '(c, t) ← lift (add_idle_noise_to_circuit
                                         circ full_gate_times (Some (T1, T2)));
                       mret (c, Some t)
                     else mret (circ, None));
    res ← run_simulation circ nm n_shots (ffs_simulator_type a);
    if py_eq_str data_process_type "recovery"
       || py_eq_str data_process_type "none" then
      fidelities ← lift (cycle_fidelities snapshot_type res trivial n_cycles);
      time ← lift time;
      mret (FidTime fidelities time)
    else if py_eq_str data_process_type "post_select" then
      fidelities ←
        (if is_dm snapshot_type then
           states ← lift (get_trivial_post_select_den_mat res n_cycles);
           fids ← lift (mapM (fun st => state_fidelity st trivial) states);
           mret (Some fids)
         else if is_exp snapshot_type then
           fids ← lift (get_trivial_exp_value res n_cycles);
           mret (Some fids)
         else mret None);
      select_counts ← lift (get_trivial_post_select_counts res n_cycles);
      fidelities ← lift fidelities;
      mret (FidCounts fidelities select_counts)
    else if py_eq_str data_process_type "post_process" then
      _ ← emit (EvPrint "Warning: Post-process not implemented, exiting...");
      mret EmptyList
    else
      _ ← emit (EvPrint "Warning: No matching data_process_type");
      mret EmptyList.

(** The defaults of the signature. *)
Definition ffs_defaults (n_cycles n_shots : Z) : ffs_args :=
  {| ffs_n_cycles := n_cycles; ffs_n_shots := n_shots;
     ffs_gate_times := GT_dict [];
     ffs_T1 := 40000%Q; ffs_T2 := 60000%Q;
     ffs_reset := PyBool true;
     ffs_data_process_type := PyStr "recovery";
     ffs_idle_noise := PyBool true;
     ffs_transpile := PyBool true;
     ffs_snapshot_type := PyStr "dm";
     ffs_device := PyNone;
     ffs_device_properties := WACQT_device_properties;
     ffs_encoding := PyBool true;
     ffs_theta := PyInt 0; ffs_phi := PyInt 0;
     ffs_pauliop := PyStr "ZZZZZ";
     ffs_simulator_type := PyStr "density_matrix";
     ffs_kwargs := ∅ |}.

(** The same call with another [gate_times], [idle_noise] or
    [simulator_type] argument. *)
Definition ffs_with_gate_times (a : ffs_args) (g : gate_times_arg) : ffs_args :=
  {| ffs_n_cycles := ffs_n_cycles a; ffs_n_shots := ffs_n_shots a;
     ffs_gate_times := g;
     ffs_T1 := ffs_T1 a; ffs_T2 := ffs_T2 a; ffs_reset := ffs_reset a;
     ffs_data_process_type := ffs_data_process_type a;
     ffs_idle_noise := ffs_idle_noise a; ffs_transpile := ffs_transpile a;
     ffs_snapshot_type := ffs_snapshot_type a; ffs_device := ffs_device a;
     ffs_device_properties := ffs_device_properties a;
     ffs_encoding := ffs_encoding a; ffs_theta := ffs_theta a;
     ffs_phi := ffs_phi a; ffs_pauliop := ffs_pauliop a;
     ffs_simulator_type := ffs_simulator_type a;
     ffs_kwargs := ffs_kwargs a |}.

Definition ffs_with_idle_noise (a : ffs_args) (v : pyval) : ffs_args :=
  {| ffs_n_cycles := ffs_n_cycles a; ffs_n_shots := ffs_n_shots a;
     ffs_gate_times := ffs_gate_times a;
     ffs_T1 := ffs_T1 a; ffs_T2 := ffs_T2 a; ffs_reset := ffs_reset a;
     ffs_data_process_type := ffs_data_process_type a;
     ffs_idle_noise := v; ffs_transpile := ffs_transpile a;
     ffs_snapshot_type := ffs_snapshot_type a; ffs_device := ffs_device a;
     ffs_device_properties := ffs_device_properties a;
     ffs_encoding := ffs_encoding a; ffs_theta := ffs_theta a;
     ffs_phi := ffs_phi a; ffs_pauliop := ffs_pauliop a;
     ffs_simulator_type := ffs_simulator_type a;
     ffs_kwargs := ffs_kwargs a |}.

Definition ffs_with_simulator_type (a : ffs_args) (v : pyval) : ffs_args :=
  {| ffs_n_cycles := ffs_n_cycles a; ffs_n_shots := ffs_n_shots a;
     ffs_gate_times := ffs_gate_times a;
     ffs_T1 := ffs_T1 a; ffs_T2 := ffs_T2 a; ffs_reset := ffs_reset a;
     ffs_data_process_type := ffs_data_process_type a;
     ffs_idle_noise := ffs_idle_noise a; ffs_transpile := ffs_transpile a;
     ffs_snapshot_type := ffs_snapshot_type a; ffs_device := ffs_device a;
     ffs_device_properties := ffs_device_properties a;
     ffs_encoding := ffs_encoding a; ffs_theta := ffs_theta a;
     ffs_phi := ffs_phi a; ffs_pauliop := ffs_pauliop a;
     ffs_simulator_type := v;
     ffs_kwargs := ffs_kwargs a |}.

(** *** [get_idle_single_qubit] and [fid_single_qubit] *)

(** The loop over [snapshot_times]: thermal relaxation for the time that
    passed, then the snapshot numbered [index]. *)
Fixpoint idle_snapshots (snapshot_type pauliop : pyval) (T1 T2 : Q)
  (snapshot_times : timedict) (time_passed : Q) (index : Z)
  : option (list (sq_instr instruction)) :=
  match snapshot_times with
  | [] => Some []
  | (_, t) :: rest =>
      let time_diff := (t - time_passed)%Q in
      relax ← (if Qlt_le_dec 0 time_diff then
                 thrm_relax ← thermal_relaxation_error T1 T2 time_diff;
                 Some [Append thrm_relax]
               else Some []);
      let snap :=
        if is_dm snapshot_type then
          [SaveDensityMatrix ("snap_" +:+ str index)]
        else if is_exp snapshot_type then
          [SaveExpectationValue pauliop ("snap_" +:+ str index)]
        else [] in
      later ← idle_snapshots snapshot_type pauliop T1 T2 rest t (index + 1);
      Some (relax ++ snap ++ later)
  end.

Definition get_idle_single_qubit (snapshot_times : timedict)
  (snapshot_type : pyval) (T1 T2 : Q) (theta phi pauliop : pyval)
  : option circuit :=
  body ← idle_snapshots snapshot_type pauliop T1 T2 snapshot_times 0%Q 0;
  single_qubit_circuit
    (Rx theta :: Rz phi :: SaveDensityMatrix "start" :: body).

Record fsq_args := {
  fsq_n_cycles : Z;
  fsq_n_shots : Z;
  fsq_gate_times : gate_times_arg;
  fsq_snapshot_type : pyval;
  fsq_T1 : Q;
  fsq_T2 : Q;
  fsq_theta : pyval;
  fsq_phi : pyval;
  fsq_pauliop : pyval;
  fsq_kwargs : gmap string pyval
}.

Definition fid_single_qubit (a : fsq_args) : M (list Q * timedict) :=
  let n_cycles := fsq_n_cycles a in
  let snapshot_type := fsq_snapshot_type a in
  full_gate_times ← resolve_gate_times (fsq_gate_times a);
  regs ← lift (stabilizer_registers n_cycles (PyBool false) (PyBool false));
  kw ← lift (kw_call
               (list_to_map
                  [("n_cycles", PyInt n_cycles); ("reset", PyBool false);
                   ("recovery", PyBool false); ("flag", PyBool false);
                   ("snapshot_type", snapshot_type);
                   ("conditional", PyBool false)])
               (fsq_kwargs a));
  circ ← lift (get_full_stabilizer_circuit regs kw);
  circ ← liftW (shortest_transpile_from_distribution circ None);
  '(circ, time) ← lift (add_idle_noise_to_circuit circ full_gate_times None);
  circ_single ← lift (get_idle_single_qubit time snapshot_type
                        (fsq_T1 a) (fsq_T2 a)
                        (fsq_theta a) (fsq_phi a) (fsq_pauliop a));
  be ← liftW (get_backend "qasm_simulator");
  res ← do_execute circ_single be None (fsq_n_shots a);
  (* fidelities = [1.0], then one entry per later snapshot *)
  later ← lift
    (if is_dm snapshot_type then
       trivial ← data_dm res "start";
       mapM (fun i =>
               current_state ← data_dm res ("snap_" +:+ str (i + 1));
               state_fidelity current_state trivial)
            (range (Z.of_nat (length time) - 2))
     else if is_exp snapshot_type then
       mapM (fun i => data_exp res ("snap_" +:+ str (i + 1)))
            (range (Z.of_nat (length time) - 2))
     else Some []);
  mret (1%Q :: later, time).

(** *** [perfect_stab_circuit] *)

Record psc_args := {
  psc_n_cycles : Z;
  psc_n_shots : Z;
  psc_gate_times : gate_times_arg;
  psc_T1 : Q;
  psc_T2 : Q;
  psc_reset : pyval;
  psc_recovery : pyval;
  psc_conditional : pyval;
  psc_snapshot_type : pyval;
  psc_theta : pyval;
  psc_phi : pyval;
  psc_pauliop : pyval;
  psc_include_barriers : pyval
}.

(** [for reg in circ.qubits: circ.append(thrm_relax, [reg])]. *)
Definition append_to_all (circ : circuit) (thrm_relax : instruction)
  : option circuit :=
  foldl (fun acc reg => c ← acc; circuit_append c thrm_relax reg)
        (Some circ) (circuit_qubits circ).

Definition snapshot_kw (a : psc_args) (current_cycle : Z)
  : gmap string pyval :=
  list_to_map
    [("snapshot_type", psc_snapshot_type a);
     ("current_cycle", PyInt current_cycle);
     ("conditional", psc_conditional a); ("pauliop", psc_pauliop a);
     ("include_barriers", psc_include_barriers a)].

Definition perfect_stab_cycle (a : psc_args) (regs : registers)
  (thrm_relax : instruction) (acc : option circuit) (current_cycle : Z)
  : option circuit :=
  circ ← acc;
  cyc ← unflagged_stabilizer_cycle regs
         (list_to_map
            [("reset", psc_reset a); ("recovery", psc_recovery a);
             ("current_cycle", PyInt current_cycle);
             ("current_step", PyInt 0);
             ("include_barriers", psc_include_barriers a)]);
  circ ← compose circ cyc;
  circ ← add_snapshot_to_circuit circ regs (snapshot_kw a (current_cycle + 1));
  append_to_all circ thrm_relax.

Definition perfect_stab_circuit (a : psc_args) : M (list Q * timedict) :=
  let n_cycles := psc_n_cycles a in
  let snapshot_type := psc_snapshot_type a in
  full_gate_times ← resolve_gate_times (psc_gate_times a);
  two_qubit_gate_time ← lift (gate_time full_gate_times "cz");
  single_qubit_gate_time ← lift (gate_time full_gate_times "x");
  measure_time ← lift (gate_time full_gate_times "measure");
  feedback_time ← lift (gate_time full_gate_times "feedback");
  let cycle_time :=
    (8 * single_qubit_gate_time + 16 * two_qubit_gate_time
     + 4 * measure_time + feedback_time)%Q in
  time ← lift (mapM (fun i =>
                       match snapshot_type with
                       | PyStr st => Some (st +:+ "_" +:+ str i,
                                           (inject_Z i * cycle_time)%Q)
                       | _ => None
                       end)
                    (range (n_cycles + 1)));
  regs ← lift (stabilizer_registers n_cycles (psc_reset a) (psc_recovery a));
  circ ← lift (get_empty_stabilizer_circuit regs);
  encoded ← lift (get_encoded_state (psc_theta a) (psc_phi a) None);
  circ ← lift (set_density_matrix circ encoded);
  circ ← lift (add_snapshot_to_circuit circ regs (snapshot_kw a 0));
  thrm_relax ← lift (thermal_relaxation_error (psc_T1 a) (psc_T2 a) cycle_time);
  circ ← lift (append_to_all circ thrm_relax);
  circ ← lift (foldl (perfect_stab_cycle a regs thrm_relax) (Some circ)
                     (range n_cycles));
  circ ← lift (measure_readout circ regs);
  be ← liftW (get_backend "qasm_simulator");
  res ← do_execute circ be None (psc_n_shots a);
  fidelities ← lift
    (if is_dm snapshot_type then
       trivial ← data_dm res "dm_0";
       mapM (fun current_cycle =>
               st ← data_dm res ("dm_" +:+ str current_cycle);
               state_fidelity st trivial)
            (range (n_cycles + 1))
     else if is_exp snapshot_type then
       mapM (fun current_cycle => data_exp res ("exp_" +:+ str current_cycle))
            (range (n_cycles + 1))
     else Some []);
  mret (fidelities, time).

(** *** [sweep_parameter_space] *)

(** A noise parameter is a number or a list of numbers. *)
Inductive param :=
| Scalar (x : Q)
| Several (l : list Q).

(** [[param] if not isinstance(param, list) else param]. *)
Definition as_list (p : param) : list Q :=
  match p with
  | Scalar x => [x]
  | Several l => l
  end.

(** [itertools.product] of the lists: the last list varies fastest. *)
Fixpoint itertools_product {A} (lists : list (list A)) : list (list A) :=
  match lists with
  | [] => [[]]
  | l :: rest => x ← l; (cons x) <$> itertools_product rest
  end.

Record sweep_args := {
  sw_T1 : param;
  sw_T2 : param;
  sw_single_qubit_gate_time : param;
  sw_two_qubit_gate_time : param;
  sw_measure_time : param;
  sw_feedback_time : param;
  sw_n_cycles : Z;
  sw_n_shots : Z;
  sw_single_qubit : bool;
  sw_save : option string;
  sw_time_axis : bool;
  sw_perfect_stab : bool;
  sw_kwargs : gmap string pyval
}.

(** No keyword of [kw] repeats an argument the caller passes itself. *)
Definition kw_free (kw : gmap string pyval) (names : list string) : bool :=
  forallb (fun k => match kw !! k with None => true | Some _ => false end) names.

Definition kw_rest (kw : gmap string pyval) (names : list string)
  : gmap string pyval :=
  foldr delete kw names.

(** Binding of [fid_single_qubit(n_cycles, n_shots, T1=.., T2=..,
    gate_times=.., **kwargs)] to the signature. *)
Definition bind_fid_single_qubit (n_cycles n_shots : Z) (T1 T2 : Q)
  (gate_times : GateTimes) (kw : gmap string pyval) : option fsq_args :=
  if kw_free kw ["n_cycles"; "n_shots"; "T1"; "T2"; "gate_times"] then
    Some {| fsq_n_cycles := n_cycles; fsq_n_shots := n_shots;
            fsq_gate_times := GT_obj gate_times;
            fsq_snapshot_type := kw_param kw "snapshot_type" (PyStr "dm");
            fsq_T1 := T1; fsq_T2 := T2;
            fsq_theta := kw_param kw "theta" (PyInt 0);
            fsq_phi := kw_param kw "phi" (PyInt 0);
            fsq_pauliop := kw_param kw "pauliop" (PyStr "Z");
            fsq_kwargs :=
              kw_rest kw ["snapshot_type"; "theta"; "phi"; "pauliop"] |}
  else None.

(** Binding of [fidelity_from_scratch(n_cycles, n_shots, T1=.., T2=..,
    gate_times=.., **kwargs)] to the signature. *)
Definition bind_fidelity_from_scratch (n_cycles n_shots : Z) (T1 T2 : Q)
  (gate_times : GateTimes) (kw : gmap string pyval) : option ffs_args :=
  if kw_free kw ["n_cycles"; "n_shots"; "T1"; "T2"; "gate_times"] then
    let d := ffs_defaults n_cycles n_shots in
    Some {| ffs_n_cycles := n_cycles; ffs_n_shots := n_shots;
            ffs_gate_times := GT_obj gate_times;
            ffs_T1 := T1; ffs_T2 := T2;
            ffs_reset := kw_param kw "reset" (ffs_reset d);
            ffs_data_process_type :=
              kw_param kw "data_process_type" (ffs_data_process_type d);
            ffs_idle_noise := kw_param kw "idle_noise" (ffs_idle_noise d);
            ffs_transpile := kw_param kw "transpile" (ffs_transpile d);
            ffs_snapshot_type :=
              kw_param kw "snapshot_type" (ffs_snapshot_type d);
            ffs_device := kw_param kw "device" (ffs_device d);
            ffs_device_properties :=
              kw_param kw "device_properties" (ffs_device_properties d);
            ffs_encoding := kw_param kw "encoding" (ffs_encoding d);
            ffs_theta := kw_param kw "theta" (ffs_theta d);
            ffs_phi := kw_param kw "phi" (ffs_phi d);
            ffs_pauliop := kw_param kw "pauliop" (ffs_pauliop d);
            ffs_simulator_type :=
              kw_param kw "simulator_type" (ffs_simulator_type d);
            ffs_kwargs :=
              kw_rest kw ["reset"; "data_process_type"; "idle_noise";
                          "transpile"; "snapshot_type"; "device";
                          "device_properties"; "encoding"; "theta"; "phi";
                          "pauliop"; "simulator_type"] |}
  else None.

(** The call [perfect_stab_circuit(n_cycles, n_shots, gate_times=..,
    T1=.., T2=.., reset=True, snapshot_type='exp')]. *)
Definition perfect_stab_call (n_cycles n_shots : Z) (T1 T2 : Q)
  (gate_times : GateTimes) : psc_args :=
  {| psc_n_cycles := n_cycles; psc_n_shots := n_shots;
     psc_gate_times := GT_obj gate_times;
     psc_T1 := T1; psc_T2 := T2;
     psc_reset := PyBool true; psc_recovery := PyBool true;
     psc_conditional := PyBool false;
     psc_snapshot_type := PyStr "exp";
     psc_theta := PyInt 0; psc_phi := PyInt 0;
     psc_pauliop := PyStr "ZZZZZ";
     psc_include_barriers := PyBool true |}.

(** [params[1] > 2*params[0]]. *)
Definition skips (T1 T2 : Q) : bool := negb (Qle_bool T2 (2 * T1)).

(** The float [0.9] as the rational it denotes. *)
Definition float_0_9 : Q := (8106479329266893 # 9007199254740992)%Q.

(** The simulation of one parameter combination: [fid, time = ...]. *)
Definition simulate (a : sweep_args) (theta phi : pyval) (T1 T2 : Q)
  (gate_times : GateTimes) : M (list Q * timedict) :=
  if sw_single_qubit a then
    args ← lift (bind_fid_single_qubit (sw_n_cycles a) (sw_n_shots a)
                   T1 T2 gate_times (sw_kwargs a));
    '(fid, time) ← fid_single_qubit args;
    if py_eq_float theta half_pi && py_eq_float phi half_pi then
      mret ((fun f => 2 * f - 1)%Q <$> fid, time)
    else mret (fid, time)
  else if sw_perfect_stab a then
    perfect_stab_circuit
      (perfect_stab_call (sw_n_cycles a) (sw_n_shots a) T1 T2 gate_times)
  else
    args ← lift (bind_fidelity_from_scratch (sw_n_cycles a) (sw_n_shots a)
                   T1 T2 gate_times (sw_kwargs a));
    r ← fidelity_from_scratch args;
    match r with
    | FidTime fid time => mret (fid, time)
    | _ => lift None
    end.

Record loop_state := {
  ls_index : Z;
  ls_error_array : ndarray;
  ls_var_array : ndarray
}.

(** One pass of the loop over [itertools.product] of the noise parameters. *)
Definition sweep_body (a : sweep_args) (sweep_lengths : list Z)
  (theta phi : pyval) (st : loop_state) (params : list Q) : M loop_state :=
  match params with
  | [p0; p1; p2; p3; p4; p5] =>
      gate_times ← lift (GateTimes_new p2 p3
                           [("u1", 0%Q); ("z", 0%Q);
                            ("measure", p4); ("feedback", p5)]);
      if skips p0 p1 then
        mret {| ls_index := ls_index st + 1;
                ls_error_array := ls_error_array st;
                ls_var_array := ls_var_array st |}
      else
        '(fid, time) ← simulate a theta phi p0 p1 gate_times;
        let time_list := slice_1_m1 (snd <$> time) in
        let p0' := [p0; 0%Q; float_0_9] in
        '(pars, cov) ← do_curve_fit DecayModel.monoExp time_list (tail fid) p0';
        match pars with
        | [T; c; A] =>
            array_indexes ← lift (_get_array_indexes (ls_index st) sweep_lengths);
            error_array ← lift (nd_set (ls_error_array st) array_indexes T);
            cov00 ← lift (row ← cov !! 0%nat; row !! 0%nat);
            var_array ← lift (nd_set (ls_var_array st) array_indexes cov00);
            mret {| ls_index := ls_index st + 1;
                    ls_error_array := error_array;
                    ls_var_array := var_array |}
        | _ => lift None
        end
  | _ => lift None
  end.

Definition noise_parameters (a : sweep_args) : list (list Q) :=
  as_list <$> [sw_T1 a; sw_T2 a; sw_single_qubit_gate_time a;
               sw_two_qubit_gate_time a; sw_measure_time a;
               sw_feedback_time a].

Definition sweep_lengths (a : sweep_args) : list Z :=
  (fun p => Z.of_nat (length p)) <$> noise_parameters a.

(** "Check for theta and phi in kwargs". *)
Definition sweep_angles (a : sweep_args) : pyval * pyval :=
  match sw_kwargs a !! "theta", sw_kwargs a !! "phi" with
  | Some theta, Some phi => (theta, phi)
  | _, _ => (PyFloat 0, PyFloat 0)
  end.

Definition sweep_initial (a : sweep_args) : option loop_state :=
  error_array ← np_zeros (sweep_lengths a);
  var_array ← np_zeros (sweep_lengths a);
  Some {| ls_index := 0;
          ls_error_array := error_array;
          ls_var_array := var_array |}.

Definition sweep_loop (a : sweep_args) (combos : list (list Q))
  (st : loop_state) : M loop_state :=
  for_each (sweep_body a (sweep_lengths a) (sweep_angles a).1 (sweep_angles a).2)
           combos st.

Definition sweep_parameter_space (a : sweep_args) : M (ndarray * ndarray) :=
  st0 ← lift (sweep_initial a);
  st ← sweep_loop a (itertools_product (noise_parameters a)) st0;
  _ ← match sw_save a with
      | Some path =>
          _ ← do_save path (ls_error_array st);
          do_save (path +:+ "_var") (ls_var_array st)
      | None => mret tt
      end;
  mret (ls_error_array st, ls_var_array st).

End Model.

End Pipeline.

(** ** A deterministic implementation of the interface

    Small enough to run: circuits are their cycle count, a state is the
    fidelity it will be given, every execution advances the world by one,
    and the fit echoes its starting point and the number of data points. *)

Module Demo.

Import Py Pipeline.

Definition demo_time (n_cycles : Z) : timedict :=
  ((fun i => ("dm_" +:+ str i, inject_Z i)) <$> range (n_cycles + 1))
  ++ [("end", inject_Z (n_cycles + 1))].

Definition demo_valid_method (v : pyval) : bool :=
  py_eq_str v "density_matrix" || py_eq_str v "statevector".

#[export] Instance demo_lib : SimLib := {|
  world := nat;
  circuit := Z;
  registers := Z;
  qubit := unit;
  instruction := Q;
  noise_model := unit;
  backend := unit;
  results := nat;
  state := Q;
  GateTimes := list (string * Q);
  WACQT_gate_times := [("x", 20%Q); ("cz", 100%Q); ("measure", 300%Q);
                       ("feedback", 350%Q)];
  GateTimes_new := fun s t d =>
    Some (d ++ [("x", s); ("cz", t)]);
  get_gate_times := fun g d => Some (d ++ g);
  gate_time := fun g name =>
    match list_find (fun kv : string * Q => kv.1 = name) g with
    | Some (_, kv) => Some kv.2
    | None => None
    end;
  WACQT_device_properties := PyObj "WACQT_device_properties";
  thermal_relaxation_model_V2 := fun _ _ _ => Some tt;
  thermal_relaxation_error := fun T1 T2 t =>
    if Qle_bool T2 (2 * T1) then Some t else None;
  stabilizer_registers := fun n _ _ => Some n;
  get_full_stabilizer_circuit := fun regs _ => Some regs;
  get_empty_stabilizer_circuit := fun regs => Some regs;
  get_encoded_state := fun _ _ _ => Some 1%Q;
  set_density_matrix := fun c _ => Some c;
  add_snapshot_to_circuit := fun c _ _ => Some c;
  unflagged_stabilizer_cycle := fun regs _ => Some regs;
  compose := fun c _ => Some c;
  circuit_qubits := fun _ => [tt; tt; tt; tt; tt; tt; tt];
  circuit_append := fun c _ _ => Some c;
  measure_readout := fun c _ => Some c;
  single_qubit_circuit := fun instrs => Some (Z.of_nat (length instrs));
  shortest_transpile_from_distribution := fun c _ w => Some (c, w);
  get_circuit_time := fun c _ => Some (demo_time c);
  get_empty_noisy_circuit_v3 := fun c _ _ _ _ => Some c;
  add_idle_noise_to_circuit := fun c _ _ => Some (c, demo_time c);
  get_backend := fun name w =>
    if bool_decide (name = "qasm_simulator") then Some (tt, w) else None;
  set_option := fun _ key v w =>
    if bool_decide (key = "method") && demo_valid_method v then Some w
    else None;
  execute := fun _ _ _ _ w => Some (w, S w);
  data_dm := fun _ label => Some (1 # Pos.of_nat (String.length label))%Q;
  data_exp := fun _ label => Some (1 # Pos.of_nat (String.length label))%Q;
  state_fidelity := fun s _ => Some s;
  get_trivial_post_select_den_mat := fun _ n =>
    Some ((fun _ => 1%Q) <$> range (n + 1));
  get_trivial_exp_value := fun _ n => Some ((fun _ => 1%Q) <$> range (n + 1));
  get_trivial_post_select_counts := fun _ n =>
    Some ((fun _ => 1%Z) <$> range (n + 1));
  curve_fit := fun _ xdata ydata p0 =>
    if decide (length xdata = length ydata) then
      Some ([default 0%Q (p0 !! 0%nat); 0%Q; 1%Q],
            [[inject_Z (Z.of_nat (length ydata)); 0%Q; 0%Q];
             [0%Q; 1%Q; 0%Q]; [0%Q; 0%Q; 1%Q]])
    else None;
  np_save := fun _ _ w => Some w
|}.

Definition demo_start : mstate := {| st_world := 0%nat; st_log := [] |}.

Definition demo_sweep (T1 T2 : list Q) : sweep_args :=
  {| sw_T1 := Several T1; sw_T2 := Several T2;
     sw_single_qubit_gate_time := Scalar 20%Q;
     sw_two_qubit_gate_time := Scalar 100%Q;
     sw_measure_time := Scalar 300%Q;
     sw_feedback_time := Scalar 350%Q;
     sw_n_cycles := 2; sw_n_shots := 16;
     sw_single_qubit := false; sw_save := None;
     sw_time_axis := false; sw_perfect_stab := false;
     sw_kwargs := ∅ |}.

End Demo.


(** ** Properties of the pipeline *)

Module Properties.

Import Py Pipeline.

Definition is_execute (e : event) : bool :=
  match e with EvExecute _ => true | _ => false end.

Definition is_fit (e : event) : bool :=
  match e with EvCurveFit _ _ _ => true | _ => false end.

(** Number of events of a kind in a trace. *)
Definition count_events (p : event -> bool) (tr : list event) : nat :=
  length (List.filter p tr).

Lemma count_events_app p tr1 tr2 :
  count_events p (tr1 ++ tr2) = (count_events p tr1 + count_events p tr2)%nat.
Proof. unfold count_events. now rewrite List.filter_app, length_app. Qed.

Section Facts.

Context {L : SimLib}.

(** [m], when it returns, has appended a trace with [nx] executions and
    [nf] curve fits to the log. *)
Definition emits {A} (m : M A) (nx nf : nat) : Prop :=
  forall s a s', m s = Some (a, s') ->
    exists tr, st_log s' = st_log s ++ tr /\
               count_events is_execute tr = nx /\
               count_events is_fit tr = nf.

Lemma emits_ret {A} (a : A) : emits (mret a) 0 0.
Proof.
  intros s a' s' H. injection H as <- <-. exists [].
  now rewrite app_nil_r.
Qed.

Lemma emits_lift {A} (o : option A) : emits (lift o) 0 0.
Proof.
  intros s a s' H. unfold lift in H. destruct o; [|discriminate].
  injection H as <- <-. exists []. now rewrite app_nil_r.
Qed.

Lemma emits_liftW {A} (f : world -> option (A * world)) : emits (liftW f) 0 0.
Proof.
  intros s a s' H. unfold liftW in H.
  destruct (f (st_world s)) as [[x w]|]; [|discriminate].
  injection H as <- <-. exists []. simpl. now rewrite app_nil_r.
Qed.

Lemma emits_emit (e : event) :
  emits (emit e) (if is_execute e then 1 else 0) (if is_fit e then 1 else 0).
Proof.
  intros s a s' H. injection H as <- <-. exists [e]. simpl.
  unfold count_events. simpl.
  now destruct (is_execute e), (is_fit e).
Qed.

Lemma emits_bind {A B} (m : M A) (k : A -> M B) nx1 nf1 nx2 nf2 :
  emits m nx1 nf1 -> (forall a, emits (k a) nx2 nf2) ->
  emits (m ≫= k) (nx1 + nx2) (nf1 + nf2).
Proof.
  intros Hm Hk s b s' H. unfold mbind, M_bind in H.
  destruct (m s) as [[a s1]|] eqn:E; [|discriminate].
  destruct (Hm _ _ _ E) as (tr1 & E1 & <- & <-).
  destruct (Hk _ _ _ _ H) as (tr2 & E2 & <- & <-).
  exists (tr1 ++ tr2). rewrite !count_events_app.
  now rewrite E2, E1, app_assoc.
Qed.

Lemma emits_try_except {A} (body handler : M A) nx nf :
  emits body nx nf -> emits handler nx nf -> emits (try_except body handler) nx nf.
Proof.
  intros Hb Hh s a s' H. unfold try_except in H.
  destruct (body s) as [r|] eqn:E.
  - injection H as ->. eauto.
  - eauto.
Qed.

(** Computations that neither execute a circuit nor fit a curve. *)
Lemma silent_bind {A B} (m : M A) (k : A -> M B) :
  emits m 0 0 -> (forall a, emits (k a) 0 0) -> emits (m ≫= k) 0 0.
Proof. intros. now apply (emits_bind m k 0 0 0 0). Qed.

Lemma once_bind_l {A B} (m : M A) (k : A -> M B) :
  emits m 1 0 -> (forall a, emits (k a) 0 0) -> emits (m ≫= k) 1 0.
Proof. intros. now apply (emits_bind m k 1 0 0 0). Qed.

Lemma once_bind_r {A B} (m : M A) (k : A -> M B) :
  emits m 0 0 -> (forall a, emits (k a) 1 0) -> emits (m ≫= k) 1 0.
Proof. intros. now apply (emits_bind m k 0 0 1 0). Qed.

Lemma silent_warn msg : emits (emit (EvWarn msg)) 0 0.
Proof. exact (emits_emit (EvWarn msg)). Qed.

Lemma silent_print msg : emits (emit (EvPrint msg)) 0 0.
Proof. exact (emits_emit (EvPrint msg)). Qed.

Lemma silent_set_option be key v : emits (do_set_option be key v) 0 0.
Proof.
  unfold do_set_option. apply silent_bind; [apply emits_liftW|].
  intros _. exact (emits_emit (EvSetOption key v)).
Qed.

Lemma silent_save path arr : emits (do_save path arr) 0 0.
Proof.
  unfold do_save. apply silent_bind; [apply emits_liftW|].
  intros _. exact (emits_emit (EvSave path)).
Qed.

Lemma once_execute circ be nm shots : emits (do_execute circ be nm shots) 1 0.
Proof.
  unfold do_execute. apply once_bind_r; [apply emits_liftW|].
  intros r. apply once_bind_l; [exact (emits_emit (EvExecute shots))|].
  intros _. apply emits_ret.
Qed.

Lemma silent_resolve_gate_times gt : emits (resolve_gate_times gt) 0 0.
Proof.
  destruct gt; simpl;
    [apply emits_lift | apply emits_ret |].
  apply silent_bind; [apply silent_warn | intros; apply emits_ret].
Qed.

End Facts.

Create HintDb emits.
#[export] Hint Resolve emits_ret emits_lift emits_liftW silent_warn silent_print
  silent_set_option silent_save silent_resolve_gate_times : emits.

(** Decide goals [emits m 0 0] and [emits m 1 0] by following the shape of
    [m]. *)
Ltac case_head :=
  match goal with
  | |- emits (match ?x with _ => _ end) _ _ => destruct x
  | |- emits (if ?b then _ else _) _ _ => destruct b
  | |- emits (let '(_, _) := ?x in _) _ _ => destruct x
  end.

Ltac solve_silent :=
  repeat first
    [ solve [eauto with emits]
    | apply silent_bind; [| intros]
    | apply emits_try_except
    | case_head ].

Ltac solve_once :=
  first
    [ apply once_execute
    | apply once_bind_r; [solve [solve_silent] | intros; solve_once]
    | apply once_bind_l; [solve_once | intros; solve [solve_silent]]
    | case_head; solve_once ].

Section SimulationFacts.

Context {L : SimLib}.

Lemma once_run_simulation circ nm shots st :
  emits (run_simulation circ nm shots st) 1 0.
Proof. unfold run_simulation. solve_once. Qed.

Lemma once_fidelity_from_scratch a : emits (fidelity_from_scratch a) 1 0.
Proof. unfold fidelity_from_scratch. solve_once. Qed.

Lemma once_fid_single_qubit a : emits (fid_single_qubit a) 1 0.
Proof. unfold fid_single_qubit. solve_once. Qed.

Lemma once_perfect_stab_circuit a : emits (perfect_stab_circuit a) 1 0.
Proof. unfold perfect_stab_circuit. solve_once. Qed.

(** Whichever of the three simulations is chosen, it executes one circuit
    and fits nothing. *)
Lemma once_simulate a theta phi T1 T2 gt :
  emits (simulate a theta phi T1 T2 gt) 1 0.
Proof.
  unfold simulate.
  destruct (sw_single_qubit a); [|destruct (sw_perfect_stab a)].
  - apply once_bind_r; [solve_silent|]. intros args.
    apply once_bind_l; [apply once_fid_single_qubit|].
    intros [fid time]. solve_silent.
  - apply once_perfect_stab_circuit.
  - apply once_bind_r; [solve_silent|]. intros args.
    apply once_bind_l; [apply once_fidelity_from_scratch|].
    intros r. solve_silent.
Qed.

Lemma fit_do_curve_fit f xdata ydata p0 : emits (do_curve_fit f xdata ydata p0) 0 1.
Proof.
  unfold do_curve_fit.
  apply (emits_bind _ _ 0 0 0 1); [apply emits_lift|]. intros r.
  apply (emits_bind _ _ 0 1 0 0);
    [exact (emits_emit (EvCurveFit xdata ydata p0)) | intros; apply emits_ret].
Qed.

End SimulationFacts.

(** *** Arrays and the Cartesian product *)

Section ProductFacts.

Context {A : Type}.

Lemma bind_const_length {B} (f : A -> list B) (m : nat) (l : list A) :
  (forall x, length (f x) = m) -> length (l ≫= f) = (length l * m)%nat.
Proof.
  intros Hf. induction l as [|a l IH]; [done|].
  rewrite bind_cons, length_app, Hf, IH. simpl. lia.
Qed.

Lemma bind_const_lookup {B} (f : A -> list B) (m : nat) (l : list A)
  (i j : nat) (x : A) :
  (forall x, length (f x) = m) -> l !! i = Some x -> (j < m)%nat ->
  (l ≫= f) !! (i * m + j)%nat = f x !! j.
Proof.
  intros Hf. revert i. induction l as [|a l IH]; intros i Hi Hj; [done|].
  rewrite bind_cons. destruct i as [|i]; simpl in *.
  - injection Hi as ->. apply lookup_app_l. now rewrite Hf.
  - rewrite lookup_app_r by (rewrite Hf; lia). rewrite Hf.
    replace (m + i * m + j - m)%nat with (i * m + j)%nat by lia.
    now apply IH.
Qed.

Definition lengths (lists : list (list A)) : list Z :=
  (fun l => Z.of_nat (length l)) <$> lists.

Lemma itertools_product_length (lists : list (list A)) :
  Z.of_nat (length (itertools_product lists)) = product (lengths lists).
Proof.
  induction lists as [|l ls IH]; [done|]. simpl.
  rewrite (bind_const_length _ (length (itertools_product ls)))
    by (intros; now rewrite length_fmap).
  rewrite <- IH. lia.
Qed.

(** The combination named by a multi-index: its [i]-th component is the
    [idx[i]]-th entry of the [i]-th list. *)
Definition combination (lists : list (list A)) (idx : list Z)
  : option (list A) :=
  mapM (fun li : list A * Z => li.1 !! Z.to_nat li.2) (zip lists idx).

(** [itertools.product] enumerates the combinations in row-major order of
    their multi-indexes. *)
Lemma itertools_product_lookup (lists : list (list A)) (idx : list Z) :
  in_bounds (lengths lists) idx ->
  exists p, combination lists idx = Some p /\
            itertools_product lists !! Z.to_nat (ravel (lengths lists) idx)
            = Some p.
Proof.
  revert idx. induction lists as [|l ls IH]; intros idx H.
  - inversion H; subst. exists []. done.
  - change (lengths (l :: ls)) with (Z.of_nat (length l) :: lengths ls) in *.
    inversion H as [|? i ? ix Hi Hb]; subst.
    destruct (IH ix Hb) as (p & Hp & Hlook).
    assert (Hlt : (Z.to_nat i < length l)%nat) by lia.
    destruct (lookup_lt_is_Some_2 l (Z.to_nat i) Hlt) as [x Hx].
    exists (x :: p). split.
    + unfold combination in *. simpl. rewrite Hx. simpl. now rewrite Hp.
    + pose proof (ravel_range _ _ Hb) as Hr.
      change (ravel (Z.of_nat (length l) :: lengths ls) (i :: ix))
        with (i * product (lengths ls) + ravel (lengths ls) ix)%Z.
      rewrite <- itertools_product_length in *.
      rewrite Z2Nat.inj_add, Z2Nat.inj_mul, Nat2Z.id by lia.
      simpl.
      rewrite (bind_const_lookup _ (length (itertools_product ls)) _ _ _ x);
        [| intros; now rewrite length_fmap | done | lia].
      now rewrite list_lookup_fmap, Hlook.
Qed.

End ProductFacts.

Lemma product_nonneg (shape : list Z) :
  Forall (fun l => (0 <= l)%Z) shape -> (0 <= product shape)%Z.
Proof.
  induction 1 as [|l ls Hl _ IH]; [simpl; lia|].
  change (product (l :: ls)) with (l * product ls)%Z. nia.
Qed.

Lemma norm_index_in_bounds (shape t : list Z) :
  in_bounds shape t -> mapM norm_index (zip shape t) = Some t.
Proof.
  unfold in_bounds. induction 1 as [|l x ls ts Hx _ IH]; [done|].
  simpl. rewrite decide_True by done. simpl. now rewrite IH.
Qed.

Lemma nd_position_in_bounds (shape t : list Z) :
  in_bounds shape t -> nd_position shape t = Some (Z.to_nat (ravel shape t)).
Proof.
  intros H. unfold nd_position.
  rewrite decide_True by (symmetry; exact (Forall2_length _ _ _ H)).
  now rewrite norm_index_in_bounds.
Qed.

(** Writing a cell of the row-major data. *)
Definition write_at (k : nat) (v : Q) (arr : ndarray) : ndarray :=
  {| nd_shape := nd_shape arr; nd_data := <[k := v]> (nd_data arr) |}.

Lemma nd_set_unravel (arr arr' : ndarray) (index : Z) (v : Q) :
  Forall (fun x => (0 < x)%Z) (nd_shape arr) ->
  (0 <= index < product (nd_shape arr))%Z ->
  nd_set arr (unravel_index index (nd_shape arr)) v = Some arr' ->
  arr' = write_at (Z.to_nat index) v arr /\
  (Z.to_nat index < length (nd_data arr))%nat.
Proof.
  intros Hpos Hidx. unfold nd_set.
  rewrite nd_position_in_bounds by now apply unravel_index_in_bounds.
  rewrite ravel_unravel_index by done. rewrite Z.mod_small by done. simpl.
  case_decide; [|discriminate]. intros [= <-]. done.
Qed.

(** *** One pass of the sweep *)

(** [T2 > 2*T1] for a combination. *)
Definition skipped (params : list Q) : bool :=
  match params with
  | [p0; p1; _; _; _; _] => skips p0 p1
  | _ => false
  end.

(** The loop state after [index += 1] alone. *)
Definition bump (st : loop_state) : loop_state :=
  {| ls_index := ls_index st + 1;
     ls_error_array := ls_error_array st;
     ls_var_array := ls_var_array st |}.

Section SweepFacts.

Context {L : SimLib}.

Lemma bind_Some {A B} (m : M A) (k : A -> M B) s b s' :
  (m ≫= k) s = Some (b, s') ->
  exists a s1, m s = Some (a, s1) /\ k a s1 = Some (b, s').
Proof.
  unfold mbind, M_bind. destruct (m s) as [[a s1]|]; [eauto | discriminate].
Qed.

Lemma lift_Some {A} (o : option A) s a s' :
  lift o s = Some (a, s') -> o = Some a /\ s' = s.
Proof. unfold lift. destruct o; [|discriminate]. now intros [= -> ->]. Qed.

Lemma ret_Some {A} (x : A) s a s' :
  mret (M := M) x s = Some (a, s') -> a = x /\ s' = s.
Proof. now intros [= -> ->]. Qed.

(** The state left by a recorded curve fit. *)
Definition after_fit (s : mstate) (xdata ydata p0 : list Q) : mstate :=
  {| st_world := st_world s;
     st_log := st_log s ++ [EvCurveFit xdata ydata p0] |}.

Lemma do_curve_fit_Some f xdata ydata p0 s r s' :
  do_curve_fit f xdata ydata p0 s = Some (r, s') ->
  curve_fit f xdata ydata p0 = Some r /\ s' = after_fit s xdata ydata p0.
Proof.
  unfold do_curve_fit. intros H.
  apply bind_Some in H as (r' & s1 & H1 & H).
  apply lift_Some in H1 as [H1 ->].
  apply bind_Some in H as ([] & s2 & H2 & H).
  injection H2 as <-. now apply ret_Some in H as [-> ->].
Qed.

(** A combination that is processed: the simulation of [params] started in
    state [s] returned [(fid, time)], the fit of [monoExp] to [fid[1:]]
    against the snapshot times gave decay constant [T] and variance
    [cov00], and the log gained the simulation's events and the fit. *)
Definition fitted (a : sweep_args) (params : list Q) (s : mstate)
  (T cov00 : Q) (s' : mstate) : Prop :=
  exists p0 p1 p2 p3 p4 p5 gate_times fid time s1 pars cov c A,
    params = [p0; p1; p2; p3; p4; p5] /\
    GateTimes_new p2 p3 [("u1", 0%Q); ("z", 0%Q);
                         ("measure", p4); ("feedback", p5)]
    = Some gate_times /\
    simulate a (sweep_angles a).1 (sweep_angles a).2 p0 p1 gate_times s
    = Some ((fid, time), s1) /\
    curve_fit DecayModel.monoExp (slice_1_m1 (snd <$> time)) (tail fid)
              [p0; 0%Q; float_0_9]
    = Some (pars, cov) /\
    pars = [T; c; A] /\
    (row ← cov !! 0%nat; row !! 0%nat) = Some cov00 /\
    s' = after_fit s1 (slice_1_m1 (snd <$> time)) (tail fid)
                   [p0; 0%Q; float_0_9].

Definition body (a : sweep_args) : loop_state -> list Q -> M loop_state :=
  sweep_body a (sweep_lengths a) (sweep_angles a).1 (sweep_angles a).2.

(** The arrays keep the shape [sweep_lengths]. *)
Definition shaped (a : sweep_args) (st : loop_state) : Prop :=
  nd_shape (ls_error_array st) = sweep_lengths a /\
  nd_shape (ls_var_array st) = sweep_lengths a.

Lemma body_spec (a : sweep_args) st params s st' s' :
  shaped a st ->
  Forall (fun x => (0 < x)%Z) (sweep_lengths a) ->
  (0 <= ls_index st < product (sweep_lengths a))%Z ->
  (ls_index st <= int64_max)%Z ->
  body a st params s = Some (st', s') ->
  (skipped params = true /\ st' = bump st /\ s' = s) \/
  (skipped params = false /\
   exists T cov00,
     fitted a params s T cov00 s' /\
     (Z.to_nat (ls_index st) < length (nd_data (ls_error_array st)))%nat /\
     (Z.to_nat (ls_index st) < length (nd_data (ls_var_array st)))%nat /\
     st' = {| ls_index := ls_index st + 1;
              ls_error_array :=
                write_at (Z.to_nat (ls_index st)) T (ls_error_array st);
              ls_var_array :=
                write_at (Z.to_nat (ls_index st)) cov00 (ls_var_array st) |}).
Proof.
  intros [Hea Hva] Hpos Hidx Hmax H. unfold body, sweep_body in H.
  destruct params as [|p0 [|p1 [|p2 [|p3 [|p4 [|p5 [|]]]]]]];
    try (apply lift_Some in H as [? _]; discriminate).
  apply bind_Some in H as (gt & s1 & Hgt & H).
  apply lift_Some in Hgt as [Hgt ->]. simpl.
  destruct (skips p0 p1) eqn:Hskip.
  - left. now apply ret_Some in H as [-> ->].
  - right. split; [done|].
    apply bind_Some in H as ([fid time] & s2 & Hsim & H).
    apply bind_Some in H as ([pars cov] & s3 & Hfit & H).
    apply do_curve_fit_Some in Hfit as [Hfit ->].
    destruct pars as [|T [|c [|A [|]]]];
      try (apply lift_Some in H as [? _]; discriminate).
    apply bind_Some in H as (idx & s4 & Hidxs & H).
    apply lift_Some in Hidxs as [Hidxs ->].
    assert (idx = unravel_index (ls_index st) (sweep_lengths a)) as ->.
    { rewrite get_array_indexes_unravel in Hidxs;
        [congruence | unfold sweep_lengths, noise_parameters; discriminate
         | done | lia | done]. }
    clear Hidxs.
    apply bind_Some in H as (ea' & s5 & Hset1 & H).
    apply lift_Some in Hset1 as [Hset1 ->].
    apply bind_Some in H as (cov00 & s6 & Hcov & H).
    apply lift_Some in Hcov as [Hcov ->].
    apply bind_Some in H as (va' & s7 & Hset2 & H).
    apply lift_Some in Hset2 as [Hset2 ->].
    apply ret_Some in H as [-> ->].
    rewrite <- Hea in Hset1 at 1. apply nd_set_unravel in Hset1 as [-> Hl1];
      [| now rewrite Hea | now rewrite Hea].
    rewrite <- Hva in Hset2 at 1. apply nd_set_unravel in Hset2 as [-> Hl2];
      [| now rewrite Hva | now rewrite Hva].
    exists T, cov00. split; [|done].
    exists p0, p1, p2, p3, p4, p5, gt, fid, time, s2, [T; c; A], cov, c, A.
    done.
Qed.

(** The pass itself cannot fail: once the simulation and the fit have
    returned a 3-parameter fit with a covariance entry, the index
    computation and the two array writes go through. *)
Lemma body_returns (a : sweep_args) st s p0 p1 p2 p3 p4 p5 gate_times
  fid time s1 T c A cov cov00 :
  shaped a st ->
  length (nd_data (ls_error_array st))
  = Z.to_nat (product (sweep_lengths a)) ->
  length (nd_data (ls_var_array st))
  = Z.to_nat (product (sweep_lengths a)) ->
  Forall (fun x => (0 < x)%Z) (sweep_lengths a) ->
  (0 <= ls_index st < product (sweep_lengths a))%Z ->
  (ls_index st <= int64_max)%Z ->
  GateTimes_new p2 p3 [("u1", 0%Q); ("z", 0%Q);
                       ("measure", p4); ("feedback", p5)]
  = Some gate_times ->
  skips p0 p1 = false ->
  simulate a (sweep_angles a).1 (sweep_angles a).2 p0 p1 gate_times s
  = Some ((fid, time), s1) ->
  curve_fit DecayModel.monoExp (slice_1_m1 (snd <$> time)) (tail fid)
            [p0; 0%Q; float_0_9]
  = Some ([T; c; A], cov) ->
  (row ← cov !! 0%nat; row !! 0%nat) = Some cov00 ->
  body a st [p0; p1; p2; p3; p4; p5] s
  = Some ({| ls_index := ls_index st + 1;
             ls_error_array :=
               write_at (Z.to_nat (ls_index st)) T (ls_error_array st);
             ls_var_array :=
               write_at (Z.to_nat (ls_index st)) cov00 (ls_var_array st) |},
          after_fit s1 (slice_1_m1 (snd <$> time)) (tail fid)
                    [p0; 0%Q; float_0_9]).
Proof.
  intros [Hea Hva] Hl1 Hl2 Hpos Hidx Hmax Hgt Hskip Hsim Hfit Hcov.
  assert (Hset : forall arr v,
             nd_shape arr = sweep_lengths a ->
             length (nd_data arr) = Z.to_nat (product (sweep_lengths a)) ->
             nd_set arr (unravel_index (ls_index st) (sweep_lengths a)) v
             = Some (write_at (Z.to_nat (ls_index st)) v arr)).
  { intros arr v Hsh Hlen. unfold nd_set. rewrite Hsh.
    rewrite nd_position_in_bounds by now apply unravel_index_in_bounds.
    rewrite ravel_unravel_index, Z.mod_small by done.
    cbn [mbind option_bind]. rewrite decide_True by lia.
    unfold write_at. now rewrite Hsh. }
  assert (Hix : _get_array_indexes (ls_index st) (sweep_lengths a)
                = Some (unravel_index (ls_index st) (sweep_lengths a))).
  { apply get_array_indexes_unravel;
      [unfold sweep_lengths, noise_parameters; discriminate
      | done | lia | done]. }
  assert (Hdo : do_curve_fit DecayModel.monoExp (slice_1_m1 (snd <$> time))
                  (tail fid) [p0; 0%Q; float_0_9] s1
                = Some (([T; c; A], cov),
                        after_fit s1 (slice_1_m1 (snd <$> time)) (tail fid)
                                  [p0; 0%Q; float_0_9])).
  { unfold do_curve_fit. rewrite Hfit. reflexivity. }
  unfold body, sweep_body. rewrite Hgt.
  unfold mbind at 1, M_bind at 1, lift at 1. rewrite Hskip.
  unfold mbind at 1, M_bind at 1. rewrite Hsim.
  unfold mbind at 1, M_bind at 1. rewrite Hdo. cbn beta iota.
  rewrite Hix. unfold mbind at 1, M_bind at 1, lift at 1. cbn beta iota.
  rewrite (Hset _ T Hea Hl1).
  unfold mbind at 1, M_bind at 1, lift at 1. cbn beta iota.
  rewrite Hcov. unfold mbind at 1, M_bind at 1, lift at 1. cbn beta iota.
  rewrite (Hset _ cov00 Hva Hl2).
  reflexivity.
Qed.

(** *** The whole loop *)

(** What one combination contributes to the log: nothing when it is
    skipped, otherwise one execution and one curve fit. *)
Definition iteration_trace (params : list Q) (tr : list event) : Prop :=
  if skipped params then tr = []
  else count_events is_execute tr = 1%nat /\ count_events is_fit tr = 1%nat.

Lemma fitted_trace a params s T cov00 s' :
  fitted a params s T cov00 s' ->
  exists tr, st_log s' = st_log s ++ tr /\
             count_events is_execute tr = 1%nat /\
             count_events is_fit tr = 1%nat.
Proof.
  intros (p0 & p1 & p2 & p3 & p4 & p5 & gt & fid & time & s1 & pars & cov
          & c & A & -> & _ & Hsim & _ & _ & _ & ->).
  destruct (once_simulate _ _ _ _ _ _ _ _ _ Hsim) as (tr & Hlog & Hx & Hf).
  exists (tr ++ [EvCurveFit (slice_1_m1 (snd <$> time)) (tail fid)
                            [p0; 0%Q; float_0_9]]).
  simpl. rewrite Hlog, !count_events_app, Hx, Hf, app_assoc. done.
Qed.

Section Loop.

Variable a : sweep_args.

Hypothesis lengths_pos : Forall (fun x => (0 < x)%Z) (sweep_lengths a).
Hypothesis size_fits : (product (sweep_lengths a) <= int64_max)%Z.

Lemma loop_cons p l st s st' s' :
  sweep_loop a (p :: l) st s = Some (st', s') ->
  exists st1 s1, body a st p s = Some (st1, s1) /\
                 sweep_loop a l st1 s1 = Some (st', s').
Proof. intros H. now apply bind_Some in H. Qed.

Lemma loop_frame l : forall st s st' s',
  shaped a st ->
  (0 <= ls_index st)%Z ->
  (ls_index st + Z.of_nat (length l) <= product (sweep_lengths a))%Z ->
  sweep_loop a l st s = Some (st', s') ->
  shaped a st' /\
  ls_index st' = (ls_index st + Z.of_nat (length l))%Z /\
  forall j, (j < Z.to_nat (ls_index st))%nat ->
    nd_data (ls_error_array st') !! j = nd_data (ls_error_array st) !! j /\
    nd_data (ls_var_array st') !! j = nd_data (ls_var_array st) !! j.
Proof.
  induction l as [|p l IH]; intros st s st' s' Hsh H0 Hlen H.
  - apply ret_Some in H as [-> ->]. simpl. split; [done|]. split; [lia|done].
  - apply loop_cons in H as (st1 & s1 & Hb & H). simpl length in Hlen.
    apply body_spec in Hb; [| done | done | lia | lia].
    assert (Hst1 : shaped a st1 /\ ls_index st1 = (ls_index st + 1)%Z /\
                   forall j, (j < Z.to_nat (ls_index st))%nat ->
                     nd_data (ls_error_array st1) !! j
                     = nd_data (ls_error_array st) !! j /\
                     nd_data (ls_var_array st1) !! j
                     = nd_data (ls_var_array st) !! j).
    { destruct Hb as [(_ & -> & _) | (_ & T & cov00 & _ & _ & _ & ->)];
        (split; [exact Hsh|]); (split; [done|]); simpl; [done|].
      intros j Hj. now rewrite !list_lookup_insert_ne by lia. }
    destruct Hst1 as (Hsh1 & Hi1 & Hkeep1).
    destruct (IH st1 s1 st' s' Hsh1 ltac:(lia) ltac:(lia) H)
      as (Hsh' & Hi' & Hkeep').
    split; [done|]. split; [simpl length; lia|].
    intros j Hj. destruct (Hkeep' j ltac:(lia)) as [-> ->]. now apply Hkeep1.
Qed.

(** The combination at position [k] of the product is met with the counter
    at [k]; when it is skipped its cell is left as it was, and when it is
    processed its cell holds the fitted values at the end of the loop. *)
Lemma loop_outcome l : forall st s st' s' k params,
  shaped a st ->
  (0 <= ls_index st)%Z ->
  (ls_index st + Z.of_nat (length l) <= product (sweep_lengths a))%Z ->
  sweep_loop a l st s = Some (st', s') ->
  l !! k = Some params ->
  exists st_k s_k,
    sweep_loop a (take k l) st s = Some (st_k, s_k) /\
    ls_index st_k = (ls_index st + Z.of_nat k)%Z /\
    let pos := Z.to_nat (ls_index st + Z.of_nat k) in
    (skipped params = true /\
     body a st_k params s_k = Some (bump st_k, s_k) /\
     nd_data (ls_error_array st') !! pos = nd_data (ls_error_array st) !! pos /\
     nd_data (ls_var_array st') !! pos = nd_data (ls_var_array st) !! pos)
    \/
    (skipped params = false /\
     exists T cov00 s_k',
       fitted a params s_k T cov00 s_k' /\
       nd_data (ls_error_array st') !! pos = Some T /\
       nd_data (ls_var_array st') !! pos = Some cov00).
Proof.
  induction l as [|p l IH]; intros st s st' s' k params Hsh H0 Hlen H Hk;
    [done|].
  apply loop_cons in H as (st1 & s1 & Hb & H). simpl length in Hlen.
  pose proof Hb as Hb'.
  apply body_spec in Hb'; [| done | done | lia | lia].
  destruct k as [|k]; simpl in Hk.
  - injection Hk as ->. exists st, s. split; [done|]. split; [lia|].
    rewrite Z.add_0_r. cbv zeta.
    destruct Hb' as [(Hskip & -> & ->) | (Hskip & T & cov00 & Hfit & Hl1 & Hl2 & ->)].
    + left. split; [done|]. split; [done|].
      eapply loop_frame in H as (_ & _ & Hkeep);
        [| exact Hsh | cbn [bump ls_index]; lia | cbn [bump ls_index]; lia].
      apply (Hkeep (Z.to_nat (ls_index st))). cbn [bump ls_index]. lia.
    + right. split; [done|]. exists T, cov00, s1. split; [done|].
      eapply loop_frame in H as (_ & _ & Hkeep);
        [| exact Hsh | cbn [bump ls_index]; lia | cbn [bump ls_index]; lia].
      destruct (Hkeep (Z.to_nat (ls_index st)) ltac:(cbn [ls_index]; lia)) as [-> ->].
      simpl. now rewrite !list_lookup_insert_eq by done.
  - assert (Hst1 : shaped a st1 /\ ls_index st1 = (ls_index st + 1)%Z /\
                   forall j, (Z.to_nat (ls_index st) < j)%nat ->
                     nd_data (ls_error_array st1) !! j
                     = nd_data (ls_error_array st) !! j /\
                     nd_data (ls_var_array st1) !! j
                     = nd_data (ls_var_array st) !! j).
    { destruct Hb' as [(_ & -> & _) | (_ & T & cov00 & _ & _ & _ & ->)];
        (split; [exact Hsh|]); (split; [done|]); simpl; [done|].
      intros j Hj. now rewrite !list_lookup_insert_ne by lia. }
    destruct Hst1 as (Hsh1 & Hi1 & Hkeep1).
    destruct (IH st1 s1 st' s' k params Hsh1 ltac:(lia) ltac:(lia) H Hk)
      as (st_k & s_k & Hrun & Hik & Hout).
    exists st_k, s_k. split.
    { simpl. unfold sweep_loop in *. simpl. unfold mbind, M_bind.
      fold (body a). now rewrite Hb. }
    split; [lia|].
    replace (ls_index st + Z.of_nat (S k))%Z with (ls_index st1 + Z.of_nat k)%Z
      by lia.
    cbv zeta in *.
    destruct (Hkeep1 (Z.to_nat (ls_index st1 + Z.of_nat k)) ltac:(lia))
      as [<- <-].
    exact Hout.
Qed.

(** The log of the loop is the concatenation, in order, of one trace per
    combination. *)
Lemma loop_traces l : forall st s st' s',
  shaped a st ->
  (0 <= ls_index st)%Z ->
  (ls_index st + Z.of_nat (length l) <= product (sweep_lengths a))%Z ->
  sweep_loop a l st s = Some (st', s') ->
  exists traces,
    Forall2 iteration_trace l traces /\
    st_log s' = st_log s ++ concat traces.
Proof.
  induction l as [|p l IH]; intros st s st' s' Hsh H0 Hlen H.
  - apply ret_Some in H as [-> ->]. exists []. split; [constructor|].
    simpl. now rewrite app_nil_r.
  - apply loop_cons in H as (st1 & s1 & Hb & H). simpl length in Hlen.
    apply body_spec in Hb; [| done | done | lia | lia].
    assert (Hone : exists tr, iteration_trace p tr /\
                              st_log s1 = st_log s ++ tr /\
                              shaped a st1 /\
                              ls_index st1 = (ls_index st + 1)%Z).
    { unfold iteration_trace.
      destruct Hb as [(-> & -> & ->) | (-> & T & cov00 & Hfit & _ & _ & ->)].
      - exists []. now rewrite app_nil_r.
      - destruct (fitted_trace _ _ _ _ _ _ Hfit) as (tr & Hlog & Hx & Hf).
        exists tr. done. }
    destruct Hone as (tr & Htr & Hlog & Hsh1 & Hi1).
    destruct (IH st1 s1 st' s' Hsh1 ltac:(lia) ltac:(lia) H)
      as (traces & Hall & Hlog').
    exists (tr :: traces). split; [now constructor|].
    simpl. now rewrite Hlog', Hlog, app_assoc.
Qed.

End Loop.

(** *** The sweep as a whole *)

Lemma sweep_initial_Some a st0 :
  sweep_initial a = Some st0 ->
  shaped a st0 /\ ls_index st0 = 0%Z /\
  nd_data (ls_error_array st0)
  = replicate (Z.to_nat (product (sweep_lengths a))) 0%Q /\
  nd_data (ls_var_array st0)
  = replicate (Z.to_nat (product (sweep_lengths a))) 0%Q /\
  (product (sweep_lengths a) <= int64_max)%Z.
Proof.
  unfold sweep_initial, np_zeros. case_decide as Hok; [|discriminate].
  cbn [mbind option_bind]. intros [= <-]. destruct Hok as [Hnn Hsize].
  unfold shaped. cbn [ls_index ls_error_array ls_var_array nd_shape nd_data].
  repeat split; try done.
  pose proof (product_nonneg _ Hnn). lia.
Qed.

(** A successful sweep is a successful loop over the product followed by
    the optional saving, which neither executes nor fits. *)
Lemma sweep_run a s ea va s' :
  sweep_parameter_space a s = Some ((ea, va), s') ->
  exists st0 st s1 saves,
    sweep_initial a = Some st0 /\
    sweep_loop a (itertools_product (noise_parameters a)) st0 s
    = Some (st, s1) /\
    ea = ls_error_array st /\ va = ls_var_array st /\
    st_log s' = st_log s1 ++ saves /\
    count_events is_execute saves = 0%nat /\
    count_events is_fit saves = 0%nat.
Proof.
  unfold sweep_parameter_space. intros H.
  apply bind_Some in H as (st0 & s0 & H0 & H).
  apply lift_Some in H0 as [H0 ->].
  apply bind_Some in H as (st & s1 & Hloop & H).
  apply bind_Some in H as ([] & s2 & Hsave & H).
  apply ret_Some in H as [[= -> ->] ->].
  assert (Hs : emits (match sw_save a with
                      | Some path =>
                          _ ← do_save path (ls_error_array st);
                          do_save (path +:+ "_var") (ls_var_array st)
                      | None => mret ()
                      end) 0 0) by solve_silent.
  destruct (Hs _ _ _ Hsave) as (saves & Hlog & Hx & Hf).
  exists st0, st, s1, saves. done.
Qed.

Lemma product_zero_of_nonpositive (shape : list Z) :
  Forall (fun l => (0 <= l)%Z) shape ->
  ~ Forall (fun l => (0 < l)%Z) shape -> product shape = 0%Z.
Proof.
  induction 1 as [|l ls Hl _ IH]; intros Hnot.
  - exfalso. apply Hnot. constructor.
  - simpl. destruct (decide (l = 0%Z)) as [-> | Hne]; [lia|].
    rewrite IH; [lia|]. intros Hpos. apply Hnot. constructor; [lia | done].
Qed.

(** The cell of every combination, named by its multi-index. *)
Lemma sweep_cells a s ea va s' :
  sweep_parameter_space a s = Some ((ea, va), s') ->
  forall idx params,
    in_bounds (sweep_lengths a) idx ->
    combination (noise_parameters a) idx = Some params ->
    exists st0 st_k s_k,
      sweep_initial a = Some st0 /\
      sweep_loop a
        (take (Z.to_nat (ravel (sweep_lengths a) idx))
              (itertools_product (noise_parameters a))) st0 s
      = Some (st_k, s_k) /\
      ls_index st_k = ravel (sweep_lengths a) idx /\
      ((skipped params = true /\
        body a st_k params s_k = Some (bump st_k, s_k) /\
        nd_get ea idx = Some 0%Q /\ nd_get va idx = Some 0%Q)
       \/
       (skipped params = false /\
        exists T cov00 s_k',
          fitted a params s_k T cov00 s_k' /\
          nd_get ea idx = Some T /\ nd_get va idx = Some cov00)).
Proof.
  intros Hrun idx params Hb Hcomb.
  apply sweep_run in Hrun
    as (st0 & st & s1 & saves & Hinit & Hloop & -> & -> & _).
  pose proof Hinit as Hinit'.
  apply sweep_initial_Some in Hinit' as (Hsh & Hi0 & Hd1 & Hd2 & Hsize).
  assert (Hpos : Forall (fun x => (0 < x)%Z) (sweep_lengths a)).
  { clear -Hb. unfold in_bounds in Hb.
    induction Hb; constructor; [lia | done]. }
  destruct (itertools_product_lookup (noise_parameters a) idx Hb)
    as (p & Hp & Hlook).
  change (lengths (noise_parameters a)) with (sweep_lengths a) in Hlook.
  rewrite Hcomb in Hp. injection Hp as <-.
  pose proof (itertools_product_length (noise_parameters a)) as Hlen.
  change (lengths (noise_parameters a)) with (sweep_lengths a) in Hlen.
  pose proof (ravel_range _ _ Hb) as Hr.
  assert (Hfits : (ls_index st0
                   + Z.of_nat (length (itertools_product (noise_parameters a)))
                   <= product (sweep_lengths a))%Z) by lia.
  assert (H0 : (0 <= ls_index st0)%Z) by lia.
  destruct (loop_frame a Hpos Hsize _ _ _ _ _ Hsh H0 Hfits Hloop)
    as ((Hea & Hva) & _ & _).
  destruct (loop_outcome a Hpos Hsize _ _ _ _ _ _ _ Hsh H0 Hfits Hloop Hlook)
    as (st_k & s_k & Hpre & Hik & Hout).
  exists st0, st_k, s_k. split; [done|]. split; [done|].
  rewrite Hi0, Z.add_0_l, Z2Nat.id in Hik by lia. split; [done|].
  cbv zeta in Hout. rewrite Hi0, Z.add_0_l, Z2Nat.id in Hout by lia.
  unfold nd_get. rewrite Hea, Hva, nd_position_in_bounds by done.
  cbn [mbind option_bind].
  destruct Hout as [(Hskip & Hbody & -> & ->) | Hout]; [left | right; exact Hout].
  split; [done|]. split; [done|]. rewrite Hd1, Hd2.
  split; apply lookup_replicate_2; lia.
Qed.

(** The log of a sweep: one trace per combination of the product, in
    order, then the saving. *)
Lemma sweep_log a s ea va s' :
  sweep_parameter_space a s = Some ((ea, va), s') ->
  exists traces saves,
    Forall2 iteration_trace (itertools_product (noise_parameters a)) traces /\
    st_log s' = st_log s ++ concat traces ++ saves /\
    count_events is_execute saves = 0%nat /\
    count_events is_fit saves = 0%nat.
Proof.
  intros Hrun.
  apply sweep_run in Hrun
    as (st0 & st & s1 & saves & Hinit & Hloop & _ & _ & Hlog & Hx & Hf).
  apply sweep_initial_Some in Hinit as (Hsh & Hi0 & _ & _ & Hsize).
  pose proof (itertools_product_length (noise_parameters a)) as Hlen.
  change (lengths (noise_parameters a)) with (sweep_lengths a) in Hlen.
  destruct (decide (Forall (fun x => (0 < x)%Z) (sweep_lengths a)))
    as [Hpos | Hnot].
  - assert (Hfits : (ls_index st0
                     + Z.of_nat (length (itertools_product (noise_parameters a)))
                     <= product (sweep_lengths a))%Z) by lia.
    assert (H0 : (0 <= ls_index st0)%Z) by lia.
    destruct (loop_traces a Hpos Hsize _ _ _ _ _ Hsh H0 Hfits Hloop)
      as (traces & Hall & Hlog').
    exists traces, saves. rewrite Hlog, Hlog', app_assoc. done.
  - assert (Hnn : Forall (fun l => (0 <= l)%Z) (sweep_lengths a)).
    { unfold sweep_lengths. apply Forall_fmap, Forall_true. intros; simpl; lia. }
    rewrite (product_zero_of_nonpositive _ Hnn Hnot) in Hlen.
    destruct (itertools_product (noise_parameters a)); [|simpl in Hlen; lia].
    apply ret_Some in Hloop as [_ ->].
    exists [], saves. split; [constructor|]. done.
Qed.

End SweepFacts.

(** *** [fidelity_from_scratch] and [fid_single_qubit] *)

Section EntryPoints.

Context {L : SimLib}.

(** Peel the binds of a successful monadic run held in hypothesis [H]. *)
Ltac peel H :=
  repeat
    (let a := fresh "x" in
     let s := fresh "s" in
     let E := fresh "E" in
     apply bind_Some in H as (a & s & E & H);
     first [ apply lift_Some in E as [E ->]
           | apply ret_Some in E as [-> ->]
           | idtac ];
     try (lazymatch type of a with
          | (_ * _)%type => destruct a
          | unit => destruct a
          end);
     cbn beta iota in H; cbn [orb] in H).

(** C8.  Whatever [n_cycles], [n_shots] and the other arguments are, the
    fidelity list that [fid_single_qubit] returns starts with [1.0], the
    fidelity of the initial state before any thermal relaxation. *)
Theorem fid_single_qubit_starts_at_one a s fid time s' :
  fid_single_qubit a s = Some ((fid, time), s') -> head fid = Some 1%Q.
Proof.
  unfold fid_single_qubit. intros H. peel H.
  now apply ret_Some in H as [[= -> _] _].
Qed.

Lemma py_eq_str_true v str : py_eq_str v str = true -> v = PyStr str.
Proof.
  destruct v; simpl; try discriminate. intros H.
  apply bool_decide_eq_true in H. now subst.
Qed.

(** With [idle_noise] false the name [time] is never bound, and the
    ['recovery'] branch fails at [return fidelities, time]. *)
Lemma ffs_recovery_without_idle_noise a s :
  py_eq_str (ffs_data_process_type a) "recovery" = true ->
  py_truthy (ffs_idle_noise a) = false ->
  fidelity_from_scratch a s = None.
Proof.
  intros Hrec Hidle.
  destruct (fidelity_from_scratch a s) as [[r s']|] eqn:H; [exfalso | done].
  unfold fidelity_from_scratch in H.
  pose proof (py_eq_str_true _ _ Hrec) as Hd. rewrite Hd, Hidle in H.
  change (py_eq_str (PyStr "recovery") "recovery") with true in H.
  change (py_eq_str (PyStr "recovery") "empty_circuit") with false in H.
  cbn beta iota zeta in H. peel H. done.
Qed.

Lemma range_length n : length (range n) = Z.to_nat n.
Proof. unfold range. now rewrite length_fmap, length_seq. Qed.

Lemma range_lookup n k :
  (0 <= k < n)%Z -> range n !! Z.to_nat k = Some k.
Proof.
  intros Hk. unfold range. rewrite list_lookup_fmap.
  rewrite lookup_seq_lt by lia. simpl. f_equal. lia.
Qed.

(** The density-matrix branch of the fidelity loop: one entry per cycle
    [0..n_cycles], entry [k] being the fidelity of snapshot [dm_k] with the
    ideal state. *)
Lemma cycle_fidelities_dm snapshot_type res trivial n_cycles fids :
  is_dm snapshot_type = true ->
  cycle_fidelities snapshot_type res trivial n_cycles = Some fids ->
  length fids = Z.to_nat (n_cycles + 1) /\
  forall k, (0 <= k <= n_cycles)%Z ->
    exists st f,
      fids !! Z.to_nat k = Some f /\
      data_dm res ("dm_" +:+ str k) = Some st /\
      state_fidelity st trivial = Some f.
Proof.
  intros Hdm. unfold cycle_fidelities. rewrite Hdm. intros H.
  apply mapM_Some in H. split.
  - rewrite <- (Forall2_length _ _ _ H). apply range_length.
  - intros k Hk.
    pose proof (range_lookup (n_cycles + 1) k ltac:(lia)) as Hr.
    destruct (Forall2_lookup_l _ _ _ _ _ H Hr) as (f & Hf & Hfk).
    destruct (data_dm res ("dm_" +:+ str k)) as [st|] eqn:Est;
      [|discriminate].
    exists st, f. done.
Qed.

(** When [idle_noise] is on, a ['recovery'] call with density-matrix
    snapshots returns [(fidelities, time)] with [n_cycles+1] fidelities,
    each against [get_encoded_state(theta, phi)]. *)
Lemma ffs_recovery_dm a s r s' :
  py_eq_str (ffs_data_process_type a) "recovery" = true ->
  is_dm (ffs_snapshot_type a) = true ->
  fidelity_from_scratch a s = Some (r, s') ->
  exists fids time res trivial,
    r = FidTime fids time /\
    get_encoded_state (ffs_theta a) (ffs_phi a) (Some PyNone) = Some trivial /\
    length fids = Z.to_nat (ffs_n_cycles a + 1) /\
    forall k, (0 <= k <= ffs_n_cycles a)%Z ->
      exists st f,
        fids !! Z.to_nat k = Some f /\
        data_dm res ("dm_" +:+ str k) = Some st /\
        state_fidelity st trivial = Some f.
Proof.
  intros Hrec Hdm H. unfold fidelity_from_scratch in H.
  pose proof (py_eq_str_true _ _ Hrec) as Hd. rewrite Hd in H.
  change (py_eq_str (PyStr "recovery") "recovery") with true in H.
  change (py_eq_str (PyStr "recovery") "empty_circuit") with false in H.
  cbn beta iota zeta in H. peel H.
  apply ret_Some in H as [-> _].
  match goal with
  | E : cycle_fidelities _ _ _ _ = Some _ |- _ =>
      destruct (cycle_fidelities_dm _ _ _ _ _ Hdm E) as [Hlen Hall]
  end.
  eauto 10.
Qed.

(** The state after a warning or a message has been issued. *)
Definition logged (s : mstate) (tr : list event) : mstate :=
  {| st_world := st_world s; st_log := st_log s ++ tr |}.

Definition gate_times_warning : event :=
  EvWarn "Invalid gate times, assuming WACQT_gate_times".

(** What the run shows when [simulator_type] is rejected: the message, the
    method set to ['density_matrix'], the execution. *)
Definition simulator_fallback (n_shots : Z) : list event :=
  [EvPrint "Invalid simulator type, defaulting to density_matrix";
   EvSetOption "method" (PyStr "density_matrix");
   EvExecute n_shots].

Lemma ffs_invalid_gate_times a v s :
  fidelity_from_scratch (ffs_with_gate_times a (GT_other v)) s
  = fidelity_from_scratch (ffs_with_gate_times a (GT_obj WACQT_gate_times))
      (logged s [gate_times_warning]).
Proof. reflexivity. Qed.

Lemma liftW_Some {A} (f : world -> option (A * world)) s a s' :
  liftW f s = Some (a, s') ->
  exists w, f (st_world s) = Some (a, w) /\
            s' = {| st_world := w; st_log := st_log s |}.
Proof.
  unfold liftW. destruct (f (st_world s)) as [[x w]|]; [|discriminate].
  intros [= -> <-]. eauto.
Qed.

Lemma do_set_option_Some be key v s u s' :
  do_set_option be key v s = Some (u, s') ->
  exists w, set_option be key v (st_world s) = Some w /\
            s' = {| st_world := w; st_log := st_log s ++ [EvSetOption key v] |}.
Proof.
  unfold do_set_option. intros H.
  apply bind_Some in H as ([] & s1 & E & H).
  apply liftW_Some in E as (w & E & ->).
  destruct (set_option be key v (st_world s)) as [w'|]; [|discriminate].
  injection E as ->. injection H as _ <-. eauto.
Qed.

Lemma do_set_option_None be key v s :
  set_option be key v (st_world s) = None -> do_set_option be key v s = None.
Proof.
  intros H. unfold do_set_option, mbind, M_bind, liftW. now rewrite H.
Qed.

Lemma do_execute_Some circ be nm shots s r s' :
  do_execute circ be nm shots s = Some (r, s') ->
  exists w, execute circ be nm shots (st_world s) = Some (r, w) /\
            s' = {| st_world := w; st_log := st_log s ++ [EvExecute shots] |}.
Proof.
  unfold do_execute. intros H.
  apply bind_Some in H as (r' & s1 & E & H).
  apply liftW_Some in E as (w & E & ->).
  apply bind_Some in H as ([] & s2 & E2 & H).
  injection E2 as <-. apply ret_Some in H as [-> ->]. eauto.
Qed.

(** Lines 162-169 when the first [set_option] raises. *)
Lemma run_simulation_fallback circ nm n_shots simulator_type s
  simulator w1 w2 be w3 res w4 :
  get_backend "qasm_simulator" (st_world s) = Some (simulator, w1) ->
  set_option simulator "method" simulator_type w1 = None ->
  set_option simulator "method" (PyStr "density_matrix") w1 = Some w2 ->
  get_backend "qasm_simulator" w2 = Some (be, w3) ->
  execute circ be (Some nm) n_shots w3 = Some (res, w4) ->
  run_simulation circ nm n_shots simulator_type s
  = Some (res, {| st_world := w4;
                  st_log := st_log s ++ simulator_fallback n_shots |}).
Proof.
  intros Hb1 Hfail Hset Hb2 Hex.
  unfold run_simulation, try_except, do_set_option, do_execute,
    mbind, M_bind, liftW, emit, mret, M_ret, option_bind. simpl.
  rewrite Hb1. simpl. rewrite Hfail. simpl. rewrite Hset. simpl.
  rewrite Hb2. simpl. rewrite Hex. simpl.
  now rewrite <- !app_assoc.
Qed.

(** The same at the level of the log, whatever the backends are. *)
Lemma run_simulation_rejected circ nm n_shots simulator_type s res s' :
  (forall be w, set_option be "method" simulator_type w = None) ->
  run_simulation circ nm n_shots simulator_type s = Some (res, s') ->
  st_log s' = st_log s ++ simulator_fallback n_shots.
Proof.
  intros Hfail H. unfold run_simulation in H.
  apply bind_Some in H as (simulator & s1 & E1 & H).
  apply liftW_Some in E1 as (w1 & E1 & ->).
  apply bind_Some in H as ([] & s2 & E2 & H).
  unfold try_except in E2. rewrite do_set_option_None in E2 by apply Hfail.
  apply bind_Some in E2 as ([] & s3 & E3 & E2).
  injection E3 as <-.
  apply do_set_option_Some in E2 as (w2 & _ & ->).
  apply bind_Some in H as (be & s4 & E4 & H).
  apply liftW_Some in E4 as (w3 & _ & ->).
  apply do_execute_Some in H as (w4 & _ & ->).
  simpl. now rewrite <- !app_assoc.
Qed.

Lemma emits_extends {A} (m : M A) nx nf s a s' :
  emits m nx nf -> m s = Some (a, s') ->
  exists tr, st_log s' = st_log s ++ tr.
Proof. intros Hm H. destruct (Hm _ _ _ H) as (tr & ? & _). eauto. Qed.

(** Whenever a call outside the ['empty_circuit'] mode returns with a
    rejected [simulator_type], its log shows the fallback. *)
Lemma ffs_simulator_fallback a s r s' :
  (forall be w, set_option be "method" (ffs_simulator_type a) w = None) ->
  py_eq_str (ffs_data_process_type a) "empty_circuit" = false ->
  fidelity_from_scratch a s = Some (r, s') ->
  exists before after,
    st_log s' = st_log s ++ before ++ simulator_fallback (ffs_n_shots a)
                ++ after.
Proof.
  intros Hfail Hmode H. unfold fidelity_from_scratch in H.
  rewrite Hmode in H.
  apply bind_Some in H as (fgt & s1 & E1 & H).
  destruct (emits_extends _ _ _ _ _ _ (silent_resolve_gate_times _) E1)
    as (before & Hbefore).
  destruct (if py_eq_str (ffs_data_process_type a) "recovery"
            then (true, false)
            else if py_eq_str (ffs_data_process_type a) "post_select"
                 then (false, true) else (false, false))
    as [recovery conditional].
  peel H.
  match goal with
  | E : (if py_truthy (ffs_transpile a) then _ else _) _ = Some _ |- _ =>
      apply (emits_extends _ 0 0) in E as (tr1 & Htr1); [|solve_silent]
  end.
  match goal with
  | E : (if py_truthy (ffs_idle_noise a) then _ else _) _ = Some _ |- _ =>
      apply (emits_extends _ 0 0) in E as (tr2 & Htr2); [|solve_silent]
  end.
  match goal with
  | E : run_simulation _ _ _ _ _ = Some _ |- _ =>
      apply run_simulation_rejected in E as Hrun; [|exact Hfail]
  end.
  match goal with
  | H' : _ ?s0 = Some (r, s') |- _ =>
      apply (emits_extends _ 0 0) in H' as (after & Hafter); [|solve_silent]
  end.
  exists (before ++ tr1 ++ tr2), after.
  rewrite Hafter, Hrun, Htr2, Htr1, Hbefore. now rewrite <- !app_assoc.
Qed.


(** C6 (the code departs from the claim).  With the default
    [data_process_type='recovery'] and [snapshot_type='dm'] but
    [idle_noise=False], no pair is returned for any [n_cycles]: the name
    [time] was never bound and [return fidelities, time] raises. *)
Theorem fidelity_from_scratch_idle_noise_off_raises n_cycles n_shots s :
  fidelity_from_scratch
    (ffs_with_idle_noise (ffs_defaults n_cycles n_shots) (PyBool false)) s
  = None.
Proof. now apply ffs_recovery_without_idle_noise. Qed.

End EntryPoints.

(** *** The claims about [sweep_parameter_space] *)

Section SweepClaims.

Context {L : SimLib}.


(** C2.  For every combination the sweep processes, named by its
    multi-index [idx] into the six lists, the simulation of that combination
    returned some [(fid, time)], [curve_fit(monoExp, list(time.values())[1:-1],
    fid[1:], (T1, 0, 0.9))] returned [(pars, cov)], and in the returned
    arrays [error_array[idx]] is [pars[0]] and [var_array[idx]] is
    [cov[0][0]]. *)
Theorem sweep_entries_are_fitted_constants a s ea va s' idx params :
  sweep_parameter_space a s = Some ((ea, va), s') ->
  in_bounds (sweep_lengths a) idx ->
  combination (noise_parameters a) idx = Some params ->
  skipped params = false ->
  exists st0 st_k s_k T cov00 s_k',
    sweep_initial a = Some st0 /\
    sweep_loop a
      (take (Z.to_nat (ravel (sweep_lengths a) idx))
            (itertools_product (noise_parameters a))) st0 s
    = Some (st_k, s_k) /\
    fitted a params s_k T cov00 s_k' /\
    nd_get ea idx = Some T /\
    nd_get va idx = Some cov00.
Proof.
  intros Hrun Hb Hc Hskip.
  destruct (sweep_cells a s ea va s' Hrun idx params Hb Hc)
    as (st0 & st_k & s_k & Hinit & Hpre & _ & [(Hs & _) | (_ & Hfit)]).
  - congruence.
  - destruct Hfit as (T & cov00 & s_k' & Hfit & Hea & Hva).
    exists st0, st_k, s_k, T, cov00, s_k'. done.
Qed.

(** C9.  For every combination with [T2 > 2*T1], named by its multi-index
    [idx]: the cells [error_array[idx]] and [var_array[idx]] of the
    returned arrays are exactly 0; the pass over it starts with the counter
    at the flat index of [idx], changes neither the world nor the log (no
    simulation, no fit) and only advances the counter; and every processed
    combination still lands in the cell of its own multi-index. *)
Theorem sweep_skipped_cells_stay_zero a s ea va s' idx params :
  sweep_parameter_space a s = Some ((ea, va), s') ->
  in_bounds (sweep_lengths a) idx ->
  combination (noise_parameters a) idx = Some params ->
  skipped params = true ->
  (nd_get ea idx = Some 0%Q /\ nd_get va idx = Some 0%Q) /\
  (exists st0 st_k s_k,
     sweep_initial a = Some st0 /\
     sweep_loop a
       (take (Z.to_nat (ravel (sweep_lengths a) idx))
             (itertools_product (noise_parameters a))) st0 s
     = Some (st_k, s_k) /\
     ls_index st_k = ravel (sweep_lengths a) idx /\
     body a st_k params s_k = Some (bump st_k, s_k)) /\
  (forall idx' params',
     in_bounds (sweep_lengths a) idx' ->
     combination (noise_parameters a) idx' = Some params' ->
     skipped params' = false ->
     exists s_k T cov00 s_k',
       fitted a params' s_k T cov00 s_k' /\
       nd_get ea idx' = Some T /\ nd_get va idx' = Some cov00).
Proof.
  intros Hrun Hb Hc Hskip.
  destruct (sweep_cells a s ea va s' Hrun idx params Hb Hc)
    as (st0 & st_k & s_k & Hinit & Hpre & Hidx & [Hs | (Hs & _)]);
    [|congruence].
  destruct Hs as (_ & Hbody & Hea & Hva).
  split; [done|]. split; [by exists st0, st_k, s_k|].
  intros idx' params' Hb' Hc' Hskip'.
  destruct (sweep_cells a s ea va s' Hrun idx' params' Hb' Hc')
    as (_ & _ & s_k' & _ & _ & _ & [(Hs & _) | (_ & Hfit)]); [congruence|].
  destruct Hfit as (T & cov00 & s2 & Hfit & Hea' & Hva').
  exists s_k', T, cov00, s2. done.
Qed.

End SweepClaims.

(** *** The claims on concrete runs *)

Import Demo.



Lemma sweep_entries_are_fitted_constants_witness :
  exists st0 st_k s_k T cov00 s_k',
    sweep_initial (demo_sweep [40%Q; 10%Q] [60%Q; 30%Q]) = Some st0 /\
    sweep_loop (demo_sweep [40%Q; 10%Q] [60%Q; 30%Q])
      (take (Z.to_nat (ravel (sweep_lengths
                                (demo_sweep [40%Q; 10%Q] [60%Q; 30%Q]))
                             [0; 1; 0; 0; 0; 0]%Z))
            (itertools_product
               (noise_parameters (demo_sweep [40%Q; 10%Q] [60%Q; 30%Q]))))
      st0 demo_start
    = Some (st_k, s_k) /\
    fitted (demo_sweep [40%Q; 10%Q] [60%Q; 30%Q])
           [40%Q; 30%Q; 20%Q; 100%Q; 300%Q; 350%Q] s_k T cov00 s_k' /\
    nd_get {| nd_shape := [2; 2; 1; 1; 1; 1]%Z;
              nd_data := [40%Q; 40%Q; 0%Q; 0%Q] |}
           [0; 1; 0; 0; 0; 0]%Z = Some T /\
    nd_get {| nd_shape := [2; 2; 1; 1; 1; 1]%Z;
              nd_data := [2%Q; 2%Q; 0%Q; 0%Q] |}
           [0; 1; 0; 0; 0; 0]%Z = Some cov00.
Proof.
  eapply (sweep_entries_are_fitted_constants (L := demo_lib)
            (demo_sweep [40%Q; 10%Q] [60%Q; 30%Q]) demo_start).
  - vm_compute. reflexivity.
  - unfold in_bounds, sweep_lengths, noise_parameters. simpl.
    repeat constructor; lia.
  - reflexivity.
  - reflexivity.
Defined.

Lemma sweep_skipped_cells_stay_zero_witness :
  nd_get {| nd_shape := [2; 2; 1; 1; 1; 1]%Z;
            nd_data := [40%Q; 40%Q; 0%Q; 0%Q] |}
         [1; 0; 0; 0; 0; 0]%Z = Some 0%Q /\
  nd_get {| nd_shape := [2; 2; 1; 1; 1; 1]%Z;
            nd_data := [2%Q; 2%Q; 0%Q; 0%Q] |}
         [1; 0; 0; 0; 0; 0]%Z = Some 0%Q.
Proof.
  eapply (sweep_skipped_cells_stay_zero (L := demo_lib)
            (demo_sweep [40%Q; 10%Q] [60%Q; 30%Q]) demo_start _ _ _
            [1; 0; 0; 0; 0; 0]%Z [10%Q; 60%Q; 20%Q; 100%Q; 300%Q; 350%Q]).
  - vm_compute. reflexivity.
  - unfold in_bounds, sweep_lengths, noise_parameters. simpl.
    repeat constructor; lia.
  - reflexivity.
  - reflexivity.
Defined.


Lemma fid_single_qubit_starts_at_one_witness :
  head [1%Q; (1 # 6)%Q; (1 # 6)%Q] = Some 1%Q.
Proof.
  eapply (fid_single_qubit_starts_at_one (L := demo_lib)
            {| fsq_n_cycles := 2; fsq_n_shots := 1;
               fsq_gate_times := GT_dict [];
               fsq_snapshot_type := PyStr "dm";
               fsq_T1 := 40000%Q; fsq_T2 := 60000%Q;
               fsq_theta := PyInt 0; fsq_phi := PyInt 0;
               fsq_pauliop := PyStr "Z"; fsq_kwargs := ∅ |}
            demo_start).
  vm_compute. reflexivity.
Defined.

End Properties.

(** ** The log-linear error-rate estimate [get_error_rate] *)

Module ErrorRate.

Import Py.

Local Open Scope R_scope.

(** A two-dimensional NumPy array of floats, read as real numbers: its
    shape and its cells. *)
Record matrix := { nrows : nat; ncols : nat; cell : nat -> nat -> R }.

(** Sum of [f 0 .. f (n-1)]. *)
Fixpoint big_sum (f : nat -> R) (n : nat) : R :=
  match n with
  | O => 0
  | S k => big_sum f k + f k
  end.

(** [np.ones((n, m))]. *)
Definition np_ones (n m : nat) : matrix :=
  {| nrows := n; ncols := m; cell := fun _ _ => 1 |}.

(** [M[i][j] = v]. *)
Definition set_cell (M : matrix) (i j : nat) (v : R) : matrix :=
  {| nrows := nrows M; ncols := ncols M;
     cell := fun i' j' =>
               if (Nat.eqb i i' && Nat.eqb j j')%bool then v
               else cell M i' j' |}.

(** [M.T]. *)
Definition transpose (M : matrix) : matrix :=
  {| nrows := ncols M; ncols := nrows M; cell := fun i j => cell M j i |}.

(** [np.dot(A, B)] on two-dimensional arrays; misaligned shapes raise. *)
Definition dot (A B : matrix) : option matrix :=
  if decide (ncols A = nrows B) then
    Some {| nrows := nrows A; ncols := ncols B;
            cell := fun i j =>
                      big_sum (fun k => cell A i k * cell B k j) (ncols A) |}
  else None.

(** [np.linalg.inv] at the only shape it is given here, 2 x 2; a singular
    matrix raises [LinAlgError]. *)
Definition inv (M : matrix) : option matrix :=
  if decide (nrows M = 2%nat /\ ncols M = 2%nat) then
    let det := cell M 0 0 * cell M 1 1 - cell M 0 1 * cell M 1 0 in
    if Req_EM_T det 0 then None
    else Some {| nrows := 2; ncols := 2;
                 cell := fun i j =>
                           match i, j with
                           | O, O => cell M 1 1 / det
                           | O, _ => - cell M 0 1 / det
                           | _, O => - cell M 1 0 / det
                           | _, _ => cell M 0 0 / det
                           end |}
  else None.

(** [np.log] of a positive number; for other arguments NumPy yields [-inf]
    or [nan], which are not real numbers. *)
Definition np_log (x : R) : option R :=
  if Rlt_dec 0 x then Some (ln x) else None.

(** [time[key]]. *)
Definition dict_get (d : list (string * R)) (key : string) : option R :=
  match List.find (fun kv => String.eqb (fst kv) key) d with
  | Some kv => Some (snd kv)
  | None => None
  end.

(** The new value of [x_D[i][1]]. *)
Definition design_entry (time : option (list (string * R))) (i : nat)
  (old : R) : option R :=
  match time with
  | Some t =>
      match dict_get t ("exp_" +:+ str (Z.of_nat i + 1)) with
      | Some v => Some (v * / 1000)
      | None =>
          v ← dict_get t ("dm_" +:+ str (Z.of_nat i + 1)); Some (v * / 1000)
      end
  | None => Some (old + INR i)
  end.

Fixpoint fill_design (time : option (list (string * R))) (rows : list nat)
  (x_D : matrix) : option matrix :=
  match rows with
  | [] => Some x_D
  | i :: rest =>
      v ← design_entry time i (cell x_D i 1);
      fill_design time rest (set_cell x_D i 1 v)
  end.

(** The squared residuals of the back-transformed fit, summed over
    [range(n_cycles)]. *)
Definition squared_error (theta : matrix) (fidelity : list R) (n_cycles : nat)
  : R :=
  fold_left
    (fun MSE cycle =>
       let y_pred := exp (cell theta 0 0)
                     * exp (INR (cycle + 1) * cell theta 1 0) in
       MSE + (y_pred - nth (cycle + 1) fidelity 0) ^ 2)
    (seq 0 n_cycles) 0.

Definition get_error_rate (fidelity : list R)
  (time : option (list (string * R))) : option (matrix * R) :=
  match fidelity with
  | [] => None (* n_cycles = -1: np.ones((-1, 2)) raises *)
  | _ :: later =>
      let n_cycles := length later in
      x_D ← fill_design time (seq 0 n_cycles) (np_ones n_cycles 2);
      logs ← mapM np_log later;
      let y := {| nrows := n_cycles; ncols := 1;
                  cell := fun i _ => nth i logs 0 |} in
      gram ← dot (transpose x_D) x_D;
      gram_inv ← inv gram;
      pinv ← dot gram_inv (transpose x_D);
      theta ← dot pinv y;
      Some (theta, squared_error theta fidelity n_cycles)
  end.

(** *** The least-squares problem, as the specification words it *)

(** Row [i] of the design matrix is [[1, 1+i]]. *)
Definition design (n : nat) : matrix :=
  {| nrows := n; ncols := 2;
     cell := fun i j => match j with O => 1 | _ => 1 + INR i end |}.

(** The column of natural logarithms of [fidelity[1:]]. *)
Definition log_column (fidelity : list R) (n : nat) : matrix :=
  {| nrows := n; ncols := 1; cell := fun i _ => ln (nth (S i) fidelity 0) |}.

(** Equality of arrays: same shape, same cells inside it. *)
Definition mat_eq (A B : matrix) : Prop :=
  nrows A = nrows B /\ ncols A = ncols B /\
  forall i j, (i < nrows A)%nat -> (j < ncols A)%nat -> cell A i j = cell B i j.

(** [theta] solves the normal equations [(X^T X) theta = X^T y], which for
    an invertible [X^T X] says [theta = (X^T X)^{-1} X^T y]. *)
Definition solves_normal_equations (X y theta : matrix) : Prop :=
  exists gram rhs lhs,
    dot (transpose X) X = Some gram /\
    dot (transpose X) y = Some rhs /\
    dot gram theta = Some lhs /\
    mat_eq lhs rhs.

(** Sum of squared residuals of the line [a + b*x] on the data. *)
Definition residual (X y : matrix) (a b : R) : R :=
  big_sum (fun i => (cell y i 0 - (a * cell X i 0 + b * cell X i 1)) ^ 2)
          (nrows X).

(** The formula [(X^T X)^{-1} X^T y], computed on [X] and [y]. *)
Definition ols_formula (X y : matrix) : option matrix :=
  gram ← dot (transpose X) X;
  gram_inv ← inv gram;
  pinv ← dot gram_inv (transpose X);
  dot pinv y.

(** *** Finite sums *)

Lemma big_sum_ext (f g : nat -> R) (n : nat) :
  (forall i, (i < n)%nat -> f i = g i) -> big_sum f n = big_sum g n.
Proof.
  induction n as [|n IH]; intros H; simpl; [done|].
  rewrite IH by (intros; apply H; lia). now rewrite H by lia.
Qed.

Lemma big_sum_add (f g : nat -> R) (n : nat) :
  big_sum (fun i => f i + g i) n = big_sum f n + big_sum g n.
Proof. induction n as [|n IH]; simpl; [lra | rewrite IH; lra]. Qed.

Lemma big_sum_scale (c : R) (f : nat -> R) (n : nat) :
  big_sum (fun i => c * f i) n = c * big_sum f n.
Proof. induction n as [|n IH]; simpl; [lra | rewrite IH; lra]. Qed.

Lemma big_sum_nonneg (f : nat -> R) (n : nat) :
  (forall i, 0 <= f i) -> 0 <= big_sum f n.
Proof.
  intros H. induction n as [|n IH]; simpl; [lra | specialize (H n); lra].
Qed.

Lemma big_sum_ones (n : nat) : big_sum (fun _ => 1 * 1) n = INR n.
Proof.
  induction n as [|n IH]; [done|].
  cbn [big_sum]. rewrite IH, S_INR. lra.
Qed.

Lemma big_sum_ramp (n : nat) :
  big_sum (fun i => 1 * (1 + INR i)) n = INR n * (INR n + 1) / 2.
Proof.
  induction n as [|n IH]; [simpl; lra|].
  cbn [big_sum]. rewrite IH, S_INR. lra.
Qed.

Lemma big_sum_ramp_squares (n : nat) :
  big_sum (fun i => (1 + INR i) * (1 + INR i)) n
  = INR n * (INR n + 1) * (2 * INR n + 1) / 6.
Proof.
  induction n as [|n IH]; [simpl; lra|].
  cbn [big_sum]. rewrite IH, S_INR. lra.
Qed.

(** The Gram determinant of the design [[1, 1+i]] is [n^2 (n^2 - 1) / 12]. *)
Lemma ramp_gram_determinant (n : nat) :
  (2 <= n)%nat ->
  0 < INR n * (INR n * (INR n + 1) * (2 * INR n + 1) / 6)
      - (INR n * (INR n + 1) / 2) * (INR n * (INR n + 1) / 2).
Proof.
  intros Hn. assert (Hr : 2 <= INR n) by (apply le_INR in Hn; simpl in Hn; lra).
  replace (INR n * (INR n * (INR n + 1) * (2 * INR n + 1) / 6)
           - (INR n * (INR n + 1) / 2) * (INR n * (INR n + 1) / 2))
    with (INR n * INR n * ((INR n + 1) * (INR n - 1)) / 12) by lra.
  assert (0 < INR n * INR n) by nra.
  assert (0 < (INR n + 1) * (INR n - 1)) by nra.
  assert (0 < INR n * INR n * ((INR n + 1) * (INR n - 1))) by nra.
  lra.
Qed.

(** *** The formula solves the least-squares problem *)

Section Ols.

Variables X y : matrix.

Hypothesis X_cols : ncols X = 2%nat.
Hypothesis y_rows : nrows y = nrows X.
Hypothesis y_cols : ncols y = 1%nat.

(** Entries of [X^T X] and of [X^T y]. *)
Definition gram_entry (j k : nat) : R :=
  big_sum (fun i => cell X i j * cell X i k) (nrows X).

Definition moment (j : nat) : R :=
  big_sum (fun i => cell X i j * cell y i 0) (nrows X).

Definition gram_det : R :=
  gram_entry 0 0 * gram_entry 1 1 - gram_entry 0 1 * gram_entry 1 0.

Lemma gram_entry_sym j k : gram_entry j k = gram_entry k j.
Proof. unfold gram_entry. apply big_sum_ext. intros; ring. Qed.

Lemma ols_formula_cells :
  gram_det <> 0 ->
  exists theta,
    ols_formula X y = Some theta /\
    nrows theta = 2%nat /\ ncols theta = 1%nat /\
    cell theta 0 0
    = (gram_entry 1 1 * moment 0 - gram_entry 0 1 * moment 1) / gram_det /\
    cell theta 1 0
    = (gram_entry 0 0 * moment 1 - gram_entry 1 0 * moment 0) / gram_det.
Proof.
  intros Hdet. unfold ols_formula, dot, inv.
  cbn [transpose nrows ncols cell].
  rewrite decide_True by done. cbn [mbind option_bind nrows ncols cell].
  rewrite decide_True by done.
  fold (gram_entry 0 0) (gram_entry 1 1) (gram_entry 0 1) (gram_entry 1 0).
  fold gram_det.
  destruct (Req_EM_T gram_det 0) as [E | _]; [contradiction|].
  cbn [mbind option_bind nrows ncols cell].
  rewrite decide_True by (symmetry; exact X_cols).
  cbn [mbind option_bind nrows ncols cell].
  rewrite decide_True by (symmetry; exact y_rows).
  eexists. split; [reflexivity|]. cbn [nrows ncols cell].
  split; [done|]. split; [exact y_cols|].
  unfold moment. split.
  - rewrite (big_sum_ext _
      (fun k => gram_entry 1 1 / gram_det * (cell X k 0 * cell y k 0)
                + - gram_entry 0 1 / gram_det * (cell X k 1 * cell y k 0)))
      by (intros; simpl; ring).
    rewrite big_sum_add, !big_sum_scale. field. exact Hdet.
  - rewrite (big_sum_ext _
      (fun k => - gram_entry 1 0 / gram_det * (cell X k 0 * cell y k 0)
                + gram_entry 0 0 / gram_det * (cell X k 1 * cell y k 0)))
      by (intros; simpl; ring).
    rewrite big_sum_add, !big_sum_scale. field. exact Hdet.
Qed.

(** [theta] is the 2 x 1 array given by Cramer's rule on [X^T X] and
    [X^T y]. *)
Definition is_ols (theta : matrix) : Prop :=
  nrows theta = 2%nat /\ ncols theta = 1%nat /\
  cell theta 0 0
  = (gram_entry 1 1 * moment 0 - gram_entry 0 1 * moment 1) / gram_det /\
  cell theta 1 0
  = (gram_entry 0 0 * moment 1 - gram_entry 1 0 * moment 0) / gram_det.

Lemma is_ols_normal_equations theta :
  gram_det <> 0 -> is_ols theta -> solves_normal_equations X y theta.
Proof.
  intros Hdet (Hr & Hc & H0 & H1). unfold solves_normal_equations, dot.
  cbn [transpose nrows ncols cell].
  rewrite (decide_True (P := nrows X = nrows X)) by done.
  rewrite (decide_True (P := nrows X = nrows y)) by (now rewrite y_rows).
  do 3 eexists. split; [reflexivity|]. split; [reflexivity|].
  cbn [nrows ncols cell].
  rewrite (decide_True (P := ncols X = nrows theta))
    by (now rewrite Hr, X_cols).
  split; [reflexivity|]. unfold mat_eq. cbn [nrows ncols cell].
  split; [done|]. split; [now rewrite Hc, y_cols|].
  intros i j Hi Hj. rewrite X_cols in Hi. rewrite Hc in Hj.
  assert (j = 0%nat) as -> by lia.
  rewrite X_cols. cbn [big_sum].
  fold (gram_entry i 0) (gram_entry i 1) (moment i).
  rewrite H0, H1.
  destruct i as [|[|i]]; [| |lia].
  - unfold gram_det in *. field. exact Hdet.
  - unfold gram_det in *. field. exact Hdet.
Qed.

Lemma residual_expand (a b : R) (m : nat) :
  big_sum (fun i => (cell y i 0 - (a * cell X i 0 + b * cell X i 1)) ^ 2) m
  = big_sum (fun i => cell y i 0 ^ 2) m
    - 2 * a * big_sum (fun i => cell X i 0 * cell y i 0) m
    - 2 * b * big_sum (fun i => cell X i 1 * cell y i 0) m
    + a ^ 2 * big_sum (fun i => cell X i 0 * cell X i 0) m
    + 2 * a * b * big_sum (fun i => cell X i 0 * cell X i 1) m
    + b ^ 2 * big_sum (fun i => cell X i 1 * cell X i 1) m.
Proof. induction m as [|m IH]; cbn [big_sum]; [ring | rewrite IH; ring]. Qed.

Lemma quadratic_form_nonneg (u v : R) :
  0 <= u ^ 2 * gram_entry 0 0 + 2 * u * v * gram_entry 0 1
       + v ^ 2 * gram_entry 1 1.
Proof.
  pose proof (big_sum_nonneg
                (fun i => (0 - (- u * cell X i 0 + - v * cell X i 1)) ^ 2)
                (nrows X)) as H.
  assert (Hsq : forall i, 0 <= (0 - (- u * cell X i 0 + - v * cell X i 1)) ^ 2)
    by (intros; apply pow2_ge_0).
  specialize (H Hsq).
  rewrite (big_sum_ext _
             (fun i => (u * cell X i 0 + v * cell X i 1) ^ 2)) in H
    by (intros; ring).
  assert (E : forall m,
             big_sum (fun i => (u * cell X i 0 + v * cell X i 1) ^ 2) m
             = u ^ 2 * big_sum (fun i => cell X i 0 * cell X i 0) m
               + 2 * u * v * big_sum (fun i => cell X i 0 * cell X i 1) m
               + v ^ 2 * big_sum (fun i => cell X i 1 * cell X i 1) m).
  { induction m as [|m IH]; cbn [big_sum]; [ring | rewrite IH; ring]. }
  rewrite E in H. exact H.
Qed.

(** No line has a smaller sum of squared residuals. *)
Lemma is_ols_minimises theta (a b : R) :
  gram_det <> 0 -> is_ols theta ->
  residual X y (cell theta 0 0) (cell theta 1 0) <= residual X y a b.
Proof.
  intros Hdet Hols.
  assert (N0 : gram_entry 0 0 * cell theta 0 0
               + gram_entry 0 1 * cell theta 1 0 = moment 0).
  { destruct Hols as (_ & _ & -> & ->). unfold gram_det in *. field. exact Hdet. }
  assert (N1 : gram_entry 0 1 * cell theta 0 0
               + gram_entry 1 1 * cell theta 1 0 = moment 1).
  { destruct Hols as (_ & _ & -> & ->).
    unfold gram_det in *. rewrite (gram_entry_sym 1 0) in *.
    field. exact Hdet. }
  unfold residual. rewrite !residual_expand.
  fold (gram_entry 0 0) (gram_entry 0 1) (gram_entry 1 1) (moment 0) (moment 1).
  rewrite <- N0, <- N1.
  pose proof (quadratic_form_nonneg (a - cell theta 0 0) (b - cell theta 1 0)).
  nra.
Qed.

End Ols.

Lemma gram_entry_mat_eq X X' j k :
  mat_eq X X' -> (j < ncols X)%nat -> (k < ncols X)%nat ->
  gram_entry X j k = gram_entry X' j k.
Proof.
  intros (Hr & Hc & Hcell) Hj Hk. unfold gram_entry. rewrite <- Hr.
  apply big_sum_ext. intros i Hi. now rewrite !Hcell by done.
Qed.

Lemma moment_mat_eq X X' y y' j :
  mat_eq X X' -> mat_eq y y' -> nrows y = nrows X -> (0 < ncols y)%nat ->
  (j < ncols X)%nat ->
  moment X y j = moment X' y' j.
Proof.
  intros (Hr & Hc & Hcell) (Hr' & Hc' & Hcell') Hrows Hcols Hj.
  unfold moment. rewrite <- Hr.
  apply big_sum_ext. intros i Hi.
  rewrite Hcell by done. rewrite Hcell' by lia. done.
Qed.

(** *** The code builds that problem *)

Lemma fill_design_none (k : nat) : forall (a : nat) (M : matrix),
  exists M',
    fill_design None (seq a k) M = Some M' /\
    nrows M' = nrows M /\ ncols M' = ncols M /\
    forall i j,
      cell M' i j
      = if (Nat.eqb j 1 && Nat.leb a i && Nat.ltb i (a + k))%bool
        then cell M i j + INR i else cell M i j.
Proof.
  induction k as [|k IH]; intros a M.
  - exists M. repeat split. intros i j.
    destruct (Nat.eqb_spec j 1), (Nat.leb_spec a i),
      (Nat.ltb_spec i (a + 0)); cbn [andb]; try done; lia.
  - cbn [seq fill_design design_entry mbind option_bind].
    destruct (IH (S a) (set_cell M a 1 (cell M a 1 + INR a)))
      as (M' & Hfill & Hr & Hc & Hcell).
    exists M'. split; [exact Hfill|]. split; [exact Hr|]. split; [exact Hc|].
    intros i j. rewrite Hcell. cbn [set_cell cell].
    destruct (Nat.eqb_spec j 1), (Nat.eqb_spec 1 j), (Nat.eqb_spec a i),
      (Nat.leb_spec (S a) i), (Nat.leb_spec a i),
      (Nat.ltb_spec i (S a + k)), (Nat.ltb_spec i (a + S k));
      cbn [andb]; try lia; subst; done.
Qed.

Lemma mapM_np_log (l : list R) :
  Forall (fun f => 0 < f) l -> mapM np_log l = Some (ln <$> l).
Proof.
  intros H. apply mapM_Some. apply Forall2_fmap_r.
  induction H as [|f l Hf _ IH]; constructor; [|exact IH].
  unfold np_log. destruct (Rlt_dec 0 f); [done | contradiction].
Qed.

Lemma nth_fmap_ln (l : list R) (i : nat) :
  (i < length l)%nat -> nth i (ln <$> l) 0 = ln (nth i l 0).
Proof.
  revert i. induction l as [|f l IH]; intros i Hi; simpl in Hi; [lia|].
  destruct i as [|i]; [done|]. cbn. apply IH. lia.
Qed.

Lemma fold_left_big_sum (f : nat -> R) (n : nat) :
  fold_left (fun acc i => acc + f i) (seq 0 n) 0 = big_sum f n.
Proof.
  induction n as [|n IH]; [done|].
  rewrite seq_S, fold_left_app, IH. done.
Qed.

Lemma design_gram_det (n : nat) :
  (2 <= n)%nat -> gram_det (design n) <> 0.
Proof.
  intros Hn. unfold gram_det, gram_entry. cbn [design nrows cell].
  rewrite big_sum_ones, big_sum_ramp_squares, big_sum_ramp.
  rewrite (big_sum_ext (fun i => (1 + INR i) * 1)
                       (fun i => 1 * (1 + INR i))) by (intros; ring).
  rewrite big_sum_ramp.
  pose proof (ramp_gram_determinant n Hn). lra.
Qed.

Lemma is_ols_mat_eq X X' y y' theta :
  mat_eq X X' -> mat_eq y y' ->
  ncols X = 2%nat -> nrows y = nrows X -> ncols y = 1%nat ->
  is_ols X y theta -> is_ols X' y' theta /\ gram_det X = gram_det X'.
Proof.
  intros HX Hy Hc Hr Hyc (H1 & H2 & H3 & H4).
  assert (G : forall j k, (j < 2)%nat -> (k < 2)%nat ->
                          gram_entry X j k = gram_entry X' j k)
    by (intros; apply gram_entry_mat_eq; [done | lia | lia]).
  assert (Mo : forall j, (j < 2)%nat -> moment X y j = moment X' y' j)
    by (intros; apply moment_mat_eq; [done | done | done | lia | lia]).
  assert (D : gram_det X = gram_det X')
    by (unfold gram_det; rewrite !G by lia; done).
  split; [|exact D]. unfold is_ols.
  rewrite <- D, <- !G, <- !Mo by lia. done.
Qed.

(** C4.  For a fidelity list of length [n+1] with [n >= 2] and positive
    entries, [get_error_rate(fidelity)] (with [time=None]) returns
    [theta] and [MSE] where [theta] is [(X^T X)^{-1} X^T y] for the design
    matrix [X] with rows [[1, 1+i]] and [y] the column of logarithms of
    [fidelity[1:]]: it is what the formula evaluates to on [X] and [y], it
    solves the normal equations, and it minimises the sum of squared
    residuals; [MSE] is the sum over the cycles of the squared differences
    between [exp(theta[0]) * exp((cycle+1) * theta[1])] and
    [fidelity[cycle+1]]. *)
Theorem get_error_rate_is_least_squares (fidelity : list R) (n : nat) :
  length fidelity = S n -> (2 <= n)%nat ->
  Forall (fun f => 0 < f) fidelity ->
  exists theta MSE,
    get_error_rate fidelity None = Some (theta, MSE) /\
    (exists theta',
       ols_formula (design n) (log_column fidelity n) = Some theta' /\
       mat_eq theta theta') /\
    solves_normal_equations (design n) (log_column fidelity n) theta /\
    (forall a b,
       residual (design n) (log_column fidelity n)
                (cell theta 0 0) (cell theta 1 0)
       <= residual (design n) (log_column fidelity n) a b) /\
    MSE = big_sum
            (fun cycle =>
               (exp (cell theta 0 0) * exp (INR (cycle + 1) * cell theta 1 0)
                - nth (cycle + 1) fidelity 0) ^ 2) n.
Proof.
  intros Hlen Hn Hpos.
  destruct fidelity as [|f0 later]; [discriminate|].
  injection Hlen as Hlen. inversion Hpos as [|? ? _ Hlater]; subst.
  unfold get_error_rate.
  destruct (fill_design_none (length later) 0 (np_ones (length later) 2))
    as (x_D & Hfill & Hxr & Hxc & Hxcell).
  rewrite Hfill, (mapM_np_log later Hlater). cbn [mbind option_bind].
  set (y := {| nrows := length later; ncols := 1;
               cell := fun i _ => nth i (ln <$> later) 0 |}).
  cbn [np_ones nrows ncols cell] in Hxr, Hxc, Hxcell.
  assert (HX : mat_eq x_D (design (length later))).
  { split; [exact Hxr|]. split; [exact Hxc|].
    intros i j Hi Hj. rewrite Hxr in Hi. rewrite Hxc in Hj.
    rewrite Hxcell. cbn [design cell]. cbn [Nat.leb andb].
    destruct j as [|[|j]]; [done| |lia]. cbn [Nat.eqb andb].
    replace (i <? 0 + length later)%nat with true
      by (symmetry; apply Nat.ltb_lt; lia).
    done. }
  assert (HY : mat_eq y (log_column (f0 :: later) (length later))).
  { split; [done|]. split; [done|]. intros i j Hi _.
    cbn [y log_column cell nth]. now apply nth_fmap_ln. }
  pose proof (design_gram_det (length later) Hn) as Hdet.
  assert (Hyr : nrows y = nrows x_D) by (now rewrite Hxr).
  assert (Hyc : ncols y = 1%nat) by done.
  destruct (ols_formula_cells x_D y Hxc Hyr Hyc) as (theta & Hth & Hols).
  { intros E. apply Hdet. rewrite <- E. symmetry.
    unfold gram_det. rewrite !(gram_entry_mat_eq x_D _ _ _ HX) by lia. done. }
  assert (Hols' : is_ols x_D y theta) by exact Hols.
  destruct (is_ols_mat_eq _ _ _ _ theta HX HY Hxc Hyr Hyc Hols')
    as [Hspec Hd].
  unfold ols_formula in Hth.
  destruct (dot (transpose x_D) x_D) as [gram|]; [|discriminate].
  cbn [mbind option_bind] in Hth |- *.
  destruct (inv gram) as [gram_inv|]; [|discriminate].
  cbn [mbind option_bind] in Hth |- *.
  destruct (dot gram_inv (transpose x_D)) as [pinv|]; [|discriminate].
  cbn [mbind option_bind] in Hth |- *.
  rewrite Hth. cbn [mbind option_bind].
  exists theta, (squared_error theta (f0 :: later) (length later)).
  split; [done|].
  assert (Dcols : ncols (design (length later)) = 2%nat) by done.
  assert (Lrows : nrows (log_column (f0 :: later) (length later))
                  = nrows (design (length later))) by done.
  assert (Lcols : ncols (log_column (f0 :: later) (length later)) = 1%nat)
    by done.
  split; [|split; [|split]].
  - destruct (ols_formula_cells _ _ Dcols Lrows Lcols Hdet)
      as (theta' & Hth' & Hr' & Hc' & H0' & H1').
    exists theta'. split; [exact Hth'|].
    destruct Hspec as (Hr & Hc & H0 & H1).
    split; [congruence|]. split; [congruence|].
    intros i j Hi Hj. rewrite Hr in Hi. rewrite Hc in Hj.
    assert (j = 0%nat) as -> by lia.
    destruct i as [|[|i]]; [congruence | congruence | lia].
  - now apply (is_ols_normal_equations _ _ Dcols Lrows Lcols).
  - intros a b. now apply (is_ols_minimises _ _).
  - unfold squared_error. now rewrite fold_left_big_sum.
Qed.

Lemma get_error_rate_is_least_squares_witness :
  exists theta MSE,
    get_error_rate [1; 1; 1] None = Some (theta, MSE) /\
    (exists theta',
       ols_formula (design 2) (log_column [1; 1; 1] 2) = Some theta' /\
       mat_eq theta theta') /\
    solves_normal_equations (design 2) (log_column [1; 1; 1] 2) theta /\
    (forall a b,
       residual (design 2) (log_column [1; 1; 1] 2)
                (cell theta 0 0) (cell theta 1 0)
       <= residual (design 2) (log_column [1; 1; 1] 2) a b) /\
    MSE = big_sum
            (fun cycle =>
               (exp (cell theta 0 0) * exp (INR (cycle + 1) * cell theta 1 0)
                - nth (cycle + 1) [1; 1; 1] 0) ^ 2) 2.
Proof.
  apply (get_error_rate_is_least_squares [1; 1; 1] 2).
  - reflexivity.
  - lia.
  - repeat constructor; lra.
Defined.

End ErrorRate.

(** ** Projection onto the logical subspace ([idle_comparison.py]) *)

Module LogicalSubspace.

(** *** Complex numbers with rational parts

    Every finite [complex128] is such a number; arithmetic is exact. *)

Record C := mkC { re : Qc; im : Qc }.

Declare Scope C_scope.
Delimit Scope C_scope with C.
Bind Scope C_scope with C.

Definition C0 : C := mkC 0 0.
Definition C1 : C := mkC 1 0.
Definition C2 : C := mkC (1 + 1) 0.
(** The imaginary unit [1j]. *)
Definition Ci : C := mkC 0 1.

Definition Cadd (z w : C) : C := mkC (re z + re w) (im z + im w).
Definition Cmul (z w : C) : C :=
  mkC (re z * re w - im z * im w) (re z * im w + im z * re w).
Definition Copp (z : C) : C := mkC (- re z) (- im z).
Definition Csub (z w : C) : C := Cadd z (Copp w).
Definition Cinv (z : C) : C :=
  let d := (re z * re z + im z * im z)%Qc in mkC (re z / d) (- im z / d).
Definition Cdiv (z w : C) : C := Cmul z (Cinv w).

Infix "+" := Cadd : C_scope.
Infix "*" := Cmul : C_scope.
Infix "-" := Csub : C_scope.
Infix "/" := Cdiv : C_scope.
Notation "- z" := (Copp z) : C_scope.

(** Equality test on the canonical representatives. *)
Definition Ceqb (z w : C) : bool :=
  Qeq_bool (this (re z)) (this (re w)) && Qeq_bool (this (im z)) (this (im w)).

Lemma Ceqb_eq (z w : C) : Ceqb z w = true <-> z = w.
Proof.
  unfold Ceqb. rewrite andb_true_iff, !Qeq_bool_iff. split.
  - intros [Hr Hi]. destruct z, w. cbn [re im] in *.
    f_equal; now apply Qc_is_canon.
  - intros ->. split; reflexivity.
Qed.

Lemma Qc_sum_squares_zero (a b : Qc) : (a * a + b * b = 0 -> a = 0)%Qc.
Proof.
  intros H. apply Qc_is_canon.
  apply (f_equal this) in H. unfold Qcplus, Qcmult, Q2Qc in H.
  cbn [this] in H.
  assert (Hq : (this a * this a + this b * this b == 0)%Q).
  { rewrite <- (Qred_correct (this a * this a)),
            <- (Qred_correct (this b * this b)).
    rewrite <- (Qred_correct
                  (Qred (this a * this a) + Qred (this b * this b))).
    rewrite H. reflexivity. }
  change (this 0%Qc) with 0%Q. nra.
Qed.

Lemma C_field : field_theory C0 C1 Cadd Cmul Csub Copp Cdiv Cinv eq.
Proof.
  constructor.
  - constructor; intros; unfold Cadd, Cmul, Csub, Copp, C0, C1;
      try destruct x; try destruct y; try destruct z;
      cbn [re im]; f_equal; ring.
  - discriminate.
  - reflexivity.
  - intros [a b] H. unfold Cmul, Cinv, C1. cbn [re im].
    assert (Hd : (a * a + b * b)%Qc <> 0%Qc).
    { intros E. apply H. pose proof (Qc_sum_squares_zero a b E) as ->.
      rewrite Qcplus_comm in E.
      pose proof (Qc_sum_squares_zero b 0%Qc E) as ->. reflexivity. }
    f_equal; field; exact Hd.
Qed.

Add Field Cfield : C_field.

Local Open Scope C_scope.

(** *** Arrays *)

(** The Hilbert-space dimension of five qubits. *)
Definition dim : nat := 32.

(** Sum of [f 0 .. f (n-1)]. *)
Fixpoint csum (f : nat -> C) (n : nat) : C :=
  match n with
  | O => C0
  | S k => csum f k + f k
  end.

(** One- and two-dimensional arrays of length (side) [dim], by their
    cells. *)
Definition vec : Type := nat -> C.
Definition mat : Type := nat -> nat -> C.

(** [u @ A], [u @ v], [np.outer(u, v)], [A + B], [A @ B], [np.trace(A)]. *)
Definition vecmat (u : vec) (A : mat) : vec :=
  fun b => csum (fun a => u a * A a b) dim.
Definition dotv (u v : vec) : C := csum (fun b => u b * v b) dim.
Definition outer (u v : vec) : mat := fun a b => u a * v b.
Definition matadd (A B : mat) : mat := fun a b => A a b + B a b.
Definition matmul (A B : mat) : mat :=
  fun a b => csum (fun k => A a k * B k b) dim.
Definition trace (A : mat) : C := csum (fun a => A a a) dim.

(** [Pauli(label).to_matrix()]: the Kronecker product of the single-qubit
    matrices named by the label, leftmost factor first. *)
Inductive pauli := PauliI | PauliX | PauliY | PauliZ.

Definition pauli_entry (p : pauli) (r c : nat) : C :=
  match p, r, c with
  | PauliI, O, O | PauliI, S O, S O => C1
  | PauliX, O, S O | PauliX, S O, O => C1
  | PauliY, O, S O => - Ci
  | PauliY, S O, O => Ci
  | PauliZ, O, O => C1
  | PauliZ, S O, S O => - C1
  | _, _, _ => C0
  end.

Fixpoint to_matrix (label : list pauli) : mat :=
  match label with
  | [] => fun a b => match a, b with O, O => C1 | _, _ => C0 end
  | p :: rest =>
      let n := (2 ^ length rest)%nat in
      fun a b => pauli_entry p (a / n) (b / n)
                 * to_matrix rest (a mod n) (b mod n)
  end.

Definition XXXXX : list pauli := [PauliX; PauliX; PauliX; PauliX; PauliX].
Definition YYYYY : list pauli := [PauliY; PauliY; PauliY; PauliY; PauliY].
Definition ZZZZZ : list pauli := [PauliZ; PauliZ; PauliZ; PauliZ; PauliZ].

(** The literal [pauli_matrices] of V3. *)
Definition pauli_matrices : list (list (list C)) :=
  [ [[C1; C0]; [C0; C1]];
    [[C0; C1]; [C1; C0]];
    [[C0; - Ci]; [Ci; C0]];
    [[C1; C0]; [C0; - C1]] ].

(** Elementwise [acc + sigma * t / d] on 2 x 2 arrays. *)
Definition accumulate (acc sigma : list (list C)) (t d : C)
  : list (list C) :=
  zip_with (zip_with (fun x s => x + s * t / d)) acc sigma.

Section Projections.

(** [logical_states(include_ancillas=None)] is defined in
    [simulator_program/stabilizers.py], outside these files; its two state
    vectors are parameters. *)
Variables logical_0 logical_1 : vec.

(** [project_dm_to_logical_subspace_V1]: matrix elements
    [<L_i|rho|L_j> / P_L].  A zero [P_L] makes NumPy divide by zero, which
    yields [nan]s: no array of numbers is returned. *)
Definition project_dm_to_logical_subspace_V1 (rho : mat)
  : option (list (list C)) :=
  let logical := [logical_0; logical_1] in
  let P_L := fold_left (fun acc l => acc + dotv (vecmat l rho) l) logical C0 in
  if Ceqb P_L C0 then None
  else Some ((fun li =>
                (fun lj => dotv (vecmat li rho) lj / P_L) <$> logical)
             <$> logical).

(** [project_dm_to_logical_subspace_V3]: decomposition over the logical
    Pauli operators. *)
Definition project_dm_to_logical_subspace_V3 (rho : mat)
  : option (list (list C)) :=
  let I_L := matadd (outer logical_0 logical_0) (outer logical_1 logical_1) in
  let logical_pauli_matrices :=
    [I_L; matmul (to_matrix XXXXX) I_L; matmul (to_matrix YYYYY) I_L;
     matmul (to_matrix ZZZZZ) I_L] in
  let P_L := trace (matmul rho I_L) in
  if Ceqb P_L C0 then None
  else Some (fold_left
               (fun rho_L sm =>
                  accumulate rho_L sm.1 (trace (matmul rho sm.2)) (C2 * P_L))
               (zip pauli_matrices logical_pauli_matrices)
               [[C0; C0]; [C0; C0]]).

End Projections.

(** *** Finite sums of complex numbers *)

Lemma csum_ext (f g : nat -> C) (n : nat) :
  (forall i, (i < n)%nat -> f i = g i) -> csum f n = csum g n.
Proof.
  induction n as [|n IH]; intros H; cbn [csum]; [done|].
  rewrite IH by (intros; apply H; lia). now rewrite H by lia.
Qed.

Lemma csum_add (f g : nat -> C) (n : nat) :
  csum (fun i => f i + g i) n = csum f n + csum g n.
Proof. induction n as [|n IH]; cbn [csum]; [ring | rewrite IH; ring]. Qed.

Lemma csum_scale_l (c : C) (f : nat -> C) (n : nat) :
  csum (fun i => c * f i) n = c * csum f n.
Proof. induction n as [|n IH]; cbn [csum]; [ring | rewrite IH; ring]. Qed.

Lemma csum_scale_r (c : C) (f : nat -> C) (n : nat) :
  csum (fun i => f i * c) n = csum f n * c.
Proof. induction n as [|n IH]; cbn [csum]; [ring | rewrite IH; ring]. Qed.

Lemma csum_swap (f : nat -> nat -> C) (n m : nat) :
  csum (fun a => csum (fun b => f a b) m) n
  = csum (fun b => csum (fun a => f a b) n) m.
Proof.
  induction n as [|n IH]; cbn [csum].
  - induction m as [|m IHm]; cbn [csum]; [done | rewrite <- IHm; ring].
  - rewrite IH, <- csum_add. done.
Qed.

(** A row with a single non-zero entry picks out one component. *)
Lemma csum_delta (c : C) (v : nat -> C) (k n : nat) :
  (k < n)%nat ->
  csum (fun b => (if Nat.eqb b k then c else C0) * v b) n = c * v k.
Proof.
  intros Hk. induction n as [|n IH]; [lia|]. cbn [csum].
  destruct (Nat.eqb_spec n k) as [-> | Hne].
  - rewrite (csum_ext _ (fun _ => C0 * C0)).
    + rewrite csum_scale_l. ring.
    + intros i Hi. destruct (Nat.eqb_spec i k); [lia | ring].
  - rewrite IH by lia. ring.
Qed.

(** *** The five-qubit Pauli strings *)

(** [A @ v]. *)
Definition matvec (A : mat) (v : vec) : vec :=
  fun a => csum (fun b => A a b * v b) dim.

Definition mat_eqb (A B : mat) : bool :=
  forallb (fun a => forallb (fun b => Ceqb (A a b) (B a b)) (seq 0 dim))
          (seq 0 dim).

Definition vec_eqb (u v : vec) : bool :=
  forallb (fun a => Ceqb (u a) (v a)) (seq 0 dim).

Lemma mat_eqb_cells (A B : mat) :
  mat_eqb A B = true ->
  forall a b, (a < dim)%nat -> (b < dim)%nat -> A a b = B a b.
Proof.
  unfold mat_eqb. rewrite forallb_forall. intros H a b Ha Hb.
  specialize (H a). rewrite forallb_forall in H.
  apply Ceqb_eq, H; apply in_seq; lia.
Qed.

Lemma vec_eqb_cells (u v : vec) :
  vec_eqb u v = true -> forall a, (a < dim)%nat -> u a = v a.
Proof.
  unfold vec_eqb. rewrite forallb_forall. intros H a Ha.
  apply Ceqb_eq, H, in_seq. lia.
Qed.

(** The sign [ZZZZZ] gives to basis state [a]. *)
Definition z_sign (a : nat) : C := to_matrix ZZZZZ a a.

Lemma XXXXX_cells a b :
  (a < dim)%nat -> (b < dim)%nat ->
  to_matrix XXXXX a b = if Nat.eqb b (31 - a) then C1 else C0.
Proof.
  apply (mat_eqb_cells (to_matrix XXXXX)
           (fun a b => if Nat.eqb b (31 - a) then C1 else C0)).
  vm_compute. reflexivity.
Qed.

Lemma ZZZZZ_cells a b :
  (a < dim)%nat -> (b < dim)%nat ->
  to_matrix ZZZZZ a b = if Nat.eqb b a then z_sign a else C0.
Proof.
  apply (mat_eqb_cells (to_matrix ZZZZZ)
           (fun a b => if Nat.eqb b a then z_sign a else C0)).
  vm_compute. reflexivity.
Qed.

Lemma YYYYY_cells a b :
  (a < dim)%nat -> (b < dim)%nat ->
  to_matrix YYYYY a b
  = if Nat.eqb b (31 - a) then Ci * z_sign (31 - a) else C0.
Proof.
  apply (mat_eqb_cells (to_matrix YYYYY)
           (fun a b => if Nat.eqb b (31 - a)
                       then Ci * z_sign (31 - a) else C0)).
  vm_compute. reflexivity.
Qed.

Lemma XXXXX_action (v : vec) a :
  (a < dim)%nat -> matvec (to_matrix XXXXX) v a = v (31 - a)%nat.
Proof.
  intros Ha. unfold matvec.
  rewrite (csum_ext _ (fun b => (if Nat.eqb b (31 - a) then C1 else C0) * v b))
    by (intros; now rewrite XXXXX_cells).
  rewrite csum_delta by (unfold dim in *; lia). ring.
Qed.

Lemma ZZZZZ_action (v : vec) a :
  (a < dim)%nat -> matvec (to_matrix ZZZZZ) v a = z_sign a * v a.
Proof.
  intros Ha. unfold matvec.
  rewrite (csum_ext _ (fun b => (if Nat.eqb b a then z_sign a else C0) * v b))
    by (intros; now rewrite ZZZZZ_cells).
  now rewrite csum_delta.
Qed.

Lemma YYYYY_action (v : vec) a :
  (a < dim)%nat ->
  matvec (to_matrix YYYYY) v a
  = Ci * matvec (to_matrix ZZZZZ) v (31 - a)%nat.
Proof.
  intros Ha. unfold matvec at 1.
  rewrite (csum_ext _ (fun b => (if Nat.eqb b (31 - a)
                                 then Ci * z_sign (31 - a) else C0) * v b))
    by (intros; now rewrite YYYYY_cells).
  rewrite csum_delta by (unfold dim in *; lia).
  rewrite ZZZZZ_action by (unfold dim in *; lia). ring.
Qed.

(** *** V3 computes what V1 computes *)

Lemma C2_double (x : C) : C2 * x = x + x.
Proof. destruct x. unfold C2, Cmul, Cadd. cbn [re im]. f_equal; ring. Qed.

Lemma Ci_square (x : C) : Ci * (Ci * x) = - x.
Proof. destruct x. unfold Ci, Cmul, Copp. cbn [re im]. f_equal; ring. Qed.

Lemma Qc_double_zero (a : Qc) : (a + a = 0 -> a = 0)%Qc.
Proof.
  intros E. apply Qc_is_canon. apply (f_equal this) in E.
  unfold Qcplus, Q2Qc in E. cbn [this] in E.
  assert (Hq : (this a + this a == 0)%Q)
    by (rewrite <- (Qred_correct (this a + this a)), E; reflexivity).
  change (this 0%Qc) with 0%Q. lra.
Qed.

Lemma double_nonzero (x : C) : x <> C0 -> x + x <> C0.
Proof.
  intros H E. apply H. destruct x as [a b].
  pose proof (f_equal re E) as Ea. pose proof (f_equal im E) as Eb.
  cbn [Cadd C0 re im] in Ea, Eb.
  unfold C0. f_equal; now apply Qc_double_zero.
Qed.

Section Equivalence.

Variables logical_0 logical_1 : vec.

(** What is used of the two state vectors: [ZZZZZ] fixes the first and
    negates the second, and [XXXXX] exchanges them -- they are the logical
    zero and one of a code whose logical Z and X are [ZZZZZ] and [XXXXX]. *)
Hypothesis X_logical_0 : forall a, (a < dim)%nat ->
  matvec (to_matrix XXXXX) logical_0 a = logical_1 a.
Hypothesis X_logical_1 : forall a, (a < dim)%nat ->
  matvec (to_matrix XXXXX) logical_1 a = logical_0 a.
Hypothesis Z_logical_0 : forall a, (a < dim)%nat ->
  matvec (to_matrix ZZZZZ) logical_0 a = logical_0 a.
Hypothesis Z_logical_1 : forall a, (a < dim)%nat ->
  matvec (to_matrix ZZZZZ) logical_1 a = - logical_1 a.

Variable rho : mat.

(** The bilinear form [u^T rho v]. *)
Definition form (u v : vec) : C :=
  csum (fun a => csum (fun b => rho a b * (v b * u a)) dim) dim.

(** [P_L], the overlap of [rho] with the code space. *)
Definition logical_overlap : C :=
  dotv (vecmat logical_0 rho) logical_0
  + dotv (vecmat logical_1 rho) logical_1.

Lemma Y_logical_0 a :
  (a < dim)%nat -> matvec (to_matrix YYYYY) logical_0 a = Ci * logical_1 a.
Proof.
  intros Ha. rewrite YYYYY_action by done.
  rewrite Z_logical_0 by (unfold dim in *; lia).
  rewrite <- XXXXX_action by done. now rewrite X_logical_0.
Qed.

Lemma Y_logical_1 a :
  (a < dim)%nat ->
  matvec (to_matrix YYYYY) logical_1 a = - (Ci * logical_0 a).
Proof.
  intros Ha. rewrite YYYYY_action by done.
  rewrite Z_logical_1 by (unfold dim in *; lia).
  rewrite <- XXXXX_action by done. rewrite X_logical_1 by done. ring.
Qed.

Lemma dotv_vecmat (u v : vec) : dotv (vecmat u rho) v = form u v.
Proof.
  unfold dotv, vecmat, form.
  rewrite (csum_ext _ (fun b => csum (fun a => rho a b * (v b * u a)) dim)).
  - apply csum_swap.
  - intros b _. rewrite <- csum_scale_r. apply csum_ext. intros; ring.
Qed.

Lemma form_ext (u v v' : vec) :
  (forall b, (b < dim)%nat -> v b = v' b) -> form u v = form u v'.
Proof.
  intros H. unfold form. apply csum_ext. intros a _.
  apply csum_ext. intros b Hb. now rewrite H.
Qed.

Lemma form_scale (c : C) (u v : vec) :
  form u (fun b => c * v b) = c * form u v.
Proof.
  unfold form. rewrite <- csum_scale_l. apply csum_ext. intros a _.
  rewrite <- csum_scale_l. apply csum_ext. intros; ring.
Qed.

Lemma form_opp (u v : vec) :
  form u (fun b => - v b) = - form u v.
Proof.
  rewrite (form_ext _ _ (fun b => (- C1) * v b)) by (intros; ring).
  rewrite form_scale. ring.
Qed.

Definition I_L : mat :=
  matadd (outer logical_0 logical_0) (outer logical_1 logical_1).

Lemma trace_code_space :
  trace (matmul rho I_L) = form logical_0 logical_0 + form logical_1 logical_1.
Proof.
  unfold trace, matmul, I_L, matadd, outer, form.
  rewrite <- csum_add. apply csum_ext. intros a _.
  rewrite <- csum_add. apply csum_ext. intros; ring.
Qed.

Lemma trace_logical_pauli (P : mat) :
  trace (matmul rho (matmul P I_L))
  = form logical_0 (matvec P logical_0) + form logical_1 (matvec P logical_1).
Proof.
  unfold trace, matmul at 1, form.
  rewrite <- csum_add. apply csum_ext. intros a _.
  rewrite <- csum_add. apply csum_ext. intros b _.
  unfold matmul, I_L, matadd, outer, matvec.
  rewrite (csum_ext _
             (fun k => P b k * logical_0 k * logical_0 a
                       + P b k * logical_1 k * logical_1 a))
    by (intros; ring).
  rewrite csum_add, !csum_scale_r. ring.
Qed.

(** The four entries, as identities of complex numbers. *)
Lemma entry_00 (p q r t : C) :
  p + t <> C0 ->
  C0 + C1 * (p + t) / (C2 * (p + t)) + C0 * (q + r) / (C2 * (p + t))
  + C0 * (Ci * q + - (Ci * r)) / (C2 * (p + t))
  + C1 * (p + - t) / (C2 * (p + t))
  = p / (C0 + p + t).
Proof.
  intros H. rewrite !C2_double. field.
  split; [exact H | now apply double_nonzero].
Qed.

Lemma entry_11 (p q r t : C) :
  p + t <> C0 ->
  C0 + C1 * (p + t) / (C2 * (p + t)) + C0 * (q + r) / (C2 * (p + t))
  + C0 * (Ci * q + - (Ci * r)) / (C2 * (p + t))
  + (- C1) * (p + - t) / (C2 * (p + t))
  = t / (C0 + p + t).
Proof.
  intros H. rewrite !C2_double. field.
  split; [exact H | now apply double_nonzero].
Qed.

Lemma entry_01 (p q r t : C) :
  p + t <> C0 ->
  C0 + C0 * (p + t) / (C2 * (p + t)) + C1 * (q + r) / (C2 * (p + t))
  + (- Ci) * (Ci * q + - (Ci * r)) / (C2 * (p + t))
  + C0 * (p + - t) / (C2 * (p + t))
  = q / (C0 + p + t).
Proof.
  intros H.
  replace ((- Ci) * (Ci * q + - (Ci * r))) with (q - r).
  2:{ transitivity (- (Ci * (Ci * q)) + Ci * (Ci * r)); [|ring].
      rewrite !Ci_square. ring. }
  rewrite !C2_double. field.
  split; [exact H | now apply double_nonzero].
Qed.

Lemma entry_10 (p q r t : C) :
  p + t <> C0 ->
  C0 + C0 * (p + t) / (C2 * (p + t)) + C1 * (q + r) / (C2 * (p + t))
  + Ci * (Ci * q + - (Ci * r)) / (C2 * (p + t))
  + C0 * (p + - t) / (C2 * (p + t))
  = r / (C0 + p + t).
Proof.
  intros H.
  replace (Ci * (Ci * q + - (Ci * r))) with (r - q).
  2:{ transitivity (Ci * (Ci * q) + - (Ci * (Ci * r))); [|ring].
      rewrite !Ci_square. ring. }
  rewrite !C2_double. field.
  split; [exact H | now apply double_nonzero].
Qed.

Lemma overlap_form :
  logical_overlap = form logical_0 logical_0 + form logical_1 logical_1.
Proof. unfold logical_overlap. now rewrite !dotv_vecmat. Qed.

Lemma Ceqb_false (z w : C) : z <> w -> Ceqb z w = false.
Proof.
  intros H. destruct (Ceqb z w) eqn:E; [|done].
  apply Ceqb_eq in E. contradiction.
Qed.

(** C10.  Whenever the overlap [P_L] of [rho] with the code space is not
    zero, the 2 x 2 array that [project_dm_to_logical_subspace_V3] builds
    from the expectation values of the logical Pauli operators is the array
    of matrix elements [<L_i|rho|L_j> / P_L] that
    [project_dm_to_logical_subspace_V1] builds, for every 32 x 32 array
    [rho]. *)
Theorem project_dm_V3_equals_V1 :
  logical_overlap <> C0 ->
  project_dm_to_logical_subspace_V3 logical_0 logical_1 rho
  = project_dm_to_logical_subspace_V1 logical_0 logical_1 rho /\
  exists rho_L,
    project_dm_to_logical_subspace_V1 logical_0 logical_1 rho = Some rho_L.
Proof.
  intros HP. rewrite overlap_form in HP.
  unfold project_dm_to_logical_subspace_V3, project_dm_to_logical_subspace_V1.
  unfold pauli_matrices.
  cbn [zip zip_with fold_left fst snd fmap list_fmap]. fold I_L.
  rewrite !dotv_vecmat, trace_code_space, !trace_logical_pauli.
  rewrite (form_ext logical_0 _ logical_1 X_logical_0).
  rewrite (form_ext logical_1 (matvec (to_matrix XXXXX) logical_1) logical_0
             X_logical_1).
  rewrite (form_ext logical_0 _ (fun b => Ci * logical_1 b) Y_logical_0).
  rewrite (form_ext logical_1 _ (fun b => - (Ci * logical_0 b)) Y_logical_1).
  rewrite (form_ext logical_0 (matvec (to_matrix ZZZZZ) logical_0) logical_0
             Z_logical_0).
  rewrite (form_ext logical_1 _ (fun b => - logical_1 b) Z_logical_1).
  rewrite !form_opp, !form_scale.
  set (p := form logical_0 logical_0) in *.
  set (t := form logical_1 logical_1) in *.
  set (q := form logical_0 logical_1).
  set (r := form logical_1 logical_0).
  rewrite (Ceqb_false (p + t) C0 HP).
  rewrite (Ceqb_false (C0 + p + t) C0)
    by (intros E; apply HP; rewrite <- E; ring).
  split; [|eauto].
  unfold accumulate. cbn [zip_with fmap list_fmap].
  f_equal.
  apply (f_equal2 cons); [|apply (f_equal2 cons); [|done]];
    (apply (f_equal2 cons); [|apply (f_equal2 cons); [|done]]).
  - now apply entry_00.
  - now apply entry_01.
  - now apply entry_10.
  - now apply entry_11.
Qed.

End Equivalence.

(** *** The code words of the five-qubit code *)

(** A state vector with amplitudes [sign/4]. *)
Definition quarter_amplitudes (signs : list Z) : vec :=
  fun a => mkC (Q2Qc (nth a signs 0%Z # 4)) 0.

(** The logical zero of the [[5,1,3]] code: the sixteen even-weight basis
    states with their signs. *)
Definition code_word_0 : vec :=
  quarter_amplitudes
    [1; 0; 0; -1; 0; 1; -1; 0; 0; 1; 1; 0; -1; 0; 0; -1;
     0; -1; 1; 0; 1; 0; 0; -1; -1; 0; 0; -1; 0; -1; -1; 0]%Z.

(** The logical one: the bitwise complement of every basis state. *)
Definition code_word_1 : vec :=
  quarter_amplitudes
    [0; -1; -1; 0; -1; 0; 0; -1; -1; 0; 0; 1; 0; 1; -1; 0;
     -1; 0; 0; -1; 0; 1; 1; 0; 0; -1; 1; 0; -1; 0; 0; 1]%Z.

(** A 32 x 32 array with a complex off-diagonal entry. *)
Definition sample_rho : mat :=
  fun a b =>
    if Nat.eqb a b then C1
    else if (Nat.eqb a 0 && Nat.eqb b 5)%bool then Ci
    else C0.

Lemma project_dm_V3_equals_V1_witness :
  project_dm_to_logical_subspace_V3 code_word_0 code_word_1 sample_rho
  = project_dm_to_logical_subspace_V1 code_word_0 code_word_1 sample_rho /\
  exists rho_L,
    project_dm_to_logical_subspace_V1 code_word_0 code_word_1 sample_rho
    = Some rho_L.
Proof.
  apply (project_dm_V3_equals_V1 code_word_0 code_word_1).
  - apply vec_eqb_cells. vm_compute. reflexivity.
  - apply vec_eqb_cells. vm_compute. reflexivity.
  - apply vec_eqb_cells. vm_compute. reflexivity.
  - apply (vec_eqb_cells _ (fun a => - code_word_1 a)). vm_compute. reflexivity.
  - intros E. apply Ceqb_eq in E. vm_compute in E. discriminate.
Defined.

End LogicalSubspace.

(** ** Further properties of [_get_array_indexes] *)

Module ArrayIndexEdges.

Import ArrayIndexes.

Local Open Scope Z_scope.

(** The loop does nothing where no entry reaches its dimension. *)
Lemma carry_loop_idle (sweep_lengths indexes : list Z) (positions : list nat) :
  (forall i, i ∈ positions ->
     exists v l, indexes !! S i = Some v /\ sweep_lengths !! S i = Some l /\
                 v < l) ->
  carry_loop sweep_lengths positions indexes = Some indexes.
Proof.
  induction positions as [|i rest IH]; intros H; [done|].
  cbn [carry_loop].
  destruct (H i ltac:(left)) as (v & l & Hv & Hl & Hlt).
  unfold carry. rewrite Hv, Hl. cbn [mbind option_bind].
  destruct (Z.leb_spec l v); [lia|]. cbn [mbind option_bind].
  apply IH. intros j Hj. apply H. now right.
Qed.

(** The function does not validate its index: a non-negative index at or
    beyond the product of the dimensions is still decomposed, the first
    component taking the excess -- it is then at least [sweep_lengths[0]],
    where NumPy's [unravel_index] raises -- and the weighted sum of the
    components is still the index. *)
Theorem get_array_indexes_does_not_check_range
  (index l0 : Z) (ls : list Z) :
  Forall (fun x => 0 < x) (l0 :: ls) ->
  0 <= index <= int64_max ->
  _get_array_indexes index (l0 :: ls)
  = Some (index / product ls :: unravel_index index ls) /\
  ravel (l0 :: ls) (index / product ls :: unravel_index index ls) = index /\
  (product (l0 :: ls) <= index -> l0 <= index / product ls).
Proof.
  intros Hpos Hidx. inversion Hpos as [|? ? Hl0 Hls]; subst.
  pose proof (product_pos ls Hls) as HP.
  split; [|split].
  - unfold _get_array_indexes. cbn [length].
    unfold store64_last, np_zeros_int. rewrite length_replicate.
    rewrite replicate_S_end.
    rewrite <- (length_replicate (length ls) 0) at 2.
    assert (Hmin : int64_min < 0) by (unfold int64_min; lia).
    rewrite store64_app by lia. cbn [mbind option_bind].
    replace (S (length ls) - 1)%nat with (length ls) by lia.
    pose proof (carry_loop_digits (l0 :: ls) index (length ls)
                  ltac:(simpl; lia) Hpos Hidx) as Hloop.
    replace (drop (S (length ls)) (l0 :: ls)) with (@nil Z) in Hloop
      by (simpl; now rewrite drop_all).
    cbn [product foldr unravel_index drop] in Hloop.
    rewrite Z.div_1_r in Hloop. exact Hloop.
  - cbn [ravel]. rewrite ravel_unravel_index by done.
    rewrite Z.mod_eq by lia. lia.
  - intros Hbig. cbn [product foldr] in Hbig. fold (product ls) in Hbig.
    apply Z.div_le_lower_bound; lia.
Qed.

Lemma get_array_indexes_does_not_check_range_witness :
  _get_array_indexes 30 [2; 3; 4]
  = Some (30 / product [3; 4] :: unravel_index 30 [3; 4]) /\
  ravel [2; 3; 4] (30 / product [3; 4] :: unravel_index 30 [3; 4]) = 30 /\
  (product [2; 3; 4] <= 30 -> 2 <= 30 / product [3; 4]).
Proof.
  apply (get_array_indexes_does_not_check_range 30 2 [3; 4]).
  - repeat constructor; lia.
  - unfold int64_max; lia.
Defined.

(** A negative index is returned untouched in the last position, all other
    components staying 0: the guard [indexes[i+1] >= sweep_lengths[i+1]]
    never fires. *)
Theorem get_array_indexes_negative_index (index : Z) (sweep_lengths : list Z) :
  sweep_lengths <> [] ->
  Forall (fun x => 0 < x) sweep_lengths ->
  int64_min <= index < 0 ->
  _get_array_indexes index sweep_lengths
  = Some (replicate (length sweep_lengths - 1) 0 ++ [index]).
Proof.
  intros Hne Hpos Hidx. unfold _get_array_indexes.
  destruct sweep_lengths as [|l0 ls]; [done|]. clear Hne.
  cbn [length]. unfold store64_last, np_zeros_int.
  rewrite length_replicate, replicate_S_end.
  rewrite <- (length_replicate (length ls) 0) at 2.
  assert (Hmax : 0 < int64_max) by (unfold int64_max; lia).
  rewrite store64_app by lia. cbn [mbind option_bind].
  replace (S (length ls) - 1)%nat with (length ls) by lia.
  apply carry_loop_idle. intros i Hi.
  apply elem_of_reverse, elem_of_seq in Hi.
  destruct (lookup_lt_is_Some_2 (l0 :: ls) (S i) ltac:(simpl; lia))
    as [l Hl].
  assert (Hlpos : 0 < l) by (rewrite Forall_lookup in Hpos; eauto).
  destruct (decide (S i = length ls)) as [E | Hlt].
  - exists index, l. split; [|split; [done | lia]].
    rewrite E. now apply list_lookup_middle; rewrite length_replicate.
  - exists 0, l. split; [|done].
    rewrite lookup_app_l by (rewrite length_replicate; lia).
    apply lookup_replicate_2. lia.
Qed.

Lemma get_array_indexes_negative_index_witness :
  _get_array_indexes (-1) [2; 3; 4]
  = Some (replicate (length [2; 3; 4] - 1) 0 ++ [-1]).
Proof.
  apply (get_array_indexes_negative_index (-1) [2; 3; 4]).
  - discriminate.
  - repeat constructor; lia.
  - unfold int64_min; lia.
Defined.

End ArrayIndexEdges.

(** ** Further properties of the pipeline *)

Module PipelineEdges.

Import Py Pipeline Properties.

Section Lengths.

Context {L : SimLib}.

(** Peel the binds of a successful monadic run held in hypothesis [H]. *)
Ltac peel H :=
  repeat
    (let a := fresh "x" in
     let s := fresh "s" in
     let E := fresh "E" in
     apply bind_Some in H as (a & s & E & H);
     first [ apply lift_Some in E as [E ->]
           | apply ret_Some in E as [-> ->]
           | idtac ];
     try (lazymatch type of a with
          | (_ * _)%type => destruct a
          | unit => destruct a
          end);
     cbn beta iota in H; cbn [orb] in H).

Lemma mapM_length {A B} (f : A -> option B) (l : list A) (k : list B) :
  mapM f l = Some k -> length k = length l.
Proof.
  intros H. apply mapM_Some in H. symmetry. exact (Forall2_length _ _ _ H).
Qed.

Lemma mapM_total {A B} (f : A -> option B) (g : A -> B) (l : list A) :
  (forall x, f x = Some (g x)) -> mapM f l = Some (g <$> l).
Proof.
  intros Hf. induction l as [|x l IH]; [done|].
  cbn [mapM]. rewrite Hf, IH. reflexivity.
Qed.

Lemma slice_1_m1_length {A} (l : list A) :
  length (slice_1_m1 l) = (length l - 2)%nat.
Proof.
  unfold slice_1_m1. destruct l as [|x l]; [done|]. cbn [tail].
  rewrite removelast_firstn_len, length_take. simpl. lia.
Qed.

(** The fidelity list of [fid_single_qubit] has one entry for the initial
    state and one for each of the snapshots [snap_1 .. snap_(len(time)-2)]. *)
Lemma fid_single_qubit_length a s fid time s' :
  (is_dm (fsq_snapshot_type a) || is_exp (fsq_snapshot_type a)) = true ->
  fid_single_qubit a s = Some ((fid, time), s') ->
  length fid = S (length time - 2).
Proof.
  intros Hst H. unfold fid_single_qubit in H. peel H.
  apply ret_Some in H as [[= -> ->] _]. cbn [length]. f_equal.
  match goal with
  | E : (if is_dm _ then _ else _) = Some _ |- _ => rename E into Hl
  end.
  destruct (is_dm (fsq_snapshot_type a)).
  - destruct (data_dm _ "start"); [|discriminate]. cbn [mbind option_bind] in Hl.
    apply mapM_length in Hl. rewrite Hl, range_length. lia.
  - cbn [orb] in Hst. rewrite Hst in Hl.
    apply mapM_length in Hl. rewrite Hl, range_length. lia.
Qed.

(** The duration of one stabilizer cycle as [perfect_stab_circuit] counts
    it. *)
Definition cycle_time (g : GateTimes) : option Q :=
  two_qubit_gate_time ← gate_time g "cz";
  single_qubit_gate_time ← gate_time g "x";
  measure_time ← gate_time g "measure";
  feedback_time ← gate_time g "feedback";
  Some (8 * single_qubit_gate_time + 16 * two_qubit_gate_time
        + 4 * measure_time + feedback_time)%Q.

(** What [perfect_stab_circuit] returns: the time dictionary has the
    [n_cycles+1] keys [snapshot_type_k] at the multiples [k * cycle_time],
    and for a density-matrix or expectation-value snapshot type there are
    as many fidelities as times. *)
Lemma perfect_stab_circuit_returns a g s fid time s' :
  psc_gate_times a = GT_obj g ->
  (0 <= psc_n_cycles a)%Z ->
  perfect_stab_circuit a s = Some ((fid, time), s') ->
  exists st ct,
    psc_snapshot_type a = PyStr st /\
    cycle_time g = Some ct /\
    time = (fun i => (st +:+ "_" +:+ str i, (inject_Z i * ct)%Q))
           <$> range (psc_n_cycles a + 1) /\
    ((is_dm (psc_snapshot_type a) || is_exp (psc_snapshot_type a)) = true ->
     length fid = length time).
Proof.
  intros Hg Hn H. unfold perfect_stab_circuit in H. rewrite Hg in H.
  cbn [resolve_gate_times] in H. peel H.
  apply ret_Some in H as [[= -> ->] _].
  unfold cycle_time.
  repeat match goal with
         | E : gate_time g _ = Some _ |- _ => rewrite E; clear E
         end.
  cbn [mbind option_bind].
  destruct (psc_snapshot_type a) as [| | | |st|] eqn:Est;
    try (exfalso;
         match goal with
         | E : mapM _ (range _) = Some _ |- _ =>
             unfold range in E;
             replace (Z.to_nat (psc_n_cycles a + 1))
               with (S (Z.to_nat (psc_n_cycles a))) in E by lia;
             discriminate E
         end).
  eexists st, _. split; [done|]. split; [reflexivity|].
  match goal with
  | E : mapM _ (range _) = Some _ |- _ =>
      rewrite (mapM_total _ (fun i => (st +:+ "_" +:+ str i,
                                       (inject_Z i * _)%Q))) in E
        by done;
      injection E as <-
  end.
  split; [reflexivity|]. intros Hst. rewrite length_fmap.
  match goal with
  | E : (if is_dm _ then _ else _) = Some _ |- _ => rename E into Hl
  end.
  destruct (is_dm (PyStr st)).
  - destruct (data_dm _ "dm_0"); [|discriminate].
    cbn [mbind option_bind] in Hl. now apply mapM_length in Hl.
  - cbn [orb] in Hst. rewrite Hst in Hl. now apply mapM_length in Hl.
Qed.

Lemma tail_length {A} (l : list A) : length (tail l) = (length l - 1)%nat.
Proof. destruct l; simpl; lia. Qed.

(** The data of the fit at lines 468-471: [list(time.values())[1:-1]]
    against [fid[1:]]. *)
Definition fit_xdata (time : timedict) : list Q := slice_1_m1 (snd <$> time).

Definition fit_ydata (fid : list Q) : list Q := tail fid.

(** A pass over a combination that is not skipped ran the simulation and
    then logged the fit of its data. *)
Lemma body_processed a st p0 p1 p2 p3 p4 p5 s st' s' :
  body a st [p0; p1; p2; p3; p4; p5] s = Some (st', s') ->
  skips p0 p1 = false ->
  exists gate_times fid time s1,
    GateTimes_new p2 p3 [("u1", 0%Q); ("z", 0%Q);
                         ("measure", p4); ("feedback", p5)]
    = Some gate_times /\
    simulate a (sweep_angles a).1 (sweep_angles a).2 p0 p1 gate_times s
    = Some ((fid, time), s1) /\
    st_log s' = st_log s1 ++ [EvCurveFit (fit_xdata time) (fit_ydata fid)
                                         [p0; 0%Q; float_0_9]].
Proof.
  intros H Hskip. unfold body, sweep_body in H.
  apply bind_Some in H as (gt & s1 & Hgt & H).
  apply lift_Some in Hgt as [Hgt ->]. rewrite Hskip in H.
  apply bind_Some in H as ([fid time] & s2 & Hsim & H).
  apply bind_Some in H as ([pars cov] & s3 & Hfit & H).
  apply do_curve_fit_Some in Hfit as [Hfit ->].
  destruct pars as [|T [|c [|A [|]]]];
    try (apply lift_Some in H as [? _]; discriminate).
  peel H. apply ret_Some in H as [_ ->].
  exists gt, fid, time, s2. done.
Qed.

(** With [perfect_stab=True] (and [single_qubit=False]) the fit of every
    processed combination is handed [n_cycles - 1] times but [n_cycles]
    fidelities: [perfect_stab_circuit] returns [n_cycles + 1] of each, and
    the sweep drops the first and the last time but only the first
    fidelity. *)
Theorem sweep_perfect_stab_fit_data_lengths a st p0 p1 p2 p3 p4 p5 s st' s' :
  sw_single_qubit a = false ->
  sw_perfect_stab a = true ->
  (0 <= sw_n_cycles a)%Z ->
  skips p0 p1 = false ->
  body a st [p0; p1; p2; p3; p4; p5] s = Some (st', s') ->
  exists xdata ydata,
    last (st_log s') = Some (EvCurveFit xdata ydata [p0; 0%Q; float_0_9]) /\
    length ydata = Z.to_nat (sw_n_cycles a) /\
    length xdata = (Z.to_nat (sw_n_cycles a) - 1)%nat.
Proof.
  intros Hsq Hps Hn Hskip H.
  apply body_processed in H as (gt & fid & time & s1 & _ & Hsim & Hlog);
    [|done].
  exists (fit_xdata time), (fit_ydata fid). rewrite Hlog, last_snoc.
  split; [done|].
  unfold simulate in Hsim. rewrite Hsq, Hps in Hsim.
  apply (perfect_stab_circuit_returns _ gt) in Hsim
    as (snap & ct & _ & _ & Htime & Hfid); [| done | done].
  specialize (Hfid eq_refl).
  assert (Hlt : length time = S (Z.to_nat (sw_n_cycles a))).
  { rewrite Htime, length_fmap, range_length.
    cbn [perfect_stab_call psc_n_cycles]. lia. }
  unfold fit_xdata, fit_ydata.
  rewrite slice_1_m1_length, length_fmap, tail_length, Hfid, Hlt. lia.
Qed.

(** With [single_qubit=True] and a density-matrix or expectation-value
    snapshot type, the times and the fidelities handed to the fit have the
    same length, [len(time) - 2], also after the rescaling [2*fid - 1]. *)
Theorem sweep_single_qubit_fit_data_lengths a st p0 p1 p2 p3 p4 p5 s st' s' :
  sw_single_qubit a = true ->
  (is_dm (kw_param (sw_kwargs a) "snapshot_type" (PyStr "dm"))
   || is_exp (kw_param (sw_kwargs a) "snapshot_type" (PyStr "dm"))) = true ->
  skips p0 p1 = false ->
  body a st [p0; p1; p2; p3; p4; p5] s = Some (st', s') ->
  exists xdata ydata,
    last (st_log s') = Some (EvCurveFit xdata ydata [p0; 0%Q; float_0_9]) /\
    length xdata = length ydata.
Proof.
  intros Hsq Hst Hskip H.
  apply body_processed in H as (gt & fid & time & s1 & _ & Hsim & Hlog);
    [|done].
  exists (fit_xdata time), (fit_ydata fid). rewrite Hlog, last_snoc.
  split; [done|].
  unfold simulate in Hsim. rewrite Hsq in Hsim.
  apply bind_Some in Hsim as (args & s2 & Hargs & Hsim).
  apply lift_Some in Hargs as [Hargs ->].
  apply bind_Some in Hsim as ([fid0 time0] & s3 & Hrun & Hsim).
  assert (Hty : fsq_snapshot_type args
                = kw_param (sw_kwargs a) "snapshot_type" (PyStr "dm")).
  { unfold bind_fid_single_qubit in Hargs.
    destruct (kw_free _ _); [|discriminate]. now injection Hargs as <-. }
  apply fid_single_qubit_length in Hrun; [|now rewrite Hty].
  assert (Hout : length fid = length fid0 /\ time = time0).
  { destruct (_ && _); apply ret_Some in Hsim as [[= -> ->] _];
      [now rewrite length_fmap | done]. }
  destruct Hout as [Hlen ->].
  unfold fit_xdata, fit_ydata.
  rewrite slice_1_m1_length, length_fmap, tail_length, Hlen, Hrun. lia.
Qed.

(** A [gate_times] keyword in [**kwargs] repeats the argument the sweep
    passes itself, so the call of [fid_single_qubit] or
    [fidelity_from_scratch] raises: a pass of the loop then returns only
    for a combination that is skipped.  ([perfect_stab_circuit] is not
    given the keywords.) *)
Theorem sweep_gate_times_keyword_raises a st params s st' s' :
  is_Some (sw_kwargs a !! "gate_times") ->
  sw_single_qubit a || negb (sw_perfect_stab a) = true ->
  body a st params s = Some (st', s') ->
  skipped params = true.
Proof.
  intros [v Hv] Hbranch H.
  destruct (skipped params) eqn:Hskip; [done | exfalso].
  pose proof H as H'. unfold body, sweep_body in H'.
  destruct params as [|p0 [|p1 [|p2 [|p3 [|p4 [|p5 [|]]]]]]];
    try (apply lift_Some in H' as [? _]; discriminate).
  clear H'. cbn [skipped] in Hskip.
  apply body_processed in H as (gt & fid & time & s1 & _ & Hsim & _);
    [|done].
  assert (Hfree : kw_free (sw_kwargs a)
                    ["n_cycles"; "n_shots"; "T1"; "T2"; "gate_times"]
                  = false).
  { unfold kw_free. cbn [forallb]. rewrite Hv.
    now rewrite !andb_false_r. }
  unfold simulate in Hsim.
  destruct (sw_single_qubit a); [|destruct (sw_perfect_stab a); [done|]];
    unfold bind_fid_single_qubit, bind_fidelity_from_scratch in Hsim;
    rewrite Hfree in Hsim; discriminate.
Qed.

End Lengths.

(** *** What a computation never logs *)

Section Avoids.

Context {L : SimLib}.

(** [m], when it returns, has appended only events outside [p]. *)
Definition avoids {A} (p : event -> bool) (m : M A) : Prop :=
  forall s a s', m s = Some (a, s') ->
    exists tr, st_log s' = st_log s ++ tr /\ forallb (fun e => negb (p e)) tr = true.

Lemma avoids_ret {A} p (a : A) : avoids p (mret a).
Proof.
  intros s a' s' H. apply ret_Some in H as [_ ->]. exists [].
  now rewrite app_nil_r.
Qed.

Lemma avoids_lift {A} p (o : option A) : avoids p (lift o).
Proof.
  intros s a s' H. apply lift_Some in H as [_ ->]. exists [].
  now rewrite app_nil_r.
Qed.

Lemma avoids_liftW {A} p (f : world -> option (A * world)) :
  avoids p (liftW f).
Proof.
  intros s a s' H. apply liftW_Some in H as (w & _ & ->). exists [].
  simpl. now rewrite app_nil_r.
Qed.

Lemma avoids_emit p e : p e = false -> avoids p (emit e).
Proof.
  intros Hp s a s' H. injection H as _ <-. exists [e]. simpl.
  now rewrite Hp.
Qed.

Lemma avoids_bind {A B} p (m : M A) (k : A -> M B) :
  avoids p m -> (forall a, avoids p (k a)) -> avoids p (m ≫= k).
Proof.
  intros Hm Hk s b s' H. apply bind_Some in H as (a & s1 & H1 & H2).
  destruct (Hm _ _ _ H1) as (tr1 & E1 & F1).
  destruct (Hk _ _ _ _ H2) as (tr2 & E2 & F2).
  exists (tr1 ++ tr2). rewrite E2, E1, app_assoc, forallb_app, F1, F2. done.
Qed.

Lemma avoids_try_except {A} p (body handler : M A) :
  avoids p body -> avoids p handler -> avoids p (try_except body handler).
Proof.
  intros Hb Hh s a s' H. unfold try_except in H.
  destruct (body s) as [r|] eqn:E.
  - injection H as ->. eauto.
  - eauto.
Qed.

Lemma avoids_for_each {A S} p (f : S -> A -> M S) (l : list A) :
  (forall st x, avoids p (f st x)) -> forall st, avoids p (for_each f l st).
Proof.
  intros Hf. induction l as [|x l IH]; intros st; cbn [for_each].
  - apply avoids_ret.
  - apply avoids_bind; [apply Hf | exact IH].
Qed.

End Avoids.

Ltac avoids_head :=
  match goal with
  | |- avoids _ (match ?x with _ => _ end) => destruct x
  | |- avoids _ (if ?b then _ else _) => destruct b
  | |- avoids _ (let '(_, _) := ?x in _) => destruct x
  end.

Ltac solve_avoids :=
  repeat first
    [ apply avoids_ret
    | apply avoids_lift
    | apply avoids_liftW
    | apply avoids_emit; reflexivity
    | apply avoids_bind; [| intros]
    | apply avoids_try_except
    | avoids_head ].

Definition is_save (e : event) : bool :=
  match e with EvSave _ => true | _ => false end.

Definition is_set_option (e : event) : bool :=
  match e with EvSetOption _ _ => true | _ => false end.

Definition is_print (e : event) : bool :=
  match e with EvPrint _ => true | _ => false end.

Section Saving.

Context {L : SimLib}.

Lemma fidelity_from_scratch_never_saves a :
  avoids is_save (fidelity_from_scratch a).
Proof.
  unfold fidelity_from_scratch, run_simulation, do_execute, do_set_option,
    resolve_gate_times.
  solve_avoids.
Qed.

Lemma fid_single_qubit_never_saves a : avoids is_save (fid_single_qubit a).
Proof.
  unfold fid_single_qubit, do_execute, resolve_gate_times. solve_avoids.
Qed.

Lemma perfect_stab_circuit_never_saves a :
  avoids is_save (perfect_stab_circuit a).
Proof.
  unfold perfect_stab_circuit, do_execute, resolve_gate_times. solve_avoids.
Qed.

Lemma sweep_body_never_saves a sl theta phi st params :
  avoids is_save (sweep_body a sl theta phi st params).
Proof.
  unfold sweep_body, simulate, do_curve_fit.
  repeat first
    [ apply fidelity_from_scratch_never_saves
    | apply fid_single_qubit_never_saves
    | apply perfect_stab_circuit_never_saves
    | apply avoids_ret
    | apply avoids_lift
    | apply avoids_emit; reflexivity
    | apply avoids_bind; [| intros]
    | avoids_head ].
Qed.

(** What the end of the sweep writes. *)
Definition sweep_saves (a : sweep_args) : list event :=
  match sw_save a with
  | Some path => [EvSave path; EvSave (path +:+ "_var")]
  | None => []
  end.

Lemma do_save_Some path arr s u s' :
  do_save path arr s = Some (u, s') ->
  st_log s' = st_log s ++ [EvSave path].
Proof.
  unfold do_save. intros H.
  apply bind_Some in H as ([] & s1 & E & H).
  apply liftW_Some in E as (w & _ & ->). now injection H as _ <-.
Qed.

(** A returning sweep saves nothing while it loops; when [save] is given
    it writes the two files [save] and [save + '_var'], in this order, as
    the last thing it does, and when [save] is [None] it writes no file. *)
Theorem sweep_saves_after_the_loop a s ea va s' :
  sweep_parameter_space a s = Some ((ea, va), s') ->
  exists tr,
    st_log s' = st_log s ++ tr ++ sweep_saves a /\
    forallb (fun e => negb (is_save e)) tr = true.
Proof.
  unfold sweep_parameter_space. intros H.
  apply bind_Some in H as (st0 & s0 & H0 & H).
  apply lift_Some in H0 as [_ ->].
  apply bind_Some in H as (st & s1 & Hloop & H).
  apply bind_Some in H as ([] & s2 & Hsave & H).
  apply ret_Some in H as [_ ->].
  destruct (avoids_for_each is_save _ _
              (sweep_body_never_saves a _ _ _) _ _ _ _ Hloop)
    as (tr & Hlog & Hnone).
  exists tr. split; [|done]. unfold sweep_saves.
  destruct (sw_save a) as [path|].
  - apply bind_Some in Hsave as ([] & s3 & Hs1 & Hs2).
    apply do_save_Some in Hs1. apply do_save_Some in Hs2.
    rewrite Hs2, Hs1, Hlog. now rewrite <- !app_assoc.
  - apply ret_Some in Hsave as [_ ->]. now rewrite Hlog, app_nil_r.
Qed.

End Saving.

(** *** The arrays a sweep returns *)

Section Arrays.

Context {L : SimLib}.

(** An array of the sweep's shape with one cell per combination. *)
Definition sweep_array (a : sweep_args) (arr : ndarray) : Prop :=
  nd_shape arr = sweep_lengths a /\
  length (nd_data arr) = length (itertools_product (noise_parameters a)).

Lemma sweep_lengths_nonneg a :
  Forall (fun l => (0 <= l)%Z) (sweep_lengths a).
Proof.
  unfold sweep_lengths. apply Forall_fmap, Forall_true. intros; simpl; lia.
Qed.

Lemma sweep_size a :
  Z.of_nat (length (itertools_product (noise_parameters a)))
  = product (sweep_lengths a).
Proof. exact (itertools_product_length (noise_parameters a)). Qed.

Lemma loop_sizes a l : forall st s st' s',
  Forall (fun x => (0 < x)%Z) (sweep_lengths a) ->
  (product (sweep_lengths a) <= int64_max)%Z ->
  shaped a st ->
  (0 <= ls_index st)%Z ->
  (ls_index st + Z.of_nat (length l) <= product (sweep_lengths a))%Z ->
  sweep_loop a l st s = Some (st', s') ->
  shaped a st' /\
  length (nd_data (ls_error_array st')) = length (nd_data (ls_error_array st)) /\
  length (nd_data (ls_var_array st')) = length (nd_data (ls_var_array st)).
Proof.
  intros st s st' s' Hpos Hsize. revert st s.
  induction l as [|p l IH]; intros st s Hsh H0 Hlen H.
  - now apply ret_Some in H as [-> ->].
  - apply loop_cons in H as (st1 & s1 & Hb & H). simpl length in Hlen.
    apply body_spec in Hb; [| done | done | lia | lia].
    assert (Hst1 : shaped a st1 /\ ls_index st1 = (ls_index st + 1)%Z /\
                   length (nd_data (ls_error_array st1))
                   = length (nd_data (ls_error_array st)) /\
                   length (nd_data (ls_var_array st1))
                   = length (nd_data (ls_var_array st))).
    { destruct Hb as [(_ & -> & _) | (_ & T & cov00 & _ & _ & _ & ->)];
        (split; [exact Hsh|]); (split; [done|]); simpl; [done|].
      now rewrite !length_insert. }
    destruct Hst1 as (Hsh1 & Hi1 & Hl1 & Hl2).
    destruct (IH st1 s1 Hsh1 ltac:(lia) ltac:(lia) H) as (Hsh' & Hl1' & Hl2').
    split; [done|]. now rewrite Hl1', Hl2'.
Qed.

(** Both arrays a sweep returns have the shape
    [(len(T1), len(T2), ..., len(feedback_time))] of the six parameter
    lists (a scalar counting as a list of one) and one cell for each
    combination of [itertools.product]. *)
Theorem sweep_returns_arrays_of_the_sweep_shape a s ea va s' :
  sweep_parameter_space a s = Some ((ea, va), s') ->
  sweep_array a ea /\ sweep_array a va.
Proof.
  intros Hrun.
  apply sweep_run in Hrun
    as (st0 & st & s1 & saves & Hinit & Hloop & -> & -> & _).
  apply sweep_initial_Some in Hinit as (Hsh & Hi0 & Hd1 & Hd2 & Hsize).
  pose proof (sweep_size a) as Hlen.
  pose proof (product_nonneg _ (sweep_lengths_nonneg a)) as Hnn.
  assert (Hl0 : forall n : nat, Z.of_nat n = product (sweep_lengths a) ->
                  length (replicate (Z.to_nat (product (sweep_lengths a))) 0%Q)
                  = n).
  { intros n Hn. rewrite length_replicate. lia. }
  unfold sweep_array.
  destruct (decide (Forall (fun x => (0 < x)%Z) (sweep_lengths a)))
    as [Hpos | Hnot].
  - apply loop_sizes in Hloop as ([Hs1 Hs2] & Hl1 & Hl2);
      [| done | done | done | lia | lia].
    rewrite Hl1, Hl2, Hd1, Hd2. rewrite (Hl0 _ Hlen). done.
  - rewrite (product_zero_of_nonpositive _ (sweep_lengths_nonneg a) Hnot)
      in Hlen.
    destruct (itertools_product (noise_parameters a)) eqn:Eprod;
      [|simpl in Hlen; lia].
    apply ret_Some in Hloop as [<- _]. destruct Hsh as [Hs1 Hs2].
    rewrite Hd1, Hd2.
    rewrite (product_zero_of_nonpositive _ (sweep_lengths_nonneg a) Hnot).
    done.
Qed.

Lemma itertools_product_empty {A} (lists : list (list A)) :
  [] ∈ lists -> itertools_product lists = [].
Proof.
  induction lists as [|l ls IH]; intros Hin; [by apply elem_of_nil in Hin|].
  apply elem_of_cons in Hin as [<- | Hin]; [done|].
  cbn [itertools_product]. rewrite IH by done.
  induction l as [|x l IHl]; [done|]. now rewrite bind_cons, IHl.
Qed.

(** When one of the six parameters is the empty list there is no
    combination: with [save=None] the sweep returns two arrays without a
    single cell and calls nothing -- the world and the log are as they
    were. *)
Theorem sweep_of_an_empty_list_does_nothing a s :
  [] ∈ noise_parameters a ->
  sw_save a = None ->
  sweep_parameter_space a s
  = Some (({| nd_shape := sweep_lengths a; nd_data := [] |},
           {| nd_shape := sweep_lengths a; nd_data := [] |}), s).
Proof.
  intros Hin Hsave.
  pose proof (itertools_product_empty _ Hin) as Hprod.
  pose proof (sweep_size a) as Hlen. rewrite Hprod in Hlen.
  cbn [length] in Hlen.
  unfold sweep_parameter_space, sweep_initial, np_zeros.
  rewrite decide_True
    by (split; [apply sweep_lengths_nonneg
               | rewrite <- Hlen; unfold int64_max; lia]).
  rewrite Hprod, Hsave, <- Hlen. destruct s. reflexivity.
Qed.

End Arrays.

(** *** The modes of [fidelity_from_scratch] *)

Section Modes.

Context {L : SimLib}.

Ltac peel H :=
  repeat
    (let a := fresh "x" in
     let s := fresh "s" in
     let E := fresh "E" in
     apply bind_Some in H as (a & s & E & H);
     first [ apply lift_Some in E as [E ->]
           | apply ret_Some in E as [-> ->]
           | idtac ];
     try (lazymatch type of a with
          | (_ * _)%type => destruct a
          | unit => destruct a
          end);
     cbn beta iota in H; cbn [orb] in H).

(** What resolving [gate_times] logs. *)
Definition gate_times_events (g : gate_times_arg) : list event :=
  match g with
  | GT_other _ => [gate_times_warning]
  | _ => []
  end.

Lemma resolve_gate_times_Some g s full s' :
  resolve_gate_times g s = Some (full, s') ->
  s' = logged s (gate_times_events g).
Proof.
  destruct g as [d | g | v]; cbn [resolve_gate_times gate_times_events].
  - intros H. apply lift_Some in H as [_ ->]. destruct s. unfold logged.
    simpl. now rewrite app_nil_r.
  - intros H. apply ret_Some in H as [_ ->]. destruct s. unfold logged.
    simpl. now rewrite app_nil_r.
  - intros H. apply bind_Some in H as ([] & s1 & E & H).
    injection E as <-. now apply ret_Some in H as [_ ->].
Qed.

Lemma transpile_step_log (c : circuit) (flag dp : pyval) s c' s' :
  (if py_truthy flag then
     liftW (shortest_transpile_from_distribution c (Some dp))
   else mret c) s = Some (c', s') ->
  st_log s' = st_log s.
Proof.
  destruct (py_truthy flag); intros H.
  - now apply liftW_Some in H as (w & _ & ->).
  - now apply ret_Some in H as [_ ->].
Qed.

(** The log of the statements "Run the circuit": the method is set and the
    circuit executed, with the message and the default method in between
    exactly when [set_option] rejects [simulator_type]. *)
Theorem run_simulation_log circ nm n_shots simulator_type s res s' :
  run_simulation circ nm n_shots simulator_type s = Some (res, s') ->
  exists simulator w1,
    get_backend "qasm_simulator" (st_world s) = Some (simulator, w1) /\
    st_log s'
    = st_log s ++
      match set_option simulator "method" simulator_type w1 with
      | Some _ => [EvSetOption "method" simulator_type; EvExecute n_shots]
      | None => simulator_fallback n_shots
      end.
Proof.
  intros H. unfold run_simulation in H.
  apply bind_Some in H as (simulator & s1 & E1 & H).
  apply liftW_Some in E1 as (w1 & E1 & ->).
  exists simulator, w1. split; [done|].
  apply bind_Some in H as ([] & s2 & E2 & H).
  apply bind_Some in H as (be & s4 & E4 & H).
  apply liftW_Some in E4 as (w3 & _ & ->).
  apply do_execute_Some in H as (w4 & _ & ->).
  unfold try_except in E2.
  destruct (set_option simulator "method" simulator_type w1) as [w2|] eqn:Eset.
  - destruct (do_set_option simulator "method" simulator_type _)
      as [[[] s3]|] eqn:Edo.
    + injection E2 as <-. apply do_set_option_Some in Edo as (w & _ & ->).
      simpl. now rewrite <- !app_assoc.
    + exfalso. unfold do_set_option, mbind, M_bind, liftW in Edo.
      simpl in Edo. now rewrite Eset in Edo.
  - rewrite do_set_option_None in E2 by done.
    apply bind_Some in E2 as ([] & s3 & E3 & E2).
    injection E3 as <-.
    apply do_set_option_Some in E2 as (w2 & _ & ->).
    simpl. now rewrite <- !app_assoc.
Qed.

(** In the ['empty_circuit'] mode the [idle_noise] flag plays no part, the
    call returns [(fidelities, time)], and it logs the execution alone
    (after the gate-times warning, if any): no simulator method is set and
    nothing is printed. *)
Theorem fidelity_from_scratch_empty_circuit_mode a s :
  py_eq_str (ffs_data_process_type a) "empty_circuit" = true ->
  (forall v,
     fidelity_from_scratch (ffs_with_idle_noise a v) s
     = fidelity_from_scratch a s) /\
  (forall r s',
     fidelity_from_scratch a s = Some (r, s') ->
     (exists fidelities time, r = FidTime fidelities time) /\
     st_log s' = st_log s ++ gate_times_events (ffs_gate_times a)
                 ++ [EvExecute (ffs_n_shots a)]).
Proof.
  intros Hmode. split.
  - intros v. unfold fidelity_from_scratch.
    cbn [ffs_with_idle_noise ffs_data_process_type ffs_n_cycles ffs_n_shots
         ffs_gate_times ffs_T1 ffs_T2 ffs_reset ffs_idle_noise ffs_transpile
         ffs_snapshot_type ffs_device ffs_device_properties ffs_encoding
         ffs_theta ffs_phi ffs_pauliop ffs_simulator_type ffs_kwargs].
    rewrite Hmode. reflexivity.
  - intros r s' H. unfold fidelity_from_scratch in H. rewrite Hmode in H.
    apply bind_Some in H as (fgt & s1 & E1 & H).
    apply resolve_gate_times_Some in E1 as ->.
    destruct (if py_eq_str (ffs_data_process_type a) "recovery"
              then (true, false)
              else if py_eq_str (ffs_data_process_type a) "post_select"
                   then (false, true) else (false, false))
      as [recovery conditional].
    peel H.
    match goal with
    | E : (if py_truthy (ffs_transpile a) then _ else _) _ = Some _ |- _ =>
        apply transpile_step_log in E as Htr
    end.
    match goal with
    | E : liftW (get_backend _) _ = Some _ |- _ =>
        apply liftW_Some in E as (w & _ & ->)
    end.
    match goal with
    | E : do_execute _ _ _ _ _ = Some _ |- _ =>
        apply do_execute_Some in E as (w' & _ & ->)
    end.
    apply ret_Some in H as [-> ->]. split; [eauto|].
    simpl. rewrite Htr. simpl. now rewrite <- app_assoc.
Qed.

(** The message of the last two branches. *)
Definition unmatched_message (data_process_type : pyval) : string :=
  if py_eq_str data_process_type "post_process" then
    "Warning: Post-process not implemented, exiting..."
  else "Warning: No matching data_process_type".

(** A [data_process_type] other than ['recovery'], ['none'],
    ['post_select'] and ['empty_circuit'] is noticed only at the end: the
    circuit is built and executed, then the message is printed and the
    empty list returned. *)
Theorem fidelity_from_scratch_unmatched_mode a s r s' :
  py_eq_str (ffs_data_process_type a) "recovery" = false ->
  py_eq_str (ffs_data_process_type a) "none" = false ->
  py_eq_str (ffs_data_process_type a) "post_select" = false ->
  py_eq_str (ffs_data_process_type a) "empty_circuit" = false ->
  fidelity_from_scratch a s = Some (r, s') ->
  r = EmptyList /\
  exists before,
    st_log s' = st_log s ++ before
                ++ [EvExecute (ffs_n_shots a);
                    EvPrint (unmatched_message (ffs_data_process_type a))].
Proof.
  intros Hrec Hnone Hps Hempty H. unfold fidelity_from_scratch in H.
  rewrite Hrec, Hnone, Hps, Hempty in H. cbn [orb] in H.
  apply bind_Some in H as (fgt & s1 & E1 & H).
  apply resolve_gate_times_Some in E1 as ->.
  peel H.
  match goal with
  | E : (if py_truthy (ffs_transpile a) then _ else _) _ = Some _ |- _ =>
      apply transpile_step_log in E as Htr
  end.
  match goal with
  | E : (if py_truthy (ffs_idle_noise a) then _ else _) _ = Some _ |- _ =>
      apply (emits_extends _ 0 0) in E as (tr2 & Htr2); [|solve_silent]
  end.
  match goal with
  | E : run_simulation _ _ _ _ _ = Some _ |- _ =>
      apply run_simulation_log in E as (simulator & w1 & _ & Hrun)
  end.
  assert (Hend : r = EmptyList /\
                 st_log s' = st_log s2
                   ++ [EvPrint (unmatched_message (ffs_data_process_type a))]).
  { unfold unmatched_message.
    destruct (py_eq_str (ffs_data_process_type a) "post_process");
      apply bind_Some in H as ([] & sy & Ey & H); injection Ey as <-;
      apply ret_Some in H as [-> ->]; done. }
  destruct Hend as [-> Hend]. split; [done|].
  rewrite Hend, Hrun, Htr2, Htr. cbn [logged st_log].
  destruct (set_option simulator "method" (ffs_simulator_type a) w1).
  - exists (gate_times_events (ffs_gate_times a) ++ tr2
            ++ [EvSetOption "method" (ffs_simulator_type a)]).
    rewrite <- !app_assoc. reflexivity.
  - exists (gate_times_events (ffs_gate_times a) ++ tr2
            ++ [EvPrint "Invalid simulator type, defaulting to density_matrix";
                EvSetOption "method" (PyStr "density_matrix")]).
    unfold simulator_fallback. rewrite <- !app_assoc. reflexivity.
Qed.



(** A [snapshot_type] that is neither a density-matrix nor an
    expectation-value name: in the ['post_select'] mode the call raises
    (the name [fidelities] was never bound), in the other modes that return
    a pair the list of fidelities is empty. *)
Theorem fidelity_from_scratch_unknown_snapshot_type a s :
  is_dm (ffs_snapshot_type a) = false ->
  is_exp (ffs_snapshot_type a) = false ->
  (py_eq_str (ffs_data_process_type a) "post_select" = true ->
   fidelity_from_scratch a s = None) /\
  (forall r s',
     py_eq_str (ffs_data_process_type a) "post_select" = false ->
     fidelity_from_scratch a s = Some (r, s') ->
     r = EmptyList \/ exists time, r = FidTime [] time).
Proof.
  intros Hdm Hexp. split.
  - intros Hps.
    destruct (fidelity_from_scratch a s) as [[r s']|] eqn:H; [exfalso | done].
    unfold fidelity_from_scratch in H.
    pose proof (py_eq_str_true _ _ Hps) as Hd. rewrite Hd, Hdm, Hexp in H.
    change (py_eq_str (PyStr "post_select") "recovery") with false in H.
    change (py_eq_str (PyStr "post_select") "post_select") with true in H.
    change (py_eq_str (PyStr "post_select") "empty_circuit") with false in H.
    change (py_eq_str (PyStr "post_select") "none") with false in H.
    cbn beta iota zeta in H. cbn [orb] in H. peel H. done.
  - intros r s' Hps H. unfold fidelity_from_scratch in H.
    rewrite Hps in H. unfold cycle_fidelities in H. rewrite Hdm, Hexp in H.
    destruct (if py_eq_str (ffs_data_process_type a) "recovery"
              then (true, false)
              else if py_eq_str (ffs_data_process_type a) "empty_circuit"
                   then (false, false) else (false, false))
      as [recovery conditional].
    destruct (py_eq_str (ffs_data_process_type a) "empty_circuit").
    + peel H. apply ret_Some in H as [-> _]. right.
      match goal with E : Some [] = Some _ |- _ => injection E as <- end.
      eauto.
    + destruct (py_eq_str (ffs_data_process_type a) "recovery"
                || py_eq_str (ffs_data_process_type a) "none").
      * peel H. apply ret_Some in H as [-> _]. right.
        match goal with E : Some [] = Some _ |- _ => injection E as <- end.
        eauto.
      * destruct (py_eq_str (ffs_data_process_type a) "post_process");
          peel H; apply ret_Some in H as [-> _]; now left.
Qed.

End Modes.

(** *** The circuit of [get_idle_single_qubit] *)

Section Idle.

Context {L : SimLib}.

(** The labels of the snapshots saved by a list of instructions, and the
    instructions appended to it, both in order. *)
Definition saved_labels (instrs : list (sq_instr instruction)) : list string :=
  instrs ≫= fun i =>
    match i with
    | SaveDensityMatrix label => [label]
    | SaveExpectationValue _ label => [label]
    | _ => []
    end.

Definition appended (instrs : list (sq_instr instruction))
  : list instruction :=
  instrs ≫= fun i => match i with Append e => [e] | _ => [] end.

(** The increments [time_diff] of the loop that are positive. *)
Fixpoint relaxation_times (snapshot_times : timedict) (time_passed : Q)
  : list Q :=
  match snapshot_times with
  | [] => []
  | (_, t) :: rest =>
      (if Qlt_le_dec 0 (t - time_passed) then [(t - time_passed)%Q] else [])
      ++ relaxation_times rest t
  end.

Lemma saved_labels_app l1 l2 :
  saved_labels (l1 ++ l2) = saved_labels l1 ++ saved_labels l2.
Proof. apply bind_app. Qed.

Lemma appended_app l1 l2 : appended (l1 ++ l2) = appended l1 ++ appended l2.
Proof. apply bind_app. Qed.

Lemma idle_snapshots_body snapshot_type pauliop T1 T2 snapshot_times :
  forall time_passed index body,
  idle_snapshots snapshot_type pauliop T1 T2 snapshot_times time_passed index
  = Some body ->
  ((is_dm snapshot_type || is_exp snapshot_type) = true ->
   saved_labels body
   = (fun k : nat => "snap_" +:+ str (index + Z.of_nat k))
     <$> seq 0 (length snapshot_times)) /\
  mapM (thermal_relaxation_error T1 T2)
       (relaxation_times snapshot_times time_passed)
  = Some (appended body).
Proof.
  induction snapshot_times as [|[key t] rest IH];
    intros time_passed index body H.
  - injection H as <-. done.
  - cbn [idle_snapshots] in H.
    destruct (idle_snapshots snapshot_type pauliop T1 T2 rest t (index + 1))
      as [later|] eqn:Hlater;
      [| destruct (Qlt_le_dec 0 (t - time_passed));
         [destruct (thermal_relaxation_error T1 T2 (t - time_passed))|];
         discriminate].
    destruct (IH _ _ _ Hlater) as [Hlab Happ].
    set (snap := if is_dm snapshot_type
                 then [SaveDensityMatrix ("snap_" +:+ str index)]
                 else if is_exp snapshot_type
                      then [SaveExpectationValue pauliop
                              ("snap_" +:+ str index)]
                      else []) in H.
    assert (Hs1 : (is_dm snapshot_type || is_exp snapshot_type) = true ->
                  saved_labels snap = ["snap_" +:+ str index]).
    { subst snap. destruct (is_dm snapshot_type); [done|].
      cbn [orb]. now intros ->. }
    assert (Hs2 : appended snap = []).
    { subst snap. now destruct (is_dm snapshot_type), (is_exp snapshot_type). }
    assert (Hrest : (fun k : nat => "snap_" +:+ str (index + 1 + Z.of_nat k))
                    <$> seq 0 (length rest)
                    = (fun k : nat => "snap_" +:+ str (index + Z.of_nat k))
                      <$> seq 1 (length rest)).
    { rewrite <- fmap_S_seq, <- list_fmap_compose. apply list_fmap_ext.
      intros _ k _. simpl. do 2 f_equal. lia. }
    cbn [relaxation_times length seq fmap list_fmap].
    destruct (Qlt_le_dec 0 (t - time_passed)).
    + destruct (thermal_relaxation_error T1 T2 (t - time_passed))
        as [thrm_relax|] eqn:Hrelax; [|discriminate].
      cbn [mbind option_bind] in H. injection H as <-.
      change (saved_labels (Append thrm_relax :: ?l)) with (saved_labels l).
      change (appended (Append thrm_relax :: ?l))
        with (thrm_relax :: appended l).
      rewrite !saved_labels_app, !appended_app, Hs2.
      split.
      * intros Hst. rewrite Hs1, Hlab, Hrest, Z.add_0_r by done. done.
      * cbn [app mapM]. rewrite Hrelax, Happ. reflexivity.
    + cbn [mbind option_bind] in H. injection H as <-.
      rewrite !saved_labels_app, !appended_app, Hs2.
      split.
      * intros Hst. rewrite Hs1, Hlab, Hrest, Z.add_0_r by done. done.
      * exact Happ.
Qed.

(** The circuit that [get_idle_single_qubit] builds for a density-matrix
    or expectation-value snapshot type: the rotations, the snapshot
    ['start'], then one snapshot per entry of [snapshot_times], labelled
    [snap_0, snap_1, ...] in the order of the dictionary, with a thermal
    relaxation before a snapshot exactly when its time exceeds that of the
    previous one. *)
Theorem get_idle_single_qubit_snapshots
  snapshot_times snapshot_type T1 T2 theta phi pauliop circ :
  (is_dm snapshot_type || is_exp snapshot_type) = true ->
  get_idle_single_qubit snapshot_times snapshot_type T1 T2 theta phi pauliop
  = Some circ ->
  exists body,
    single_qubit_circuit
      (Rx theta :: Rz phi :: SaveDensityMatrix "start" :: body) = Some circ /\
    saved_labels body
    = (fun i => "snap_" +:+ str i)
      <$> range (Z.of_nat (length snapshot_times)) /\
    mapM (thermal_relaxation_error T1 T2)
         (relaxation_times snapshot_times 0%Q)
    = Some (appended body).
Proof.
  intros Hst H. unfold get_idle_single_qubit in H.
  destruct (idle_snapshots snapshot_type pauliop T1 T2 snapshot_times 0%Q 0)
    as [body|] eqn:Hbody; [|discriminate].
  cbn [mbind option_bind] in H. exists body. split; [done|].
  destruct (idle_snapshots_body _ _ _ _ _ _ _ _ Hbody) as [Hlab Happ].
  split; [|done]. rewrite Hlab by done. unfold range.
  rewrite Nat2Z.id, <- list_fmap_compose. reflexivity.
Qed.

(** Snapshot times that never decrease. *)
Fixpoint nondecreasing (time_passed : Q) (snapshot_times : timedict) : Prop :=
  match snapshot_times with
  | [] => True
  | (_, t) :: rest => (time_passed <= t)%Q /\ nondecreasing t rest
  end.

(** The value of [time_passed] when the loop is over. *)
Definition last_time (time_passed : Q) (snapshot_times : timedict) : Q :=
  foldl (fun _ kt => kt.2) time_passed snapshot_times.

Definition total (l : list Q) : Q := foldr Qplus 0%Q l.

Lemma total_app l1 l2 : (total (l1 ++ l2) == total l1 + total l2)%Q.
Proof.
  induction l1 as [|x l1 IH]; simpl; [ring|]. rewrite IH. ring.
Qed.

Lemma relaxation_times_total snapshot_times :
  forall time_passed,
  nondecreasing time_passed snapshot_times ->
  Forall (fun d => (0 < d)%Q) (relaxation_times snapshot_times time_passed) /\
  (total (relaxation_times snapshot_times time_passed)
   == last_time time_passed snapshot_times - time_passed)%Q.
Proof.
  induction snapshot_times as [|[key t] rest IH]; intros time_passed Hnd.
  - split; [constructor|]. unfold last_time. simpl. ring.
  - destruct Hnd as [Hle Hnd]. destruct (IH t Hnd) as [Hpos Hsum].
    cbn [relaxation_times].
    change (last_time time_passed ((key, t) :: rest)) with (last_time t rest).
    split.
    + apply Forall_app. split; [|done].
      destruct (Qlt_le_dec 0 (t - time_passed)); repeat constructor; done.
    + rewrite total_app, Hsum.
      destruct (Qlt_le_dec 0 (t - time_passed)) as [Hlt | Hge];
        cbn [total foldr]; [ring|].
      assert (t - time_passed == 0)%Q by lra. lra.
Qed.

(** For snapshot times that start at 0 or later and never decrease, the
    thermal relaxations that [get_idle_single_qubit] appends are each of
    positive duration and together last exactly until the last snapshot:
    no idle time is lost or counted twice. *)
Theorem idle_relaxation_covers_the_circuit_time
  snapshot_times snapshot_type T1 T2 theta phi pauliop circ :
  nondecreasing 0%Q snapshot_times ->
  get_idle_single_qubit snapshot_times snapshot_type T1 T2 theta phi pauliop
  = Some circ ->
  exists body durations,
    single_qubit_circuit
      (Rx theta :: Rz phi :: SaveDensityMatrix "start" :: body) = Some circ /\
    Forall2 (fun d e => thermal_relaxation_error T1 T2 d = Some e)
            durations (appended body) /\
    Forall (fun d => (0 < d)%Q) durations /\
    (total durations == last_time 0%Q snapshot_times)%Q.
Proof.
  intros Hnd H. unfold get_idle_single_qubit in H.
  destruct (idle_snapshots snapshot_type pauliop T1 T2 snapshot_times 0%Q 0)
    as [body|] eqn:Hbody; [|discriminate].
  cbn [mbind option_bind] in H.
  exists body, (relaxation_times snapshot_times 0%Q). split; [done|].
  destruct (idle_snapshots_body _ _ _ _ _ _ _ _ Hbody) as [_ Happ].
  destruct (relaxation_times_total _ _ Hnd) as [Hpos Hsum].
  split; [now apply mapM_Some|]. split; [done|].
  rewrite Hsum. ring.
Qed.

End Idle.

(** *** The properties on concrete runs *)

Import Demo.

(** The interface [L] with another [curve_fit]. *)
Definition with_curve_fit (L : SimLib)
  (fit : (R -> R -> R -> R -> R) -> list Q -> list Q -> list Q ->
         option (list Q * list (list Q))) : SimLib :=
  {| world := @world L; circuit := @circuit L; registers := @registers L;
     qubit := @qubit L; instruction := @instruction L;
     noise_model := @noise_model L; backend := @backend L;
     results := @results L; state := @state L; GateTimes := @GateTimes L;
     WACQT_gate_times := @WACQT_gate_times L;
     GateTimes_new := @GateTimes_new L;
     get_gate_times := @get_gate_times L;
     gate_time := @gate_time L;
     WACQT_device_properties := @WACQT_device_properties L;
     thermal_relaxation_model_V2 := @thermal_relaxation_model_V2 L;
     thermal_relaxation_error := @thermal_relaxation_error L;
     stabilizer_registers := @stabilizer_registers L;
     get_full_stabilizer_circuit := @get_full_stabilizer_circuit L;
     get_empty_stabilizer_circuit := @get_empty_stabilizer_circuit L;
     get_encoded_state := @get_encoded_state L;
     set_density_matrix := @set_density_matrix L;
     add_snapshot_to_circuit := @add_snapshot_to_circuit L;
     unflagged_stabilizer_cycle := @unflagged_stabilizer_cycle L;
     compose := @compose L;
     circuit_qubits := @circuit_qubits L;
     circuit_append := @circuit_append L;
     measure_readout := @measure_readout L;
     single_qubit_circuit := @single_qubit_circuit L;
     shortest_transpile_from_distribution :=
       @shortest_transpile_from_distribution L;
     get_circuit_time := @get_circuit_time L;
     get_empty_noisy_circuit_v3 := @get_empty_noisy_circuit_v3 L;
     add_idle_noise_to_circuit := @add_idle_noise_to_circuit L;
     get_backend := @get_backend L;
     set_option := @set_option L;
     execute := @execute L;
     data_dm := @data_dm L;
     data_exp := @data_exp L;
     state_fidelity := @state_fidelity L;
     get_trivial_post_select_den_mat := @get_trivial_post_select_den_mat L;
     get_trivial_exp_value := @get_trivial_exp_value L;
     get_trivial_post_select_counts := @get_trivial_post_select_counts L;
     curve_fit := fit;
     np_save := @np_save L |}.

(** A fit that accepts data of any lengths. *)
Definition lenient_lib : SimLib :=
  with_curve_fit demo_lib
    (fun _ _ _ p0 =>
       Some ([default 0%Q (p0 !! 0%nat); 0%Q; 1%Q],
             [[1%Q; 0%Q; 0%Q]; [0%Q; 1%Q; 0%Q]; [0%Q; 0%Q; 1%Q]])).

(** The sweep of [Demo] with other switches. *)
Definition demo_sweep_with (single_qubit perfect_stab : bool)
  (save : option string) (kw : gmap string pyval) (T1 T2 : list Q)
  : sweep_args :=
  {| sw_T1 := Several T1; sw_T2 := Several T2;
     sw_single_qubit_gate_time := Scalar 20%Q;
     sw_two_qubit_gate_time := Scalar 100%Q;
     sw_measure_time := Scalar 300%Q;
     sw_feedback_time := Scalar 350%Q;
     sw_n_cycles := 2; sw_n_shots := 16;
     sw_single_qubit := single_qubit; sw_save := save;
     sw_time_axis := false; sw_perfect_stab := perfect_stab;
     sw_kwargs := kw |}.

Definition zeros (shape : list Z) (n : nat) : ndarray :=
  {| nd_shape := shape; nd_data := replicate n 0%Q |}.

Definition demo_loop_state : loop_state :=
  {| ls_index := 0;
     ls_error_array := zeros [1; 1; 1; 1; 1; 1]%Z 1;
     ls_var_array := zeros [1; 1; 1; 1; 1; 1]%Z 1 |}.

Definition demo_ffs (data_process_type snapshot_type : pyval) : ffs_args :=
  {| ffs_n_cycles := 2; ffs_n_shots := 16;
     ffs_gate_times := GT_other PyNone;
     ffs_T1 := 40000%Q; ffs_T2 := 60000%Q;
     ffs_reset := PyBool true;
     ffs_data_process_type := data_process_type;
     ffs_idle_noise := PyBool true;
     ffs_transpile := PyBool true;
     ffs_snapshot_type := snapshot_type;
     ffs_device := PyNone;
     ffs_device_properties := WACQT_device_properties;
     ffs_encoding := PyBool true;
     ffs_theta := PyInt 0; ffs_phi := PyInt 0;
     ffs_pauliop := PyStr "ZZZZZ";
     ffs_simulator_type := PyStr "density_matrix";
     ffs_kwargs := ∅ |}.

Definition demo_times : timedict :=
  [("dm_0", 0%Q); ("dm_1", 5%Q); ("dm_2", 5%Q); ("end", 8%Q)].

Definition demo_params : list Q := [40%Q; 60%Q; 20%Q; 100%Q; 300%Q; 350%Q].

Lemma sweep_perfect_stab_fit_data_lengths_witness :
  exists xdata ydata,
    last [EvExecute 16;
          EvCurveFit [3310%Q] [(1 # 5)%Q; (1 # 5)%Q] [40%Q; 0%Q; float_0_9]]
    = Some (EvCurveFit xdata ydata [40%Q; 0%Q; float_0_9]) /\
    length ydata = Z.to_nat 2 /\
    length xdata = (Z.to_nat 2 - 1)%nat.
Proof.
  eapply (sweep_perfect_stab_fit_data_lengths (L := lenient_lib)
            (demo_sweep_with false true None ∅ [40%Q] [60%Q])
            demo_loop_state 40%Q 60%Q 20%Q 100%Q 300%Q 350%Q
            (@Build_mstate lenient_lib 0%nat []) _
            (@Build_mstate lenient_lib 1%nat _)).
  - reflexivity.
  - reflexivity.
  - simpl. lia.
  - reflexivity.
  - vm_compute. reflexivity.
Defined.

Lemma sweep_single_qubit_fit_data_lengths_witness :
  exists xdata ydata,
    last [EvExecute 16;
          EvCurveFit [1%Q; 2%Q] [(1 # 6)%Q; (1 # 6)%Q] [40%Q; 0%Q; float_0_9]]
    = Some (EvCurveFit xdata ydata [40%Q; 0%Q; float_0_9]) /\
    length xdata = length ydata.
Proof.
  eapply (sweep_single_qubit_fit_data_lengths (L := demo_lib)
            (demo_sweep_with true false None ∅ [40%Q] [60%Q])
            demo_loop_state 40%Q 60%Q 20%Q 100%Q 300%Q 350%Q
            demo_start _ (@Build_mstate demo_lib 1%nat _)).
  - reflexivity.
  - reflexivity.
  - reflexivity.
  - vm_compute. reflexivity.
Defined.

Lemma sweep_gate_times_keyword_raises_witness :
  skipped [10%Q; 30%Q; 20%Q; 100%Q; 300%Q; 350%Q] = true.
Proof.
  eapply (sweep_gate_times_keyword_raises (L := demo_lib)
            (demo_sweep_with false false None {["gate_times" := PyNone]}
                             [10%Q] [30%Q])
            demo_loop_state _ demo_start).
  - exists PyNone. reflexivity.
  - reflexivity.
  - vm_compute. reflexivity.
Defined.

Lemma sweep_saves_after_the_loop_witness :
  exists tr,
    [EvSetOption "method" (PyStr "density_matrix"); EvExecute 16;
     EvCurveFit [1%Q; 2%Q] [(1 # 4)%Q; (1 # 4)%Q] [40%Q; 0%Q; float_0_9];
     EvSave "out"; EvSave "out_var"]
    = [] ++ tr ++ [EvSave "out"; EvSave "out_var"] /\
    forallb (fun e => negb (is_save e)) tr = true.
Proof.
  eapply (sweep_saves_after_the_loop (L := demo_lib)
            (demo_sweep_with false false (Some "out") ∅ [40%Q] [60%Q])
            demo_start _ _ (@Build_mstate demo_lib 1%nat _)).
  vm_compute. reflexivity.
Defined.

Lemma sweep_returns_arrays_of_the_sweep_shape_witness :
  sweep_array (demo_sweep [40%Q; 10%Q] [60%Q; 30%Q])
    {| nd_shape := [2; 2; 1; 1; 1; 1]%Z;
       nd_data := [40%Q; 40%Q; 0%Q; 0%Q] |} /\
  sweep_array (demo_sweep [40%Q; 10%Q] [60%Q; 30%Q])
    {| nd_shape := [2; 2; 1; 1; 1; 1]%Z;
       nd_data := [2%Q; 2%Q; 0%Q; 0%Q] |}.
Proof.
  eapply (sweep_returns_arrays_of_the_sweep_shape (L := demo_lib)
            (demo_sweep [40%Q; 10%Q] [60%Q; 30%Q]) demo_start).
  vm_compute. reflexivity.
Defined.

Lemma sweep_of_an_empty_list_does_nothing_witness :
  sweep_parameter_space (L := demo_lib) (demo_sweep [40%Q; 10%Q] [])
    demo_start
  = Some (({| nd_shape := [2; 0; 1; 1; 1; 1]%Z; nd_data := [] |},
           {| nd_shape := [2; 0; 1; 1; 1; 1]%Z; nd_data := [] |}),
          demo_start).
Proof.
  apply (sweep_of_an_empty_list_does_nothing (L := demo_lib)
           (demo_sweep [40%Q; 10%Q] []) demo_start).
  - right. left.
  - reflexivity.
Defined.

Lemma run_simulation_log_witness :
  exists simulator w1,
    get_backend (SimLib := demo_lib) "qasm_simulator" 0%nat
    = Some (simulator, w1) /\
    [EvSetOption "method" (PyStr "statevector"); EvExecute 16]
    = [] ++
      match set_option simulator "method" (PyStr "statevector") w1 with
      | Some _ => [EvSetOption "method" (PyStr "statevector"); EvExecute 16]
      | None => simulator_fallback 16
      end.
Proof.
  eapply (run_simulation_log (L := demo_lib) 2%Z tt 16 (PyStr "statevector")
            demo_start _ (@Build_mstate demo_lib 1%nat _)).
  vm_compute. reflexivity.
Defined.

Lemma fidelity_from_scratch_empty_circuit_mode_witness :
  (forall v,
     fidelity_from_scratch (L := demo_lib)
       (ffs_with_idle_noise (demo_ffs (PyStr "empty_circuit") (PyStr "dm")) v)
       demo_start
     = fidelity_from_scratch
         (demo_ffs (PyStr "empty_circuit") (PyStr "dm")) demo_start) /\
  (forall r s',
     fidelity_from_scratch (L := demo_lib)
       (demo_ffs (PyStr "empty_circuit") (PyStr "dm")) demo_start
     = Some (r, s') ->
     (exists fidelities time, r = FidTime fidelities time) /\
     st_log s' = [] ++ [gate_times_warning] ++ [EvExecute 16]).
Proof.
  apply (fidelity_from_scratch_empty_circuit_mode (L := demo_lib)
           (demo_ffs (PyStr "empty_circuit") (PyStr "dm")) demo_start).
  reflexivity.
Defined.

Lemma fidelity_from_scratch_unmatched_mode_witness :
  EmptyList = EmptyList /\
  exists before,
    [gate_times_warning; EvSetOption "method" (PyStr "density_matrix");
     EvExecute 16;
     EvPrint "Warning: Post-process not implemented, exiting..."]
    = [] ++ before
      ++ [EvExecute 16;
          EvPrint (unmatched_message (PyStr "post_process"))].
Proof.
  eapply (fidelity_from_scratch_unmatched_mode (L := demo_lib)
            (demo_ffs (PyStr "post_process") (PyStr "dm")) demo_start
            _ (@Build_mstate demo_lib 1%nat _)).
  - reflexivity.
  - reflexivity.
  - reflexivity.
  - reflexivity.
  - vm_compute. reflexivity.
Defined.

Lemma fidelity_from_scratch_unknown_snapshot_type_witness :
  fidelity_from_scratch (L := demo_lib)
    (demo_ffs (PyStr "post_select") (PyStr "statevector")) demo_start
  = None.
Proof.
  apply (fidelity_from_scratch_unknown_snapshot_type (L := demo_lib)
           (demo_ffs (PyStr "post_select") (PyStr "statevector")) demo_start);
    reflexivity.
Defined.

Lemma get_idle_single_qubit_snapshots_witness :
  exists body,
    single_qubit_circuit (SimLib := demo_lib)
      (Rx (PyInt 0) :: Rz (PyInt 0) :: SaveDensityMatrix "start" :: body)
    = Some 9%Z /\
    saved_labels body = ["snap_0"; "snap_1"; "snap_2"; "snap_3"] /\
    mapM (thermal_relaxation_error 40%Q 60%Q) [(5 - 0)%Q; (8 - 5)%Q]
    = Some (appended body).
Proof.
  apply (get_idle_single_qubit_snapshots (L := demo_lib) demo_times
           (PyStr "dm") 40%Q 60%Q (PyInt 0) (PyInt 0) (PyStr "Z") 9%Z);
    reflexivity.
Defined.

Lemma idle_relaxation_covers_the_circuit_time_witness :
  exists body durations,
    single_qubit_circuit (SimLib := demo_lib)
      (Rx (PyInt 0) :: Rz (PyInt 0) :: SaveDensityMatrix "start" :: body)
    = Some 9%Z /\
    Forall2 (fun d e => thermal_relaxation_error 40%Q 60%Q d = Some e)
            durations (appended body) /\
    Forall (fun d => (0 < d)%Q) durations /\
    (total durations == 8)%Q.
Proof.
  apply (idle_relaxation_covers_the_circuit_time (L := demo_lib) demo_times
           (PyStr "dm") 40%Q 60%Q (PyInt 0) (PyInt 0) (PyStr "Z") 9%Z).
  - unfold demo_times. simpl. repeat split; done.
  - reflexivity.
Defined.

End PipelineEdges.

(** ** Further properties of [get_error_rate] *)

Module ErrorRateEdges.

Import Py ErrorRate.

Local Open Scope R_scope.

(** The design matrix with rows [[1, xs i]]. *)
Definition design_of (xs : nat -> R) (n : nat) : matrix :=
  {| nrows := n; ncols := 2;
     cell := fun i j => match j with O => 1 | _ => xs i end |}.

(** The loop over [range(n_cycles)] fills column 1 with whatever
    [x_D[i][1]] becomes in each row. *)
Lemma fill_design_cells time (xs : nat -> R) (k : nat) :
  forall (a : nat) (M : matrix),
  (forall i, (a <= i < a + k)%nat ->
     design_entry time i (cell M i 1) = Some (xs i)) ->
  exists M',
    fill_design time (seq a k) M = Some M' /\
    nrows M' = nrows M /\ ncols M' = ncols M /\
    forall i j,
      cell M' i j
      = if (Nat.eqb j 1 && Nat.leb a i && Nat.ltb i (a + k))%bool
        then xs i else cell M i j.
Proof.
  induction k as [|k IH]; intros a M Hx.
  - exists M. repeat split. intros i j.
    destruct (Nat.eqb_spec j 1), (Nat.leb_spec a i),
      (Nat.ltb_spec i (a + 0)); cbn [andb]; try done; lia.
  - cbn [seq fill_design]. rewrite (Hx a) by lia.
    cbn [mbind option_bind].
    destruct (IH (S a) (set_cell M a 1 (xs a))) as (M' & Hfill & Hr & Hc & Hcell).
    { intros i Hi. cbn [set_cell cell].
      destruct (Nat.eqb_spec a i); [lia|]. cbn [andb]. apply Hx. lia. }
    exists M'. split; [exact Hfill|]. split; [exact Hr|]. split; [exact Hc|].
    intros i j. rewrite Hcell. cbn [set_cell cell].
    destruct (Nat.eqb_spec j 1), (Nat.eqb_spec 1 j), (Nat.eqb_spec a i),
      (Nat.leb_spec (S a) i), (Nat.leb_spec a i),
      (Nat.ltb_spec i (S a + k)), (Nat.ltb_spec i (a + S k));
      cbn [andb]; try lia; subst; done.
Qed.

(** Once the rows are known and their Gram matrix is invertible, the
    function returns the least-squares line through the logarithms. *)
Lemma get_error_rate_ols fidelity time (xs : nat -> R) (n : nat) :
  length fidelity = S n ->
  Forall (fun f => 0 < f) (tail fidelity) ->
  (forall i, (i < n)%nat -> design_entry time i 1 = Some (xs i)) ->
  gram_det (design_of xs n) <> 0 ->
  exists theta,
    get_error_rate fidelity time
    = Some (theta, squared_error theta fidelity n) /\
    is_ols (design_of xs n) (log_column fidelity n) theta.
Proof.
  intros Hlen Hpos Hx Hdet.
  destruct fidelity as [|f0 later]; [discriminate|].
  injection Hlen as Hlen. subst n. cbn [tail] in Hpos.
  pose proof Hpos as Hlater.
  unfold get_error_rate.
  destruct (fill_design_cells time xs (length later) 0 (np_ones (length later) 2))
    as (x_D & Hfill & Hxr & Hxc & Hxcell).
  { intros i Hi. apply Hx. lia. }
  rewrite Hfill, (mapM_np_log later Hlater). cbn [mbind option_bind].
  set (y := {| nrows := length later; ncols := 1;
               cell := fun i _ => nth i (ln <$> later) 0 |}).
  cbn [np_ones nrows ncols cell] in Hxr, Hxc, Hxcell.
  assert (HX : mat_eq x_D (design_of xs (length later))).
  { split; [exact Hxr|]. split; [exact Hxc|].
    intros i j Hi Hj. rewrite Hxr in Hi. rewrite Hxc in Hj.
    rewrite Hxcell. cbn [design_of cell]. cbn [Nat.leb andb].
    destruct j as [|[|j]]; [done| |lia]. cbn [Nat.eqb andb].
    replace (i <? 0 + length later)%nat with true
      by (symmetry; apply Nat.ltb_lt; lia).
    done. }
  assert (HY : mat_eq y (log_column (f0 :: later) (length later))).
  { split; [done|]. split; [done|]. intros i j Hi _.
    cbn [y log_column cell nth]. now apply nth_fmap_ln. }
  assert (Hyr : nrows y = nrows x_D) by (now rewrite Hxr).
  assert (Hyc : ncols y = 1%nat) by done.
  destruct (ols_formula_cells x_D y Hxc Hyr Hyc) as (theta & Hth & Hols).
  { intros E. apply Hdet. rewrite <- E. symmetry.
    unfold gram_det. rewrite !(gram_entry_mat_eq x_D _ _ _ HX) by lia. done. }
  assert (Hols' : is_ols x_D y theta) by exact Hols.
  destruct (is_ols_mat_eq _ _ _ _ theta HX HY Hxc Hyr Hyc Hols')
    as [Hspec Hd].
  unfold ols_formula in Hth.
  destruct (dot (transpose x_D) x_D) as [gram|]; [|discriminate].
  cbn [mbind option_bind] in Hth |- *.
  destruct (inv gram) as [gram_inv|]; [|discriminate].
  cbn [mbind option_bind] in Hth |- *.
  destruct (dot gram_inv (transpose x_D)) as [pinv|]; [|discriminate].
  cbn [mbind option_bind] in Hth |- *.
  rewrite Hth. cbn [mbind option_bind].
  exists theta. done.
Qed.

Lemma nth_decay (g : nat -> R) (n i : nat) :
  (i < n)%nat -> nth i (g <$> seq 0 n) 0 = g i.
Proof.
  intros Hi. rewrite <- (nth_default_eq i), nth_default_eq.
  change (g <$> seq 0 n) with (map g (seq 0 n)).
  rewrite (nth_indep _ 0 (g 0%nat)) by (now rewrite length_map, length_seq).
  rewrite map_nth, seq_nth by done. done.
Qed.

(** Fidelities that decay exactly exponentially, [fidelity[k] = exp(a + b*k)]
    for [k = 1..n] with [n >= 2], are fitted exactly: [theta] is [(a, b)],
    whatever [fidelity[0]] is, and the error [MSE] is 0. *)
Theorem get_error_rate_recovers_exponential_decay (f0 a b : R) (n : nat) :
  (2 <= n)%nat ->
  exists theta MSE,
    get_error_rate (f0 :: ((fun k => exp (a + b * INR (S k))) <$> seq 0 n))
                   None
    = Some (theta, MSE) /\
    cell theta 0 0 = a /\ cell theta 1 0 = b /\ MSE = 0.
Proof.
  intros Hn.
  set (fidelity := f0 :: ((fun k => exp (a + b * INR (S k))) <$> seq 0 n)).
  assert (Hfid : forall i, (i < n)%nat ->
                   nth (S i) fidelity 0 = exp (a + b * (1 + INR i))).
  { intros i Hi. unfold fidelity. cbn [nth].
    rewrite (nth_decay (fun k => exp (a + b * INR (S k)))) by done.
    rewrite S_INR. f_equal. ring. }
  assert (Hlen : length fidelity = S n)
    by (unfold fidelity; cbn [length]; now rewrite length_fmap, length_seq).
  destruct (get_error_rate_ols fidelity None (fun i => 1 + INR i) n)
    as (theta & Hrun & Hr & Hc & H0 & H1).
  { exact Hlen. }
  { unfold fidelity. cbn [tail].
    apply Forall_fmap, Forall_true. intros k. apply exp_pos. }
  { intros i _. cbn [design_entry]. f_equal. }
  { exact (design_gram_det n Hn). }
  exists theta, (squared_error theta fidelity n). split; [exact Hrun|].
  set (X := design_of (fun i => 1 + INR i) n) in *.
  set (y := log_column fidelity n) in *.
  assert (Hy : forall i, (i < n)%nat -> cell y i 0 = a + b * (1 + INR i)).
  { intros i Hi. unfold y. cbn [log_column cell].
    rewrite Hfid by done. apply ln_exp. }
  assert (M0 : moment X y 0 = a * gram_entry X 0 0 + b * gram_entry X 0 1).
  { unfold moment, gram_entry. rewrite <- !big_sum_scale, <- big_sum_add.
    apply big_sum_ext. intros i Hi. rewrite Hy by exact Hi.
    cbn [X design_of cell]. ring. }
  assert (M1 : moment X y 1 = a * gram_entry X 0 1 + b * gram_entry X 1 1).
  { unfold moment, gram_entry. rewrite <- !big_sum_scale, <- big_sum_add.
    apply big_sum_ext. intros i Hi. rewrite Hy by exact Hi.
    cbn [X design_of cell]. ring. }
  assert (Hdet : gram_det X <> 0) by exact (design_gram_det n Hn).
  assert (Ha : cell theta 0 0 = a).
  { rewrite H0, M0, M1. unfold gram_det in *.
    rewrite (gram_entry_sym X 1 0) in *. field. exact Hdet. }
  assert (Hb : cell theta 1 0 = b).
  { rewrite H1, M0, M1. unfold gram_det in *.
    rewrite (gram_entry_sym X 1 0) in *. field. exact Hdet. }
  split; [exact Ha|]. split; [exact Hb|].
  unfold squared_error. rewrite fold_left_big_sum.
  rewrite (big_sum_ext _ (fun _ => 0 * 0)); [|].
  - rewrite big_sum_scale. ring.
  - intros i Hi. rewrite Ha, Hb. rewrite Nat.add_1_r, Hfid by done.
    rewrite <- exp_plus, S_INR.
    replace (a + (INR i + 1) * b) with (a + b * (1 + INR i)) by ring.
    ring.
Qed.

Lemma get_error_rate_recovers_exponential_decay_witness :
  exists theta MSE,
    get_error_rate
      (1 :: ((fun k => exp (0 + (- (1 / 10)) * INR (S k))) <$> seq 0 3))
      None
    = Some (theta, MSE) /\
    cell theta 0 0 = 0 /\ cell theta 1 0 = - (1 / 10) /\ MSE = 0.
Proof.
  apply (get_error_rate_recovers_exponential_decay 1 0 (- (1 / 10)) 3). lia.
Defined.

(** With fewer than three fidelities there are at most one data point and
    two unknowns: [np.dot(x_D.T, x_D)] is singular and [np.linalg.inv]
    raises, with or without a [time] dictionary. *)
Theorem get_error_rate_needs_three_fidelities fidelity time :
  (length fidelity <= 2)%nat -> get_error_rate fidelity time = None.
Proof.
  intros Hlen.
  destruct fidelity as [|f0 [|f1 [|f2 rest]]]; [done | | | simpl in Hlen; lia].
  - unfold get_error_rate, dot, inv.
    cbn [length seq fill_design mapM mbind option_bind mret option_ret
         transpose np_ones nrows ncols cell big_sum].
    rewrite decide_True by done.
    cbn [mbind option_bind nrows ncols cell].
    rewrite decide_True by done.
    destruct (Req_EM_T _ 0) as [_ | Hne]; [done|].
    exfalso. apply Hne. ring.
  - unfold get_error_rate.
    cbn [length seq fill_design].
    destruct (design_entry time 0 (cell (np_ones 1 2) 0 1)) as [v|]; [|done].
    cbn [mbind option_bind fill_design].
    destruct (mapM np_log [f1]) as [logs|]; [|done].
    cbn [mbind option_bind]. unfold dot, inv.
    cbn [transpose set_cell np_ones nrows ncols cell big_sum].
    rewrite decide_True by done.
    cbn [mbind option_bind nrows ncols cell].
    rewrite decide_True by done.
    destruct (Req_EM_T _ 0) as [_ | Hne]; [done|].
    exfalso. apply Hne. cbn [Nat.eqb andb]. ring.
Qed.

Lemma get_error_rate_needs_three_fidelities_witness :
  get_error_rate [1; 9 / 10] None = None.
Proof.
  apply (get_error_rate_needs_three_fidelities [1; 9 / 10] None).
  simpl. lia.
Defined.

Lemma fill_design_raises t (i : nat) (rows : list nat) :
  forall M,
  i ∈ rows ->
  dict_get t ("exp_" +:+ str (Z.of_nat i + 1)) = None ->
  dict_get t ("dm_" +:+ str (Z.of_nat i + 1)) = None ->
  fill_design (Some t) rows M = None.
Proof.
  induction rows as [|j rows IH]; intros M Hin Hexp Hdm.
  - by apply elem_of_nil in Hin.
  - cbn [fill_design]. apply elem_of_cons in Hin as [<- | Hin].
    + cbn [design_entry]. now rewrite Hexp, Hdm.
    + destruct (design_entry (Some t) j (cell M j 1)); [|done].
      cbn [mbind option_bind]. now apply IH.
Qed.

(** With a [time] dictionary, a cycle [i+1] for which neither the key
    ['exp_(i+1)'] nor the key ['dm_(i+1)'] is present makes the function
    raise: the [except] branch looks the second key up unguarded. *)
Theorem get_error_rate_missing_time_key_raises fidelity t (i : nat) :
  (S i < length fidelity)%nat ->
  dict_get t ("exp_" +:+ str (Z.of_nat i + 1)) = None ->
  dict_get t ("dm_" +:+ str (Z.of_nat i + 1)) = None ->
  get_error_rate fidelity (Some t) = None.
Proof.
  intros Hi Hexp Hdm. destruct fidelity as [|f0 later]; [done|].
  cbn [length] in Hi. unfold get_error_rate.
  rewrite (fill_design_raises t i); [done | | done | done].
  apply elem_of_seq. lia.
Qed.

Lemma get_error_rate_missing_time_key_raises_witness :
  get_error_rate [1; 9 / 10; 8 / 10; 7 / 10]
                 (Some [("dm_1", 1000); ("dm_2", 2000)])
  = None.
Proof.
  apply (get_error_rate_missing_time_key_raises
           [1; 9 / 10; 8 / 10; 7 / 10] [("dm_1", 1000); ("dm_2", 2000)] 2).
  - simpl. lia.
  - reflexivity.
  - reflexivity.
Defined.

(** *** Fitting against the snapshot times *)

Lemma big_sum_zero_terms (f : nat -> R) (n : nat) :
  (forall i, 0 <= f i) -> big_sum f n = 0 ->
  forall i, (i < n)%nat -> f i = 0.
Proof.
  intros Hf. induction n as [|n IH]; intros Hsum i Hi; [lia|].
  cbn [big_sum] in Hsum.
  pose proof (big_sum_nonneg f n Hf) as Hn. pose proof (Hf n) as Hfn.
  destruct (decide (i = n)) as [-> | Hne]; [lra|].
  apply IH; [lra | lia].
Qed.

Lemma big_sum_const (c : R) (n : nat) : big_sum (fun _ => c) n = INR n * c.
Proof.
  induction n as [|n IH]; [simpl; ring|].
  cbn [big_sum]. rewrite IH, S_INR. ring.
Qed.

Lemma quadratic_form_expand (X : matrix) (u v : R) :
  big_sum (fun i => (u * cell X i 0 + v * cell X i 1) ^ 2) (nrows X)
  = u ^ 2 * gram_entry X 0 0 + 2 * u * v * gram_entry X 0 1
    + v ^ 2 * gram_entry X 1 1.
Proof.
  unfold gram_entry. generalize (nrows X) as m.
  induction m as [|m IH]; cbn [big_sum]; [ring | rewrite IH; ring].
Qed.

(** The Gram matrix of the rows [[1, xs i]] is invertible as soon as two
    of the [xs i] differ. *)
Lemma design_of_gram_det (xs : nat -> R) (n i j : nat) :
  (i < n)%nat -> (j < n)%nat -> xs i <> xs j ->
  gram_det (design_of xs n) <> 0.
Proof.
  intros Hi Hj Hne Hdet.
  set (X := design_of xs n) in *.
  assert (G00 : gram_entry X 0 0 = INR n).
  { unfold gram_entry. cbn [X design_of nrows cell].
    rewrite big_sum_const. ring. }
  assert (Hn : 0 < INR n) by (apply lt_0_INR; lia).
  pose proof (quadratic_form_expand X (- gram_entry X 0 1) (gram_entry X 0 0))
    as HQ.
  assert (Hzero : big_sum
                    (fun k => (- gram_entry X 0 1 * cell X k 0
                               + gram_entry X 0 0 * cell X k 1) ^ 2)
                    (nrows X) = 0).
  { rewrite HQ. unfold gram_det in Hdet.
    rewrite (gram_entry_sym X 1 0) in Hdet.
    replace ((- gram_entry X 0 1) ^ 2 * gram_entry X 0 0
             + 2 * - gram_entry X 0 1 * gram_entry X 0 0 * gram_entry X 0 1
             + gram_entry X 0 0 ^ 2 * gram_entry X 1 1)
      with (gram_entry X 0 0
            * (gram_entry X 0 0 * gram_entry X 1 1
               - gram_entry X 0 1 * gram_entry X 0 1)) by ring.
    rewrite Hdet. ring. }
  assert (Hall : forall k, (k < n)%nat ->
                   INR n * xs k = gram_entry X 0 1).
  { intros k Hk.
    pose proof (big_sum_zero_terms _ _
                  (fun k => pow2_ge_0 _) Hzero k Hk) as Hk0.
    cbn beta in Hk0. cbn [X design_of cell] in Hk0. fold X in Hk0.
    rewrite G00 in Hk0.
    assert (- gram_entry X 0 1 * 1 + INR n * xs k = 0) by nra.
    lra. }
  apply Hne. pose proof (Hall i Hi). pose proof (Hall j Hj).
  apply (Rmult_eq_reg_l (INR n)); lra.
Qed.

(** With a [time] dictionary whose cycles [1..n] are not all at the same
    time, and positive fidelities after the first, the function returns the
    least-squares line through the logarithms of [fidelity[1:]] against the
    times it looked up (scaled by [1e-3]): [theta] solves the normal
    equations of the design with rows [[1, xs i]] and no line has a smaller
    sum of squared residuals. *)
Theorem get_error_rate_fits_against_the_times
  fidelity t (xs : nat -> R) (n i j : nat) :
  length fidelity = S n ->
  Forall (fun f => 0 < f) (tail fidelity) ->
  (forall k, (k < n)%nat -> design_entry (Some t) k 1 = Some (xs k)) ->
  (i < n)%nat -> (j < n)%nat -> xs i <> xs j ->
  exists theta MSE,
    get_error_rate fidelity (Some t) = Some (theta, MSE) /\
    solves_normal_equations (design_of xs n) (log_column fidelity n) theta /\
    (forall a b,
       residual (design_of xs n) (log_column fidelity n)
                (cell theta 0 0) (cell theta 1 0)
       <= residual (design_of xs n) (log_column fidelity n) a b) /\
    MSE = big_sum
            (fun cycle =>
               (exp (cell theta 0 0) * exp (INR (cycle + 1) * cell theta 1 0)
                - nth (cycle + 1) fidelity 0) ^ 2) n.
Proof.
  intros Hlen Hpos Hx Hi Hj Hne.
  pose proof (design_of_gram_det xs n i j Hi Hj Hne) as Hdet.
  destruct (get_error_rate_ols fidelity (Some t) xs n Hlen Hpos Hx Hdet)
    as (theta & Hrun & Hols).
  exists theta, (squared_error theta fidelity n). split; [exact Hrun|].
  assert (Dcols : ncols (design_of xs n) = 2%nat) by done.
  assert (Lrows : nrows (log_column fidelity n) = nrows (design_of xs n))
    by done.
  assert (Lcols : ncols (log_column fidelity n) = 1%nat) by done.
  split; [|split].
  - now apply (is_ols_normal_equations _ _ Dcols Lrows Lcols).
  - intros a b. now apply (is_ols_minimises _ _).
  - unfold squared_error. now rewrite fold_left_big_sum.
Qed.

Lemma get_error_rate_fits_against_the_times_witness :
  exists theta MSE,
    get_error_rate [1; 1; 1]
                   (Some [("dm_1", 1000); ("exp_2", 3000); ("dm_2", 2000)])
    = Some (theta, MSE) /\
    solves_normal_equations (design_of (fun k => 1 + 2 * INR k) 2)
                            (log_column [1; 1; 1] 2) theta /\
    (forall a b,
       residual (design_of (fun k => 1 + 2 * INR k) 2)
                (log_column [1; 1; 1] 2)
                (cell theta 0 0) (cell theta 1 0)
       <= residual (design_of (fun k => 1 + 2 * INR k) 2)
                   (log_column [1; 1; 1] 2) a b) /\
    MSE = big_sum
            (fun cycle =>
               (exp (cell theta 0 0) * exp (INR (cycle + 1) * cell theta 1 0)
                - nth (cycle + 1) [1; 1; 1] 0) ^ 2) 2.
Proof.
  apply (get_error_rate_fits_against_the_times
           [1; 1; 1] [("dm_1", 1000); ("exp_2", 3000); ("dm_2", 2000)]
           (fun k => 1 + 2 * INR k) 2 0 1).
  - reflexivity.
  - repeat constructor; lra.
  - intros [|[|k]] Hk; [| |lia]; cbn [design_entry].
    + change (dict_get _ ("exp_" +:+ _)) with (@None R).
      change (dict_get _ ("dm_" +:+ _)) with (Some 1000).
      cbn. f_equal. lra.
    + change (dict_get _ ("exp_" +:+ _)) with (Some 3000).
      cbn. f_equal. lra.
  - lia.
  - lia.
  - simpl. lra.
Defined.

(** When every cycle is given the same time, the design is singular and
    the function raises, however many fidelities there are. *)
Theorem get_error_rate_equal_times_raises fidelity t (c : R) :
  (forall k, (S k < length fidelity)%nat ->
     design_entry (Some t) k 1 = Some c) ->
  get_error_rate fidelity (Some t) = None.
Proof.
  intros Hx. destruct fidelity as [|f0 later]; [done|].
  cbn [length] in Hx. unfold get_error_rate.
  destruct (fill_design_cells (Some t) (fun _ => c) (length later) 0
              (np_ones (length later) 2))
    as (x_D & Hfill & Hxr & Hxc & Hxcell).
  { intros k Hk. apply Hx. lia. }
  rewrite Hfill. cbn [mbind option_bind].
  destruct (mapM np_log later) as [logs|]; [|done].
  cbn [mbind option_bind]. unfold dot.
  cbn [transpose nrows ncols cell].
  rewrite decide_True by done.
  cbn [mbind option_bind]. unfold inv. cbn [nrows ncols cell].
  rewrite decide_True by done.
  cbn [np_ones nrows ncols cell] in Hxr, Hxc, Hxcell.
  assert (Hcell : forall k l, (k < length later)%nat ->
                    cell x_D k l = match l with 1%nat => c | _ => 1 end).
  { intros k l Hk. rewrite Hxcell. cbn [Nat.leb andb].
    replace (k <? 0 + length later)%nat with true
      by (symmetry; apply Nat.ltb_lt; lia).
    destruct l as [|[|l]]; done. }
  rewrite Hxr.
  rewrite (big_sum_ext _ (fun _ => 1 * 1)) by (intros; now rewrite !Hcell).
  rewrite (big_sum_ext (fun k => cell x_D k 1 * cell x_D k 1) (fun _ => c * c))
    by (intros; now rewrite !Hcell).
  rewrite (big_sum_ext (fun k => cell x_D k 0 * cell x_D k 1) (fun _ => 1 * c))
    by (intros; now rewrite !Hcell).
  rewrite (big_sum_ext (fun k => cell x_D k 1 * cell x_D k 0) (fun _ => c * 1))
    by (intros; now rewrite !Hcell).
  rewrite !big_sum_const.
  destruct (Req_EM_T _ 0) as [_ | Hne]; [done|].
  exfalso. apply Hne. ring.
Qed.

Lemma get_error_rate_equal_times_raises_witness :
  get_error_rate [1; 9 / 10; 8 / 10]
                 (Some [("dm_1", 1000); ("dm_2", 1000)])
  = None.
Proof.
  apply (get_error_rate_equal_times_raises
           [1; 9 / 10; 8 / 10] [("dm_1", 1000); ("dm_2", 1000)]
           (1000 * / 1000)).
  intros [|[|k]] Hk; [reflexivity | reflexivity | simpl in Hk; lia].
Defined.

End ErrorRateEdges.
